(** * Grid, connectivity and match engine of the slingshot bubble game

    A shallow embedding of the game engine in
    [src/components/GeminiSlingshot.tsx]: the hex-offset adjacency
    predicate, the colour policy, the flood fill that detects matches, the
    search for bubbles that lost their path to the ceiling, the resolution of
    a pending match, row spawning and the snap of a landed projectile.

    Modelling conventions.
    - Grid coordinates, scores and timestamps are [Z].  The source stores
      them in JavaScript numbers; every value the engine computes on them is
      an integer far below 2^53, where the arithmetic is exact.
    - A [Bubble] of the source is a mutable object shared between the board
      array, the list of matches and the pending match.  Objects live in a
      store ([list Bubble]); a reference is an index into the store; the
      arrays of the source are lists of references.  Mutating a field is an
      [alter] of the store, so every holder of the reference sees it.
    - The pixel fields [x], [y] and the animation velocities are derived
      from [row] and [col] or used for drawing only and are not stored.  The
      two places where the engine compares a pixel coordinate of a settled
      cell with the danger line are expressed on the row index.  The filter
      that ends the physics loop of a frame compares the pixel position of
      a bubble with the floor of the canvas; the outcome of that comparison
      is an input of the event ([Purge]).
    - Sound, particles, floating text and drawing are left out. *)

From Stdlib Require Import ZArith QArith Lia.
From Stdlib Require Import Zquot.
From stdpp Require Import base numbers list gmap sets strings pretty.
From Stdlib Require Import Rbase R_sqrt Qreals Lra.

Local Open Scope Z_scope.

(** ** Data model ([src/unnamed/part_001], the type declarations) *)

Inductive BubbleColor := red | blue | green | yellow | purple | orange.

Inductive Difficulty := Easy | Medium | Hard | Infinity.

#[global] Instance BubbleColor_eq_dec : EqDecision BubbleColor.
Proof. solve_decision. Defined.

#[global] Instance Difficulty_eq_dec : EqDecision Difficulty.
Proof. solve_decision. Defined.

(** [isFloating] and [popTime] are optional in the source; an absent
    [isFloating] is falsy and is modelled by [false], an absent [popTime]
    by [None]. *)
Record Bubble := mkBubble {
  id : string;
  row : Z;
  col : Z;
  color : BubbleColor;
  active : bool;
  isFloating : bool;
  popTime : option Z
}.

#[global] Instance Bubble_inhabited : Inhabited Bubble :=
  populate (mkBubble "" 0 0 red false false None).

(** ** Constants *)

Definition MAX_GRID_COLS : Z := 16.
Definition GRID_ROWS : Z := 10.
Definition SLINGSHOT_BOTTOM_OFFSET : Z := 220.
Definition BUBBLE_RADIUS : Z := 20.

Definition COLOR_KEYS : list BubbleColor :=
  [red; blue; green; yellow; purple; orange].

(** [COLOR_CONFIG[c].points] *)
Definition points (c : BubbleColor) : Z :=
  match c with
  | red => 100
  | blue => 150
  | green => 200
  | yellow => 250
  | purple => 300
  | orange => 500
  end.

(** ** Adjacency on the hex-offset grid *)

(** [isNeighbor]; [%] of JavaScript truncates toward zero, as [Z.rem]. *)
Definition isNeighbor (a b : Bubble) : bool :=
  let dr := row b - row a in
  let dc := col b - col a in
  if bool_decide (Z.abs dr > 1) then false
  else if bool_decide (dr = 0) then bool_decide (Z.abs dc = 1)
  else if bool_decide (Z.rem (row a) 2 ≠ 0)
       then bool_decide (dc = 0) || bool_decide (dc = 1)
       else bool_decide (dc = -1) || bool_decide (dc = 0).

(** The adjacency rule in the words of the specification.  The rule speaks
    of "the lower-row cell" of a pair in adjacent rows; the phrase can mean
    the cell with the smaller row index or the cell drawn lower on the
    screen (the larger row index), so the rule is given for a choice
    [lowerRow] of that cell's row index. *)
Definition specNeighbors (lowerRow : Z → Z → Z) (a b : Bubble) : bool :=
  let dr := row b - row a in
  let dc := col b - col a in
  if bool_decide (Z.abs dr > 1) then false
  else if bool_decide (dr = 0) then bool_decide (Z.abs dc = 1)
  else if Z.odd (lowerRow (row a) (row b))
       then bool_decide (dc = 0) || bool_decide (dc = 1)
       else bool_decide (dc = -1) || bool_decide (dc = 0).

(** A bubble at a grid cell, for examples. *)
Definition cell (r c : Z) : Bubble := mkBubble "" r c red true false None.

(** ** The object store *)

(** A reference to a [Bubble] object is its index in the store. *)
Abbreviation ref := nat (only parsing).

(** [b.active && !b.isFloating]: the bubble is settled on the board. *)
Definition settledB (b : Bubble) : bool := active b && negb (isFloating b).

Definition settled (h : list Bubble) (r : ref) : bool := settledB (h !!! r).

(** Field assignments. *)
Definition setRow (z : Z) (b : Bubble) : Bubble :=
  mkBubble (id b) z (col b) (color b) (active b) (isFloating b) (popTime b).

Definition setActive (a : bool) (b : Bubble) : Bubble :=
  mkBubble (id b) (row b) (col b) (color b) a (isFloating b) (popTime b).

Definition setIsFloating (f : bool) (b : Bubble) : Bubble :=
  mkBubble (id b) (row b) (col b) (color b) (active b) f (popTime b).

Definition setPopTime (t : Z) (b : Bubble) : Bubble :=
  mkBubble (id b) (row b) (col b) (color b) (active b) (isFloating b) (Some t).

(** [refs.forEach(b => f(b))] for a field assignment [f]. *)
Definition forEach (f : Bubble → Bubble) (refs : list ref) (h : list Bubble)
  : list Bubble :=
  foldl (λ h' r, alter f r h') h refs.

(** Allocation of fresh objects: they are appended to the store, the
    result lists their references in order. *)
Definition alloc (h : list Bubble) (new : list Bubble)
  : list Bubble * list ref :=
  (h ++ new, seq (length h) (length new)).

(** ** Random draws *)

(** [Math.random()] returns a double in [[0, 1)]; doubles in that range
    produced by the generator are multiples of 2^-53.  A draw is modelled by
    its numerator [m], with [0 <= m < 2^53], standing for [m / 2^53].  The
    draws of one call of the engine come from a stream [rng]; a computation
    that draws is a state transformer on the number of draws consumed. *)
Definition Rand (A : Type) : Type := nat → A * nat.

Definition retR {A} (x : A) : Rand A := λ k, (x, k).

Definition bindR {A B} (m : Rand A) (f : A → Rand B) : Rand B :=
  λ k, let '(x, k') := m k in f x k'.

Notation "'let*' x ':=' m 'in' f" := (bindR m (λ x, f))
  (at level 10, x name, m at level 100, f at level 200).

Definition TWO53 : Z := 2 ^ 53.

Definition mathRandom (rng : nat → Z) : Rand Z :=
  λ k, (rng k `mod` TWO53, S k).

(** [Math.random() < p] for the draw [m / 2^53] and the double [p]: both
    are exact rationals, so the comparison of doubles is the comparison of
    rationals. *)
Definition randomLt (m : Z) (p : Q) : bool :=
  m * Zpos (Qden p) <? Qnum p * TWO53.

(** The doubles that the decimal literals of the source denote: the
    nearest double of each ([literals_are_nearest_doubles]). *)
Definition double_0_85 : Q := Qmake 7656119366529843 9007199254740992.
Definition double_0_9 : Q := Qmake 8106479329266893 9007199254740992.
Definition double_0_95 : Q := Qmake 8556839292003942 9007199254740992.
Definition double_0_35 : Q := Qmake 6305039478318694 18014398509481984.
Definition double_0_1 : Q := Qmake 7205759403792794 72057594037927936.
Definition double_0_05 : Q := Qmake 7205759403792794 144115188075855872.

(** [isNearestDouble d lit]: [d] is a normal double (a mantissa of 53 bits
    over a power of two) and lies less than half a unit of its last place
    from [lit], so that [d] is the double the literal [lit] denotes. *)
Definition isNearestDouble (d lit : Q) : bool :=
  let e := Z.log2 (Zpos (Qden d)) in
  (Zpos (Qden d) =? 2 ^ e) && (2 ^ 52 <=? Qnum d) && (Qnum d <? 2 ^ 53)
  && negb (Qle_bool (1 # 2) ((d - lit) * inject_Z (2 ^ e)))
  && negb (Qle_bool (1 # 2) ((lit - d) * inject_Z (2 ^ e))).

(** The product of two doubles is the double nearest to the exact product,
    a tie going to the even mantissa.  For an integer [p >= 0],
    [roundToDouble p] is the numerator over 2^53 of the double nearest to
    [p / 2^53]: [p] itself while it has at most 53 bits, else [p] rounded to
    its 53 leading bits. *)
Definition roundToDouble (p : Z) : Z :=
  if p <? TWO53 then p
  else
    let s := Z.log2 p - 52 in
    let q := p `div` 2 ^ s in
    let r := p `mod` 2 ^ s in
    let half := 2 ^ (s - 1) in
    let q' := if (half <? r) || ((r =? half) && Z.odd q) then q + 1 else q in
    q' * 2 ^ s.

(** [Math.floor(Math.random() * n)] for the draw [m / 2^53]: the floor of
    the double product. *)
Definition randomIndex (m : Z) (n : nat) : nat :=
  Z.to_nat (roundToDouble (m * Z.of_nat n) `div` TWO53).

#[global] Instance BubbleColor_inhabited : Inhabited BubbleColor := populate red.

(** [arr[Math.floor(Math.random() * arr.length)]].  The index is below the
    length whenever the array is not empty ([randomIndex_lt]). *)
Definition randomElement {A} `{Inhabited A} (rng : nat → Z) (arr : list A)
  : Rand A :=
  let* m := mathRandom rng in retR (arr !!! randomIndex m (length arr)).

(** [Array.from(new Set(xs))]: duplicates dropped, first occurrences kept
    in order. *)
Definition arrayFromSet {A} `{EqDecision A} (xs : list A) : list A :=
  foldl (λ acc x, if decide (x ∈ acc) then acc else acc ++ [x]) [] xs.

(** ** Configuration tables *)

Record DifficultyConfig := mkConfig {
  dropInterval : Z;
  initialRows : Z;
  density : Q;
  winScore : Z
}.

Definition MAX_SAFE_INTEGER : Z := 2 ^ 53 - 1.

Definition DIFFICULTY_CONFIG (d : Difficulty) : DifficultyConfig :=
  match d with
  | Easy => mkConfig 60000 6 double_0_85 3000
  | Medium => mkConfig 40000 8 double_0_9 8000
  | Hard => mkConfig 20000 10 double_0_95 15000
  | Infinity => mkConfig 30000 9 double_0_9 MAX_SAFE_INTEGER
  end.

(** ** Colour policy *)

(** [arr.filter(c => !forbiddenColors.includes(c))] *)
Definition notForbidden (forbiddenColors arr : list BubbleColor)
  : list BubbleColor :=
  filter (λ c, c ∉ forbiddenColors) arr.

(** [currentBubbles.filter(b => b.active).map(b => b.color)] made unique. *)
Definition activeColorsOf (h : list Bubble) (currentBubbles : list ref)
  : list BubbleColor :=
  arrayFromSet
    (map (λ r, color (h !!! r))
       (filter (λ r, active (h !!! r) = true) currentBubbles)).

Definition introduceNewColorChance (difficulty : Difficulty) : Q :=
  match difficulty with
  | Infinity => double_0_35
  | Hard => double_0_1
  | _ => double_0_05
  end.

Definition getNextBubbleColor (rng : nat → Z) (h : list Bubble)
    (currentBubbles : list ref) (forbiddenColors : list BubbleColor)
    (difficulty : Difficulty) : Rand BubbleColor :=
  let activeColors := activeColorsOf h currentBubbles in
  if bool_decide (length activeColors = 0%nat) then randomElement rng COLOR_KEYS
  else
    let candidates := notForbidden forbiddenColors activeColors in
    let candidates :=
      if bool_decide (length candidates = 0%nat)
      then notForbidden forbiddenColors COLOR_KEYS else candidates in
    if bool_decide (length candidates = 0%nat) then randomElement rng COLOR_KEYS
    else
      let* m := mathRandom rng in
      let allValid := notForbidden forbiddenColors COLOR_KEYS in
      if randomLt m (introduceNewColorChance difficulty)
         && bool_decide (0 < length allValid)%nat
      then randomElement rng allValid
      else randomElement rng candidates.

(** ** Game state and the inputs of a call *)

(** The refs and the React state of the component that the engine reads
    and writes.  [userProfile] keeps the difficulty of the profile, the only
    field of it the engine uses. *)
Record Game := mkGame {
  heap : list Bubble;
  bubbles : list ref;
  pendingMatches : list ref;
  isQuizActive : bool;
  score : Z;
  lastDropTime : Z;
  hasWon : bool;
  gameWon : bool;
  isPaused : bool;
  gameOver : bool;
  isPinching : bool;
  isFlying : bool;
  gridCols : Z;
  currentAmmo : BubbleColor;
  nextAmmo : BubbleColor;
  userProfile : option Difficulty
}.

(** What a call of the engine reads from its environment: the values
    [Math.random()] returns during the call, the clocks, the canvas size,
    the order in which [sort(() => Math.random() - 0.5)] leaves
    [COLOR_KEYS], and [gameWonSeen], the value of the state [gameWon] that
    the frame callback sees.  The callback is created by an effect whose
    dependencies are [initGrid] and [userProfile], so it sees the [gameWon]
    of the render that created it and not the current one. *)
Record World := mkWorld {
  rng : nat → Z;
  dateNow : Z;
  perfNow : Z;
  canvasWidth : Z;
  canvasHeight : Z;
  shuffled : list BubbleColor;
  gameWonSeen : bool
}.

Definition withBoard (h : list Bubble) (bs : list ref) (g : Game) : Game :=
  mkGame h bs (pendingMatches g) (isQuizActive g) (score g) (lastDropTime g)
    (hasWon g) (gameWon g) (isPaused g) (gameOver g) (isPinching g)
    (isFlying g) (gridCols g) (currentAmmo g) (nextAmmo g) (userProfile g).

Definition withQuiz (q : bool) (pm : list ref) (g : Game) : Game :=
  mkGame (heap g) (bubbles g) pm q (score g) (lastDropTime g)
    (hasWon g) (gameWon g) (isPaused g) (gameOver g) (isPinching g)
    (isFlying g) (gridCols g) (currentAmmo g) (nextAmmo g) (userProfile g).

Definition withScore (s : Z) (g : Game) : Game :=
  mkGame (heap g) (bubbles g) (pendingMatches g) (isQuizActive g) s
    (lastDropTime g) (hasWon g) (gameWon g) (isPaused g) (gameOver g)
    (isPinching g) (isFlying g) (gridCols g) (currentAmmo g) (nextAmmo g)
    (userProfile g).

Definition withLastDropTime (t : Z) (g : Game) : Game :=
  mkGame (heap g) (bubbles g) (pendingMatches g) (isQuizActive g) (score g)
    t (hasWon g) (gameWon g) (isPaused g) (gameOver g) (isPinching g)
    (isFlying g) (gridCols g) (currentAmmo g) (nextAmmo g) (userProfile g).

(** [hasWonRef.current = w; setGameWon(w); setIsPaused(p)] *)
Definition withWon (w p : bool) (g : Game) : Game :=
  mkGame (heap g) (bubbles g) (pendingMatches g) (isQuizActive g) (score g)
    (lastDropTime g) w w p (gameOver g) (isPinching g) (isFlying g)
    (gridCols g) (currentAmmo g) (nextAmmo g) (userProfile g).

Definition withGameOver (o : bool) (g : Game) : Game :=
  mkGame (heap g) (bubbles g) (pendingMatches g) (isQuizActive g) (score g)
    (lastDropTime g) (hasWon g) (gameWon g) (isPaused g) o (isPinching g)
    (isFlying g) (gridCols g) (currentAmmo g) (nextAmmo g) (userProfile g).

Definition withIsFlying (f : bool) (g : Game) : Game :=
  mkGame (heap g) (bubbles g) (pendingMatches g) (isQuizActive g) (score g)
    (lastDropTime g) (hasWon g) (gameWon g) (isPaused g) (gameOver g)
    (isPinching g) f (gridCols g) (currentAmmo g) (nextAmmo g)
    (userProfile g).

Definition withGridCols (n : Z) (g : Game) : Game :=
  mkGame (heap g) (bubbles g) (pendingMatches g) (isQuizActive g) (score g)
    (lastDropTime g) (hasWon g) (gameWon g) (isPaused g) (gameOver g)
    (isPinching g) (isFlying g) n (currentAmmo g) (nextAmmo g)
    (userProfile g).

Definition withAmmo (c n : BubbleColor) (g : Game) : Game :=
  mkGame (heap g) (bubbles g) (pendingMatches g) (isQuizActive g) (score g)
    (lastDropTime g) (hasWon g) (gameWon g) (isPaused g) (gameOver g)
    (isPinching g) (isFlying g) (gridCols g) c n (userProfile g).

(** ** Loops that draw *)

(** [for (const x of xs) s = body(s, x)] in the draw monad. *)
Fixpoint forR {A S} (xs : list A) (body : S → A → Rand S) (s : S) : Rand S :=
  match xs with
  | [] => retR s
  | x :: xs' => let* s' := body s x in forR xs' body s'
  end.

(** [for (let i = 0; i < n; i++)]: the values [i] takes. *)
Definition upto (n : Z) : list Z := seqZ 0 n.

(** The last two elements an array holds, last first, when it has two. *)
Definition lastTwo {A} (arr : list A) : option (A * A) :=
  match reverse arr with
  | prev1 :: prev2 :: _ => Some (prev1, prev2)
  | _ => None
  end.

(** [r % 2 !== 0 ? cols - 1 : cols] *)
Definition colsOfRow (cols r : Z) : Z :=
  if bool_decide (Z.rem r 2 ≠ 0) then cols - 1 else cols.

(** ** Seeding the board *)

Definition numColorsOf (difficulty : Difficulty) : nat :=
  match difficulty with
  | Easy => 4
  | Medium => 5
  | Hard => 6
  | Infinity => 6
  end.

(** The id [`${r}-${c}-${Date.now()}`]. *)
Definition cellId (r c t : Z) : string :=
  pretty r +:+ "-" +:+ pretty c +:+ "-" +:+ pretty t.

(** The id [`new-${Date.now()}-${c}`]. *)
Definition newRowId (t c : Z) : string :=
  "new-" +:+ pretty t +:+ "-" +:+ pretty c.

(** One cell of the double loop of [initGrid]. *)
Definition initGridCell (w : World) (cfg : DifficultyConfig)
    (levelPalette : list BubbleColor) (r : Z)
    (newBubbles : list Bubble) (c : Z) : Rand (list Bubble) :=
  let* m := mathRandom (rng w) in
  if randomLt m (density cfg) then
    let forbidden :=
      match lastTwo newBubbles with
      | Some (prev1, prev2) =>
          if bool_decide (row prev1 = r)
             && bool_decide (color prev1 = color prev2)
          then [color prev1] else []
      | None => []
      end in
    let candidates := notForbidden forbidden levelPalette in
    let candidates :=
      if bool_decide (length candidates = 0%nat)
      then levelPalette else candidates in
    let* selectedColor := randomElement (rng w) candidates in
    retR (newBubbles ++
            [mkBubble (cellId r c (dateNow w)) r c selectedColor
               true false None])
  else retR newBubbles.

Definition initGrid (w : World) (width : Z) (difficulty : Difficulty)
    (g : Game) : Game :=
  let calculatedCols := Z.max 5 ((width - 40) `div` 42) in
  let cols := Z.min MAX_GRID_COLS calculatedCols in
  let cfg := DIFFICULTY_CONFIG difficulty in
  let levelPalette := take (numColorsOf difficulty) (shuffled w) in
  let '(newBubbles, k) :=
    forR (upto (initialRows cfg))
      (λ acc r,
         forR (upto (colsOfRow cols r))
           (initGridCell w cfg levelPalette r) acc)
      [] 0%nat in
  let '(h, refs) := alloc (heap g) newBubbles in
  let g := withBoard h refs (withGridCols cols g) in
  let g := withLastDropTime (perfNow w) g in
  let g := withWon false (isPaused g) (withGameOver false g) in
  let activeColors := arrayFromSet (map color newBubbles) in
  if bool_decide (0 < length activeColors)%nat then
    let '(c, k) := randomElement (rng w) activeColors k in
    let '(n, _) := randomElement (rng w) activeColors k in
    withAmmo c n g
  else g.

(** ** Spawning a row *)

(** [y > canvasHeight - SLINGSHOT_BOTTOM_OFFSET - 80] for the pixel
    position [y = BUBBLE_RADIUS + row * ROW_HEIGHT] of a grid row, where
    [ROW_HEIGHT = BUBBLE_RADIUS * sqrt 3].  With [d] the integer
    [canvasHeight - 300 - 20], the test is [row * 20 * sqrt 3 > d], decided
    on the squares [1200 * row^2] and [d^2]. *)
Definition rowPastDangerLine (height r : Z) : bool :=
  let d := height - SLINGSHOT_BOTTOM_OFFSET - 80 - BUBBLE_RADIUS in
  if bool_decide (0 ≤ r)
  then bool_decide (d < 0) || bool_decide (d * d < 1200 * r * r)
  else bool_decide (d < 0) && bool_decide (1200 * r * r < d * d).

(** One column of the loop of [addNewRow]. *)
Definition addNewRowCell (w : World) (h : list Bubble) (board : list ref)
    (rowDensity : Q) (difficulty : Difficulty)
    (newRowBubbles : list Bubble) (c : Z) : Rand (list Bubble) :=
  let* m := mathRandom (rng w) in
  if randomLt m rowDensity then
    let forbidden :=
      match lastTwo newRowBubbles with
      | Some (prev1, prev2) =>
          if bool_decide (color prev1 = color prev2)
          then [color prev1] else []
      | None => []
      end in
    let* c' := getNextBubbleColor (rng w) h board forbidden difficulty in
    retR (newRowBubbles ++
            [mkBubble (newRowId (dateNow w) c) 0 c c' true false None])
  else retR newRowBubbles.

Definition addNewRow (w : World) (g : Game) : Game :=
  let h := forEach (λ b, setRow (row b + 1) b) (bubbles g) (heap g) in
  let g := withBoard h (bubbles g) g in
  (* lowestY > canvasHeight - SLINGSHOT_BOTTOM_OFFSET - 80: the largest
     [y] of an active bubble exceeds the line iff one of them does *)
  if existsb (λ r, active (h !!! r)
                   && rowPastDangerLine (canvasHeight w) (row (h !!! r)))
       (bubbles g)
  then withGameOver true g
  else
    let colsInRow := gridCols g in
    let difficulty := default Medium (userProfile g) in
    let rowDensity :=
      match userProfile g with
      | Some d => density (DIFFICULTY_CONFIG d)
      | None => double_0_85
      end in
    let '(newRowBubbles, _) :=
      forR (upto colsInRow)
        (addNewRowCell w h (bubbles g) rowDensity difficulty) [] 0%nat in
    let '(h', refs) := alloc h newRowBubbles in
    withLastDropTime (perfNow w) (withBoard h' (bubbles g ++ refs) g).

(** ** Bubbles that lost their path to the ceiling *)

(** [for (const n of ns) connected.add(n.id)] *)
Definition addIds (h : list Bubble) (connected : gset string)
    (ns : list ref) : gset string :=
  foldl (λ s n, s ∪ {[ id (h !!! n) ]}) connected ns.

(** [allBubbles.filter(b => b.active && !b.isFloating
      && !connected.has(b.id) && isNeighbor(curr, b))] *)
Definition neighborsOf (h : list Bubble) (allBubbles : list ref)
    (connected : gset string) (curr : ref) : list ref :=
  filter (λ b, settled h b ∧ (id (h !!! b) ∉ connected)
               ∧ isNeighbor (h !!! curr) (h !!! b)) allBubbles.

(** The [while (head < queue.length)] loop of [findFloatingBubbles].  Each
    turn takes [queue[head]], adds to [connected] the ids of the settled
    bubbles next to it that are not yet connected, and appends them to the
    queue.  [fuel] bounds the number of turns; [None] means it ran out. *)
Fixpoint floatingLoop (fuel : nat) (h : list Bubble) (allBubbles : list ref)
    (connected : gset string) (queue : list ref) (head : nat)
  : option (gset string) :=
  match queue !! head with
  | None => Some connected
  | Some curr =>
      match fuel with
      | O => None
      | S fuel' =>
          let neighbors := neighborsOf h allBubbles connected curr in
          floatingLoop fuel' h allBubbles (addIds h connected neighbors)
            (queue ++ neighbors) (S head)
      end
  end.

(** [allBubbles.filter(b => b.row === 0 && b.active && !b.isFloating)] *)
Definition ceilingBubbles (h : list Bubble) (allBubbles : list ref)
  : list ref :=
  filter (λ b, row (h !!! b) = 0 ∧ active (h !!! b)
               ∧ ¬ isFloating (h !!! b)) allBubbles.

(** The ids connected to the ceiling.  A bubble enters the queue at most
    once, so [length allBubbles] turns are enough
    ([floatingLoop_terminates]). *)
Definition connectedIds (h : list Bubble) (allBubbles : list ref)
  : option (gset string) :=
  let queue := ceilingBubbles h allBubbles in
  let connected := addIds h ∅ queue in
  floatingLoop (length allBubbles) h allBubbles connected queue 0.

Definition findFloatingBubbles (h : list Bubble) (allBubbles : list ref)
  : list ref :=
  match connectedIds h allBubbles with
  | Some connected =>
      filter (λ b, settled h b ∧ id (h !!! b) ∉ connected) allBubbles
  | None => []
  end.

(** ** Detecting a match *)

(** [bubbles.current.filter(b => b.active && !b.isFloating
      && !visited.has(b.id) && isNeighbor(current, b))] *)
Definition pushedOf (h : list Bubble) (board : list ref)
    (visited : gset string) (current : ref) : list ref :=
  filter (λ b, settled h b ∧ (id (h !!! b) ∉ visited)
               ∧ isNeighbor (h !!! current) (h !!! b)) board.

(** The [while (toCheck.length > 0)] loop of [checkMatches].  The stack
    [toCheck] is kept with its top first: [pop()] takes the head and
    [push(...xs)] puts the elements of [xs] on top, the last one topmost. *)
Fixpoint matchLoop (fuel : nat) (h : list Bubble) (board : list ref)
    (startColor : BubbleColor) (toCheck : list ref) (visited : gset string)
    (matches : list ref) : option (list ref) :=
  match toCheck with
  | [] => Some matches
  | current :: rest =>
      match fuel with
      | O => None
      | S fuel' =>
          if decide (id (h !!! current) ∈ visited)
          then matchLoop fuel' h board startColor rest visited matches
          else
            let visited' := visited ∪ {[ id (h !!! current) ]} in
            if decide (color (h !!! current) = startColor) then
              matchLoop fuel' h board startColor
                (reverse (pushedOf h board visited' current) ++ rest)
                visited' (matches ++ [current])
            else matchLoop fuel' h board startColor rest visited' matches
      end
  end.

(** Turns that are enough for a board of [n] bubbles
    ([matchLoop_terminates]). *)
Definition matchFuel (n : nat) : nat := S (S n * S (S n)).

(** The array [matches] at the end of the loop. *)
Definition matchesOf (h : list Bubble) (board : list ref) (startBubble : ref)
  : option (list ref) :=
  matchLoop (matchFuel (length board)) h board (color (h !!! startBubble))
    [startBubble] ∅ [].

(** [triggerQuiz], up to its first [await]: the quiz becomes active and the
    matches become the pending match. *)
Definition triggerQuiz (matches : list ref) (g : Game) : Game :=
  withQuiz true matches g.

Definition checkMatches (startBubble : ref) (g : Game) : Game * bool :=
  let matches := default [] (matchesOf (heap g) (bubbles g) startBubble) in
  if bool_decide (3 ≤ length matches)%nat
  then (triggerQuiz matches g, true)
  else (g, false).

(** ** Resolving a pending match *)

(** [b.active = false; b.popTime = performance.now()] *)
Definition popBubble (t : Z) (b : Bubble) : Bubble :=
  setPopTime t (setActive false b).

(** The board after every bubble of the pending match is popped. *)
Definition afterPop (t : Z) (g : Game) : list Bubble :=
  forEach (popBubble t) (pendingMatches g) (heap g).

(** The bubbles [completeMatch] finds floating once the match is popped. *)
Definition floatingAfterPop (t : Z) (g : Game) : list ref :=
  findFloatingBubbles (afterPop t g) (bubbles g).

(** The branch [if (awarded && userProfile)] of [completeMatch]. *)
Definition awardMatch (w : World) (difficulty : Difficulty) (g : Game)
  : Game :=
  let targetColor :=
    match pendingMatches g with
    | first :: _ => color (heap g !!! first)
    | [] => red
    end in
  let basePoints := points targetColor in
  let h := afterPop (perfNow w) g in
  let pts := foldl (λ p _, p + basePoints) 0 (pendingMatches g) in
  let floating := floatingAfterPop (perfNow w) g in
  let '(h, pts) :=
    if bool_decide (0 < length floating)%nat then
      (forEach (setIsFloating true) floating h,
       pts + Z.of_nat (length floating) * basePoints * 2)
    else (h, pts) in
  let g := withScore (score g + (pts + 500)) (withBoard h (bubbles g) g) in
  if bool_decide (difficulty ≠ Infinity) && negb (hasWon g)
     && bool_decide (winScore (DIFFICULTY_CONFIG difficulty) ≤ score g)
  then withWon true true g
  else g.

(** [canvasRef.current?.width || 1280] *)
Definition widthOr1280 (w : World) : Z :=
  if bool_decide (canvasWidth w = 0) then 1280 else canvasWidth w.

Definition completeMatch (w : World) (awarded : bool) (g : Game) : Game :=
  let g :=
    match awarded, userProfile g with
    | true, Some difficulty => awardMatch w difficulty g
    | _, _ => g
    end in
  let g := withQuiz false [] g in
  let activeCount := length (filter (λ b, settled (heap g) b) (bubbles g)) in
  match userProfile g with
  | Some difficulty =>
      if bool_decide (activeCount = 0%nat)
      then initGrid w (widthOr1280 w) difficulty g
      else g
  | None => g
  end.

Definition skipQuiz (w : World) (g : Game) : Game := completeMatch w true g.

(** ** The frame callback *)

(** The "Auto Drop" step of [onResults], with the early return that
    precedes it. *)
Definition onResults_autoDrop (w : World) (g : Game) : Game :=
  if isPaused g || gameOver g then g
  else
    match userProfile g with
    | Some difficulty =>
        if negb (isQuizActive g) && negb (isPinching g)
           && negb (isFlying g) && negb (gameWonSeen w)
        then
          if bool_decide
               (dropInterval (DIFFICULTY_CONFIG difficulty)
                < perfNow w - lastDropTime g)
          then addNewRow w g
          else g
        else g
    | None => g
    end.

Definition POP_DURATION : Z := 350.

(** The test of the filter that ends the physics loop of a frame.
    [belowFloor b] is [b.y < canvas.height + 100] for the pixel position the
    physics loop has left the bubble at, which the model does not store;
    [b.popTime] is truthy when it is set and not 0. *)
Definition purgeKeeps (now : Z) (belowFloor : ref → bool) (h : list Bubble)
    (b : ref) : bool :=
  if active (h !!! b) then belowFloor b
  else
    match popTime (h !!! b) with
    | Some t => bool_decide (t ≠ 0) && bool_decide (now - t < POP_DURATION)
    | None => false
    end.

(** The purge of a frame of [onResults], behind the early return of the
    callback: [bubbles.current = bubbles.current.filter(...)].  The physics
    loop before it moves floating bubbles only, in fields the model does not
    store. *)
Definition onResults_purge (w : World) (belowFloor : ref → bool) (g : Game)
  : Game :=
  if isPaused g || gameOver g then g
  else
    withBoard (heap g)
      (filter (λ b, purgeKeeps (perfNow w) belowFloor (heap g) b = true)
         (bubbles g)) g.

(** Releasing the sling with enough pull: the ball starts to fly.  Aiming
    is refused while a quiz is active, after game over and during a
    flight. *)
Definition launch (g : Game) : Game :=
  if isQuizActive g || gameOver g || isFlying g then g
  else withIsFlying true g.

Section Snap.
(** Distances are doubles in the source.  The snap only compares them, so
    it is given for any type of numbers with its [<] and its
    [Infinity]. *)
Context {num : Type} (numLt : num → num → bool) (infinity : num).

(** [bestDist], [bestRow], [bestCol]; [bestYRow] is the row whose pixel
    position [bestY] holds, [None] while [bestY] is its initial 0. *)
Record Best := mkBest {
  bestDist : num;
  bestRow : Z;
  bestCol : Z;
  bestYRow : option Z
}.

(** [bubbles.current.some(b => b.active && !b.isFloating
      && b.row === r && b.col === c)] *)
Definition occupied (h : list Bubble) (board : list ref) (r c : Z) : bool :=
  existsb (λ b, settled h b && bool_decide (row (h !!! b) = r)
                && bool_decide (col (h !!! b) = c)) board.

(** The double loop of the snap; [distTo r c] is the distance from the
    ball to the centre of the cell. *)
Definition snapScan (distTo : Z → Z → num) (h : list Bubble)
    (board : list ref) (cols : Z) : Best :=
  foldl
    (λ best r,
       foldl
         (λ best c,
            if occupied h board r c then best
            else
              let dist := distTo r c in
              if numLt dist (bestDist best)
              then mkBest dist r c (Some r)
              else best)
         best (upto (colsOfRow cols r)))
    (mkBest infinity 0 0 None) (upto (GRID_ROWS + 10)).

(** The frame of [onResults] in which the flying ball collides: the
    block [if (collision)], behind the guards of the callback. *)
Definition onResults_land (w : World) (distTo : Z → Z → num) (g : Game)
  : Game :=
  if isPaused g || gameOver g then g
  else if isFlying g && negb (isQuizActive g) && negb (gameOver g) then
    let g := withIsFlying false g in
    let best := snapScan distTo (heap g) (bubbles g) (gridCols g) in
    let newB :=
      mkBubble (cellId (bestRow best) (bestCol best) (dateNow w))
        (bestRow best) (bestCol best) (currentAmmo g) true false None in
    let newRef := length (heap g) in
    let g := withBoard (heap g ++ [newB]) (bubbles g ++ [newRef]) g in
    let g := fst (checkMatches newRef g) in
    let pastLine :=
      match bestYRow best with
      | Some r => rowPastDangerLine (canvasHeight w) r
      | None =>
          bool_decide (canvasHeight w - SLINGSHOT_BOTTOM_OFFSET - 80 < 0)
      end in
    let g := if pastLine then withGameOver true g else g in
    let avail :=
      arrayFromSet
        (map (λ b, color (heap g !!! b))
           (filter (λ b, settled (heap g) b) (bubbles g))) in
    let next :=
      if bool_decide (0 < length avail)%nat
      then fst (randomElement (rng w) avail 0%nat)
      else red in
    withAmmo (nextAmmo g) next g
  else g.
End Snap.

(** ** Boards, paths and runs *)

(** No two bubbles of the board carry the same id.  Ids are built from the
    cell and the clock at creation, [cellId] and [newRowId]. *)
Definition uniqueIds (h : list Bubble) (board : list ref) : Prop :=
  NoDup (map (λ r, id (h !!! r)) board).

(** Every reference the game holds points into the store. *)
Definition validRefs (g : Game) : Prop :=
  Forall (λ r, (r < length (heap g))%nat) (bubbles g ++ pendingMatches g).

(** [anchored h board b]: the settled bubble [b] has a path of settled,
    pairwise adjacent bubbles of the board that starts in row 0. *)
Inductive anchored (h : list Bubble) (board : list ref) : ref → Prop :=
  | anchored_ceiling r :
      r ∈ board → row (h !!! r) = 0 → settled h r → anchored h board r
  | anchored_step c b :
      anchored h board c → b ∈ board → settled h b →
      isNeighbor (h !!! c) (h !!! b) → anchored h board b.

(** [sameColorPath h board s b]: [b] is reached from [s] by a path of
    adjacent settled bubbles of the board that all have the colour of
    [s]: the cluster of [s]. *)
Inductive sameColorPath (h : list Bubble) (board : list ref) (s : ref)
  : ref → Prop :=
  | path_start : sameColorPath h board s s
  | path_step m b :
      sameColorPath h board s m → b ∈ board → settled h b →
      color (h !!! b) = color (h !!! s) →
      isNeighbor (h !!! m) (h !!! b) → sameColorPath h board s b.

Definition cellOf (h : list Bubble) (r : ref) : Z * Z :=
  (row (h !!! r), col (h !!! r)).

(** No two settled bubbles of the board share a cell. *)
Definition cellsUnique (h : list Bubble) (board : list ref) : Prop :=
  NoDup (map (cellOf h) (filter (λ b, settled h b) board)).

(** Distances with [Infinity], for runs: [None] is [Infinity]. *)
Definition extLt (a b : option Z) : bool :=
  match a, b with
  | Some x, Some y => bool_decide (x < y)
  | Some _, None => true
  | None, _ => false
  end.

(** [setIsPaused(paused)]: the pause button, Resume, and the pause that
    saving to the leaderboard sets. *)
Definition setIsPaused (paused : bool) (g : Game) : Game :=
  mkGame (heap g) (bubbles g) (pendingMatches g) (isQuizActive g) (score g)
    (lastDropTime g) (hasWon g) (gameWon g) paused (gameOver g)
    (isPinching g) (isFlying g) (gridCols g) (currentAmmo g) (nextAmmo g)
    (userProfile g).

(** The button Keep Playing: [setGameWon(false); setIsPaused(false)]. *)
Definition keepPlaying (g : Game) : Game :=
  mkGame (heap g) (bubbles g) (pendingMatches g) (isQuizActive g) (score g)
    (lastDropTime g) (hasWon g) false false (gameOver g)
    (isPinching g) (isFlying g) (gridCols g) (currentAmmo g) (nextAmmo g)
    (userProfile g).

(** The events of a round.  A frame of [onResults] is its auto drop, the
    release of the sling, the purge and the landing, in this order, each of
    which may leave the game as it is; the quiz calls [completeMatch]; the
    buttons pause and resume.  A run takes the events in any order.  The
    Restart button is not an event of a round: it ends the round and begins
    another with the score at 0. *)
Inductive Op :=
  | Spawn (w : World)
  | Launch
  | Land (w : World) (distTo : Z → Z → option Z)
  | Confirm (w : World) (awarded : bool)
  | Purge (w : World) (belowFloor : ref → bool)
  | Pause (paused : bool)
  | KeepPlaying.

Definition step (g : Game) (o : Op) : Game :=
  match o with
  | Spawn w => onResults_autoDrop w g
  | Launch => launch g
  | Land w distTo => onResults_land extLt None w distTo g
  | Confirm w awarded => completeMatch w awarded g
  | Purge w belowFloor => onResults_purge w belowFloor g
  | Pause paused => setIsPaused paused g
  | KeepPlaying => keepPlaying g
  end.

Definition run (g : Game) (ops : list Op) : Game := foldl step g ops.

(** The component as it mounts, with a profile of the given difficulty. *)
Definition newGame (difficulty : Difficulty) : Game :=
  mkGame [] [] [] false 0 0 false false false false false false
    MAX_GRID_COLS red blue (Some difficulty).

(** The mount effect: [if (userProfile && bubbles.current.length === 0)
    initGrid(canvas.width, userProfile.difficulty)]. *)
Definition startRound (w : World) (difficulty : Difficulty) : Game :=
  initGrid w (canvasWidth w) difficulty (newGame difficulty).

(** The bubbles of the board of [g] that float in [g'] and did not in
    [g]. *)
Definition newlyFloating (g g' : Game) : list ref :=
  filter (λ r, ¬ isFloating (heap g !!! r) ∧ isFloating (heap g' !!! r))
    (bubbles g).

(** The cell of a bubble, and the objects the board holds. *)
Definition cellOfB (b : Bubble) : Z * Z := (row b, col b).

Definition boardView (h : list Bubble) (board : list ref) : list Bubble :=
  map (λ r, h !!! r) board.

(** What the engine keeps true of the board: its references are valid and
    distinct, no row index is negative, and no two settled bubbles share a
    cell. *)
Definition boardInv (g : Game) : Prop :=
  Forall (λ r, (r < length (heap g))%nat) (bubbles g)
  ∧ NoDup (bubbles g)
  ∧ Forall (λ b, 0 ≤ row b) (boardView (heap g) (bubbles g))
  ∧ cellsUnique (heap g) (bubbles g).

(** [landsFree g ops]: in the run of [ops] from [g], every landing that
    passes the guards of the frame finds a free cell in the window it
    scans. *)
Fixpoint landsFree (g : Game) (ops : list Op) : Prop :=
  match ops with
  | [] => True
  | o :: ops' =>
      match o with
      | Land w distTo =>
          isPaused g || gameOver g = false →
          isFlying g && negb (isQuizActive g) && negb (gameOver g) = true →
          bestYRow (snapScan extLt None distTo (heap g) (bubbles g)
                      (gridCols g)) ≠ None
      | _ => True
      end
      ∧ landsFree (step g o) ops'
  end.

(** ** A small board for examples *)

(** A green bubble on the ceiling, three red ones hanging from it in a
    chain and a blue one below the chain; the red chain is the pending
    match. *)
Definition exampleHeap : list Bubble :=
  [ mkBubble "0-0-1" 0 0 green true false None;
    mkBubble "1-0-1" 1 0 red true false None;
    mkBubble "1-1-1" 1 1 red true false None;
    mkBubble "2-1-7" 2 1 red true false None;
    mkBubble "3-1-1" 3 1 blue true false None ].

Definition exampleGame : Game :=
  mkGame exampleHeap [0; 1; 2; 3; 4]%nat [3; 2; 1]%nat true 0 0
    false false false false false false 16 red blue (Some Easy).

Definition exampleWorld : World :=
  mkWorld (λ _, 0) 5000 5000 1280 1080 COLOR_KEYS false.

(** A desktop canvas, 1920 by 1080 pixels: sixteen columns, and the danger
    line below row 21.  Every draw is 0, so that every cell of a seeded or
    spawned row is populated. *)
Definition fullWorld (t : Z) : World :=
  mkWorld (λ _, 0) t t 1920 1080 COLOR_KEYS false.

(** A round of difficulty Hard whose ten initial rows are full. *)
Definition fullStart : Game := startRound (fullWorld 1000) Hard.

(** Ten rows spawn, one every 20001 ms, each of them full; then a ball is
    launched and lands. *)
Definition fullRun : list Op :=
  map (λ i, Spawn (fullWorld (1000 + 20001 * i))) (seqZ 1 10)
  ++ [Launch; Land (fullWorld 300000) (λ r c, Some (r + c))].

(** The game when the ball is in flight, and once it has landed. *)
Definition fullBefore : Game := run fullStart (removelast fullRun).

Definition fullAfter : Game := run fullStart fullRun.

(** ** Loop invariants *)

(** The bubbles of the board that are settled and not yet connected: the
    ones a later turn of [floatingLoop] may still add to the queue. *)
Definition unconnected (h : list Bubble) (allBubbles : list ref)
    (connected : gset string) : list ref :=
  filter (λ b, settled h b ∧ (id (h !!! b) ∉ connected)) allBubbles.

(** Invariant of [floatingLoop]: the queue holds anchored bubbles only,
    [connected] is the set of their ids, every settled ceiling bubble is in
    the queue, and the neighbours of the bubbles before [head] are
    connected. *)
Definition floatingInv (h : list Bubble) (allBubbles : list ref)
    (connected : gset string) (queue : list ref) (head : nat) : Prop :=
  (∀ r, r ∈ queue → r ∈ allBubbles ∧ settled h r ∧ anchored h allBubbles r)
  ∧ (∀ s, s ∈ connected ↔ ∃ r, r ∈ queue ∧ id (h !!! r) = s)
  ∧ (∀ r, r ∈ allBubbles → row (h !!! r) = 0 → settled h r → r ∈ queue)
  ∧ (∀ i c b, (i < head)%nat → queue !! i = Some c → b ∈ allBubbles →
       settled h b → isNeighbor (h !!! c) (h !!! b) →
       id (h !!! b) ∈ connected).

(** Invariant of [matchLoop] for the start bubble [s]: the stack holds the
    start or settled neighbours of bubbles of the cluster; the matches are
    distinct bubbles of the cluster with visited ids; a visited bubble of
    the colour of [s] is a match; the settled neighbours of a match are
    visited or on the stack; and the start is a match or still on the
    stack, unvisited. *)
Definition matchInv (h : list Bubble) (board : list ref) (s : ref)
    (toCheck : list ref) (visited : gset string) (matches : list ref)
  : Prop :=
  (∀ r, r ∈ toCheck →
     r ∈ board
     ∧ (r = s
        ∨ (settled h r
           ∧ ∃ m, sameColorPath h board s m
                  ∧ isNeighbor (h !!! m) (h !!! r))))
  ∧ (∀ m, m ∈ matches →
       sameColorPath h board s m ∧ id (h !!! m) ∈ visited)
  ∧ NoDup matches
  ∧ (∀ r, r ∈ board → id (h !!! r) ∈ visited →
       color (h !!! r) = color (h !!! s) → r ∈ matches)
  ∧ (∀ m b, m ∈ matches → b ∈ board → settled h b →
       isNeighbor (h !!! m) (h !!! b) →
       id (h !!! b) ∈ visited ∨ b ∈ toCheck)
  ∧ (s ∈ matches ∨ (s ∈ toCheck ∧ id (h !!! s) ∉ visited)).

(** The bubbles of the board whose id is not yet visited. *)
Definition unvisited (h : list Bubble) (board : list ref)
    (visited : gset string) : list ref :=
  filter (λ b, id (h !!! b) ∉ visited) board.

(** ** Pixel positions of the grid cells *)

(** A number [ratPart + sqrt3Part * sqrt 3].  [ROW_HEIGHT] is
    [BUBBLE_RADIUS * Math.sqrt(3)], so the [y] of a cell is such a number
    with rational parts; the doubles of the source approximate it. *)
Record Surd := mkSurd {
  ratPart : Q;
  sqrt3Part : Q
}.

Record Pos := mkPos {
  posX : Q;
  posY : Surd
}.

(** [getBubblePos(row, col, width)], with [cols] the value of
    [gridColsRef.current]. *)
Definition getBubblePos (cols row col width : Z) : Pos :=
  let xOffset :=
    (inject_Z (width - cols * BUBBLE_RADIUS * 2) / inject_Z 2
     + inject_Z BUBBLE_RADIUS)%Q in
  let isOdd := bool_decide (Z.rem row 2 ≠ 0) in
  let x :=
    (xOffset + inject_Z (col * (BUBBLE_RADIUS * 2))
     + (if isOdd then inject_Z BUBBLE_RADIUS else 0))%Q in
  let y :=
    mkSurd (inject_Z BUBBLE_RADIUS) (inject_Z (row * BUBBLE_RADIUS)) in
  mkPos x y.

(** The square of the distance between two positions,
    [(x1 - x2)^2 + (y1 - y2)^2], again as a number [a + b * sqrt 3]. *)
Definition distSq (p q : Pos) : Surd :=
  let dx := (posX p - posX q)%Q in
  let a := (ratPart (posY p) - ratPart (posY q))%Q in
  let b := (sqrt3Part (posY p) - sqrt3Part (posY q))%Q in
  mkSurd (dx * dx + a * a + inject_Z 3 * b * b)%Q (inject_Z 2 * a * b)%Q.

(** The position of the cell of a bubble. *)
Definition posOf (cols width : Z) (b : Bubble) : Pos :=
  getBubblePos cols (row b) (col b) width.

(** ** The snap as one pass over the cells of the window *)

(** The body of the inner loop of the snap. *)
Definition scanStep {num} (numLt : num → num → bool)
    (distTo : Z → Z → num) (h : list Bubble) (board : list ref)
    (best : Best) (cell : Z * Z) : Best :=
  if occupied h board cell.1 cell.2 then best
  else
    let dist := distTo cell.1 cell.2 in
    if numLt dist (bestDist best)
    then mkBest dist cell.1 cell.2 (Some cell.1)
    else best.

(** The cells the snap visits, in the order of the scan. *)
Definition windowCells (cols : Z) : list (Z * Z) :=
  concat (map (λ r, map (pair r) (upto (colsOfRow cols r)))
            (upto (GRID_ROWS + 10))).

(** What the scan has established after the cells [seen]: either nothing
    is chosen and no free cell among them is nearer than [Infinity], or the
    chosen cell is a free cell among them and no free cell among them is
    nearer. *)
Definition scanInv {num} (numLt : num → num → bool) (infinity : num)
    (distTo : Z → Z → num) (h : list Bubble) (board : list ref)
    (seen : list (Z * Z)) (best : Best) : Prop :=
  (bestYRow best = None ∧ bestDist best = infinity
   ∧ ∀ cell, cell ∈ seen → occupied h board cell.1 cell.2 = false →
       numLt (distTo cell.1 cell.2) infinity = false)
  ∨ (bestYRow best = Some (bestRow best)
     ∧ bestDist best = distTo (bestRow best) (bestCol best)
     ∧ (bestRow best, bestCol best) ∈ seen
     ∧ occupied h board (bestRow best) (bestCol best) = false
     ∧ ∀ cell, cell ∈ seen → occupied h board cell.1 cell.2 = false →
         numLt (distTo cell.1 cell.2) (bestDist best) = false).

(** ** The pending match along a run *)

(** What the engine keeps true of the pending match: while the quiz is
    open it holds at least three bubbles, each one active, not floating and
    of one colour; otherwise it is empty.  Whether the bubbles are still in
    [bubbles.current] is not part of it: the purge of a frame runs during a
    quiz too. *)
Definition pendingInv (g : Game) : Prop :=
  if isQuizActive g
  then (3 ≤ length (pendingMatches g))%nat
       ∧ (∀ r, r ∈ pendingMatches g → settled (heap g) r)
       ∧ ∀ r r', r ∈ pendingMatches g → r' ∈ pendingMatches g →
           color (heap g !!! r) = color (heap g !!! r')
  else pendingMatches g = [].

(** ** Runs of one colour in a seeded row *)

(** No three bubbles that follow each other in the array have one colour,
    among those whose last two satisfy [same]. *)
Definition noTripleOn (same : Bubble → Bubble → Prop) (l : list Bubble)
  : Prop :=
  ∀ l1 a b c l2, l = l1 ++ a :: b :: c :: l2 → same b c →
    ¬ (color a = color b ∧ color b = color c).

(** ** Quiz questions ([src/unnamed/part_000] and the teacher's form) *)

Module Quiz.

(** The numbers [JSON.parse] can return: a finite double, or an infinity
    for a literal beyond the range of doubles. *)
Inductive JsNumber := Finite (x : Q) | PlusInfinity | MinusInfinity.

(** A value [JSON.parse] can return.  An object lists its members in the
    order of the text. *)
#[warnings="-register-all"]
Inductive Json :=
  | JNull
  | JBool (b : bool)
  | JNumber (n : JsNumber)
  | JString (s : string)
  | JArray (items : list Json)
  | JObject (fields : list (string * Json)).

(** The member [k] of an object; of two members of one name the later one
    counts. *)
Fixpoint lookupLast (k : string) (fields : list (string * Json))
  : option Json :=
  match fields with
  | [] => None
  | (k', v) :: rest =>
      match lookupLast k rest with
      | Some v' => Some v'
      | None => if String.eqb k k' then Some v else None
      end
  end.

(** [json.k] for the member names the service reads ([question],
    [answer], [type], [explanation]), which no prototype defines: the outer
    [None] is the [TypeError] for [null], the inner one is [undefined]. *)
Definition getProp (json : Json) (k : string) : option (option Json) :=
  match json with
  | JNull => None
  | JObject fields => Some (lookupLast k fields)
  | _ => Some None
  end.

(** Truthiness of a value or [undefined]. *)
Definition truthy (v : option Json) : bool :=
  match v with
  | None => false
  | Some JNull => false
  | Some (JBool b) => b
  | Some (JNumber (Finite x)) => negb (Qeq_bool x 0)
  | Some (JNumber _) => true
  | Some (JString s) => negb (String.eqb s EmptyString)
  | Some (JArray _) => true
  | Some (JObject _) => true
  end.

(** [v || d] *)
Definition orElse (v : option Json) (d : Json) : Json :=
  match v with
  | Some x => if truthy v then x else d
  | None => d
  end.

(** A [QuizQuestion] as it exists at run time: the fields of a generated
    question hold whatever the parsed response held. *)
Record QuizQuestion := mkQuiz {
  question : Json;
  type : Json;
  answer : Json;
  explanation : Json
}.

Definition fallbackQuestion : QuizQuestion :=
  mkQuiz (JString "The API could not be reached. Spell 'Apple'.")
    (JString "missing-char") (JString "Apple")
    (JString "Network error occurred.").

(** How [await ai.models.generateContent(...)] ended: rejected, with a
    reason that is [null] or [undefined] or with any other value; or
    resolved, with [null] or [undefined] or with a response whose [text] may
    be [undefined]. *)
Inductive ApiOutcome :=
  | Rejected (nullishReason : bool)
  | RespondedNullish
  | Responded (text : option string).

(** Which [debug.error] the service reports. *)
Inductive DebugError := ApiKeyMissing | JsonParseError | ApiError.

(** [response.text || "{}"] *)
Definition textOf (text : option string) : string :=
  match text with
  | Some s => if String.eqb s EmptyString then "{}"%string else s
  | None => "{}"%string
  end.

(** [generateQuizQuestion]: [ai] says whether the client exists, [parse] is
    [JSON.parse] ([None] when it throws), [outcome] is the end of
    [generateContent].  The topic, the class and the difficulty only shape
    the prompt.  The result is the [quiz] and the [debug.error] of the value
    the promise resolves to, or [None] when the promise rejects: the outer
    [catch] reads [error.message], which throws when the reason of the
    rejection is [null] or [undefined]; reading [text] of a response that is
    [null] or [undefined] throws a [TypeError], which that [catch]
    handles. *)
Definition generateQuizQuestion (ai : bool) (parse : string → option Json)
    (outcome : ApiOutcome) : option (QuizQuestion * option DebugError) :=
  if negb ai then Some (fallbackQuestion, Some ApiKeyMissing)
  else
    match outcome with
    | Rejected true => None
    | Rejected false => Some (fallbackQuestion, Some ApiError)
    | RespondedNullish => Some (fallbackQuestion, Some ApiError)
    | Responded response =>
        let text := textOf response in
        match parse text with
        | None => Some (fallbackQuestion, Some JsonParseError)
        | Some json =>
            match getProp json "question" with
            | None => Some (fallbackQuestion, Some JsonParseError)
            | Some q =>
                if truthy q && truthy (default None (getProp json "answer"))
                then
                  Some
                    (mkQuiz (orElse q JNull)
                       (orElse (default None (getProp json "type"))
                          (JString "fill-blank"))
                       (orElse (default None (getProp json "answer")) JNull)
                       (orElse (default None (getProp json "explanation"))
                          (JString "Correct!")),
                     None)
                else Some (fallbackQuestion, Some JsonParseError)
            end
        end
    end.

(** The form of the teacher mode. *)
Record TempQuestion := mkTemp { q : string; a : string; e : string }.

Record UserProfile := mkProfile {
  name : string;
  className : string;
  topic : string;
  difficulty : Difficulty;
  customQuestions : option (list QuizQuestion)
}.

(** [handleAddCustomQuestion] on the form and the [customQuestions] of the
    profile being entered. *)
Definition handleAddCustomQuestion (tempQuestion : TempQuestion)
    (questions : option (list QuizQuestion))
  : TempQuestion * option (list QuizQuestion) :=
  if String.eqb (q tempQuestion) EmptyString
     || String.eqb (a tempQuestion) EmptyString
  then (tempQuestion, questions)
  else
    let newQ :=
      mkQuiz (JString (q tempQuestion)) (JString "custom")
        (JString (a tempQuestion))
        (JString (if String.eqb (e tempQuestion) EmptyString
                  then "Teacher's choice!"%string else e tempQuestion)) in
    (mkTemp EmptyString EmptyString EmptyString,
     Some (default [] questions ++ [newQ])).

(** [(prev.customQuestions || []).filter((_, i) => i !== index)] *)
Definition removeCustomQuestion (index : nat)
    (questions : option (list QuizQuestion)) : option (list QuizQuestion) :=
  Some (map snd (filter (λ p, p.1 ≠ index)
                   (imap pair (default [] questions)))).

#[global] Instance QuizQuestion_inhabited : Inhabited QuizQuestion :=
  populate fallbackQuestion.

(** The question [triggerQuiz] hands to [setQuizData] for a profile: a draw
    from the custom questions when there are any, else the question of the
    service.  [None] is the [null] that [setQuizData(null)] leaves when the
    promise of the service rejects and [triggerQuiz] ends at its
    [await]. *)
Definition quizDataOf (rng : nat → Z) (profile : UserProfile) (ai : bool)
    (parse : string → option Json) (outcome : ApiOutcome)
  : option QuizQuestion :=
  match customQuestions profile with
  | Some ((_ :: _) as questions) =>
      Some (fst (randomElement rng questions 0%nat))
  | _ => fst <$> generateQuizQuestion ai parse outcome
  end.

(** A question a player can be asked and can answer. *)
Definition answerable (quiz : QuizQuestion) : Prop :=
  truthy (Some (question quiz)) = true ∧ truthy (Some (answer quiz)) = true.

End Quiz.

(** ** The leaderboard *)

Module Leaderboard.

(** An entry with a well-formed integer score. *)
Record LeaderboardEntry := mkEntry {
  name : string;
  className : string;
  score : Z;
  date : string;
  difficulty : Difficulty
}.

(** [sort((a, b) => b.score - a.score)]: the sort of an array is stable,
    and for integer scores the comparator orders by score, highest first.
    The stable sort is computed by inserting from the right, each element
    in front of the first one that is not better
    ([sortByScore_descending], [sortByScore_stable]). *)
Fixpoint insert (x : LeaderboardEntry) (l : list LeaderboardEntry)
  : list LeaderboardEntry :=
  match l with
  | [] => [x]
  | y :: l' => if bool_decide (score x < score y) then y :: insert x l'
               else x :: l
  end.

Definition sortByScore (l : list LeaderboardEntry) : list LeaderboardEntry :=
  foldr insert [] l.

(** [saveToLeaderboard]: the list that is shown and stored. *)
Definition saveToLeaderboard (userProfile : option Quiz.UserProfile)
    (scoreNow : Z) (today : string) (leaderboard : list LeaderboardEntry)
  : list LeaderboardEntry :=
  match userProfile with
  | None => leaderboard
  | Some p =>
      let newEntry :=
        mkEntry (Quiz.name p) (Quiz.className p) scoreNow today
          (Quiz.difficulty p) in
      take 100 (sortByScore (leaderboard ++ [newEntry]))
  end.

(** Highest score first. *)
Fixpoint descending (l : list LeaderboardEntry) : Prop :=
  match l with
  | [] => True
  | x :: l' => Forall (λ y, score y ≤ score x) l' ∧ descending l'
  end.

(** [x] put behind the entries at the front that are at least as good. *)
Fixpoint insertLast (x : LeaderboardEntry) (l : list LeaderboardEntry)
  : list LeaderboardEntry :=
  match l with
  | [] => [x]
  | y :: l' => if bool_decide (score x ≤ score y) then y :: insertLast x l'
               else x :: l
  end.

(** The number of entries that score at least [s]. *)
Definition atLeast (s : Z) (l : list LeaderboardEntry) : nat :=
  length (filter (λ y, s ≤ score y) l).

End Leaderboard.

(** ** Pixel positions as real numbers *)

(** The real number a [Surd] stands for. *)
Definition surdToR (s : Surd) : R :=
  (Q2R (ratPart s) + Q2R (sqrt3Part s) * sqrt 3)%R.

(** * Proofs *)

(** ** Adjacency *)

Lemma rem2_odd (z : Z) : Z.rem z 2 ≠ 0 ↔ Z.odd z = true.
Proof.
  rewrite Zodd_rem, negb_true_iff, Z.eqb_neq. done.
Qed.

Lemma odd_neighbor_row (x y : Z) :
  Z.abs (y - x) = 1 → Z.odd y = negb (Z.odd x).
Proof.
  intros H.
  assert (y = Z.succ x ∨ y = Z.pred x) as [->| ->] by lia.
  - rewrite Z.odd_succ, <- Z.negb_odd. done.
  - rewrite Z.odd_pred, <- Z.negb_odd. done.
Qed.

(** [isNeighbor] as a rule on the row and column deltas. *)
Lemma isNeighbor_iff (a b : Bubble) :
  isNeighbor a b = true ↔
    (row b - row a = 0 ∧ Z.abs (col b - col a) = 1)
    ∨ (Z.abs (row b - row a) = 1 ∧ Z.odd (row a) = true
       ∧ (col b - col a = 0 ∨ col b - col a = 1))
    ∨ (Z.abs (row b - row a) = 1 ∧ Z.odd (row a) = false
       ∧ (col b - col a = -1 ∨ col b - col a = 0)).
Proof.
  unfold isNeighbor. pose proof (rem2_odd (row a)) as Hodd.
  destruct (Z.odd (row a)); repeat case_bool_decide;
    rewrite ?orb_true_iff, ?bool_decide_eq_true;
    intuition (try discriminate; try lia).
Qed.

(** claim C1, as the code has it: never neighbours when the rows are more
    than one apart; in one row, iff the columns are one apart; in adjacent
    rows the parity that decides is that of the row of the first argument
    [a]: when it is odd, iff [dc] is 0 or 1, when it is even, iff [dc] is
    -1 or 0, with [dc = col b - col a]. *)
Theorem isNeighbor_rule (a b : Bubble) :
  let dr := row b - row a in
  let dc := col b - col a in
  (Z.abs dr > 1 → isNeighbor a b = false)
  ∧ (dr = 0 → (isNeighbor a b = true ↔ Z.abs dc = 1))
  ∧ (Z.abs dr = 1 → Z.odd (row a) = true →
     (isNeighbor a b = true ↔ dc = 0 ∨ dc = 1))
  ∧ (Z.abs dr = 1 → Z.odd (row a) = false →
     (isNeighbor a b = true ↔ dc = -1 ∨ dc = 0)).
Proof.
  intros dr dc. subst dr dc. rewrite isNeighbor_iff.
  split; [|split; [|split]].
  - intros Hdr. apply not_true_is_false. rewrite isNeighbor_iff. lia.
  - intros Hdr. split; [|by left]. intros [?|[?|?]]; lia.
  - intros Hdr Hodd. rewrite Hodd. split; [|by right; left].
    intros [?|[?|?]]; [lia|tauto|intuition discriminate].
  - intros Hdr Hodd. rewrite Hodd. split; [|by right; right].
    intros [?|[?|?]]; [lia|intuition discriminate|tauto].
Qed.

Lemma isNeighbor_rule_witness :
  (isNeighbor (cell 2 1) (cell 1 2) = true ↔ 2 - 1 = -1 ∨ 2 - 1 = 0)
  ∧ (isNeighbor (cell 1 1) (cell 2 2) = true ↔ 2 - 1 = 0 ∨ 2 - 1 = 1).
Proof.
  split.
  - apply (proj2 (proj2 (proj2 (isNeighbor_rule (cell 2 1) (cell 1 2)))));
      reflexivity.
  - apply (proj1 (proj2 (proj2 (isNeighbor_rule (cell 1 1) (cell 2 2)))));
      reflexivity.
Defined.

(** claim C7: [isNeighbor] is symmetric in its two arguments, for every
    pair of coordinates. *)
Theorem isNeighbor_symmetric (a b : Bubble) :
  isNeighbor a b = isNeighbor b a.
Proof.
  apply eq_true_iff_eq. rewrite !isNeighbor_iff.
  destruct (decide (Z.abs (row b - row a) = 1)) as [Hab|Hab].
  - rewrite (odd_neighbor_row _ _ Hab).
    destruct (Z.odd (row a)); simpl; intuition (try discriminate; try lia).
  - intuition (try discriminate; try lia).
Qed.

(** The rule of the specification fails on the code under either reading
    of "the lower-row cell": with the smaller row index at cells (2,1) and
    (1,2), with the larger row index at cells (0,1) and (1,2).  In both
    pairs the cells do not touch and [isNeighbor] is false. *)
Example isNeighbor_lower_row_rule_fails :
  isNeighbor (cell 2 1) (cell 1 2) ≠ specNeighbors Z.min (cell 2 1) (cell 1 2)
  ∧ isNeighbor (cell 0 1) (cell 1 2) ≠ specNeighbors Z.max (cell 0 1) (cell 1 2).
Proof. split; vm_compute; discriminate. Qed.

(** ** Bubbles that lost their path to the ceiling *)

Lemma elem_of_foldl_ids (h : list Bubble) (l : list ref) (c : gset string)
    (s : string) :
  s ∈ addIds h c l ↔ s ∈ c ∨ ∃ b, b ∈ l ∧ id (h !!! b) = s.
Proof.
  unfold addIds. revert c. induction l as [|x l IH]; intros c; simpl.
  - split; [auto|]. intros [?|(b & Hb & _)]; [done|]. by apply elem_of_nil in Hb.
  - rewrite IH, elem_of_union, elem_of_singleton. split.
    + intros [[?| ->]|(b & Hb & Hid)]; [by left|right|right].
      * exists x. split; [left|done].
      * exists b. split; [by right|done].
    + intros [?|(b & Hb & Hid)]; [by left; left|].
      apply elem_of_cons in Hb as [-> |Hb]; [left; by right|].
      right. by exists b.
Qed.

(** Two disjoint selections out of a third one are together no longer
    than it. *)
Lemma length_filter_disjoint {A} (P1 P2 P : A → Prop)
    `{∀ x, Decision (P1 x)} `{∀ x, Decision (P2 x)} `{∀ x, Decision (P x)}
    (l : list A) :
  (∀ x, x ∈ l → P1 x → P x) → (∀ x, x ∈ l → P2 x → P x) →
  (∀ x, x ∈ l → P1 x → P2 x → False) →
  (length (filter P1 l) + length (filter P2 l) ≤ length (filter P l))%nat.
Proof.
  induction l as [|x l IH]; intros Hsub1 Hsub2 Hdisj; [done|].
  assert (length (filter P1 l) + length (filter P2 l)
          ≤ length (filter P l))%nat as IH'.
  { apply IH; intros y Hy; [apply Hsub1|apply Hsub2|apply Hdisj]; by right. }
  pose proof (Hsub1 x (list_elem_of_here _ _)) as H1x.
  pose proof (Hsub2 x (list_elem_of_here _ _)) as H2x.
  pose proof (Hdisj x (list_elem_of_here _ _)) as H12x.
  rewrite !filter_cons.
  destruct (decide (P1 x)), (decide (P2 x)), (decide (P x)); simpl;
    try lia; tauto.
Qed.

Lemma settled_iff (h : list Bubble) (r : ref) :
  settled h r ↔ active (h !!! r) ∧ ¬ isFloating (h !!! r).
Proof.
  unfold settled, settledB.
  destruct (active _), (isFloating _); simpl; intuition.
Qed.

Lemma uniqueIds_inj (h : list Bubble) (board : list ref) (r1 r2 : ref) :
  uniqueIds h board → r1 ∈ board → r2 ∈ board →
  id (h !!! r1) = id (h !!! r2) → r1 = r2.
Proof.
  unfold uniqueIds. induction board as [|x l IH]; simpl; intros Hnd H1 H2 Hid.
  - by apply elem_of_nil in H1.
  - apply NoDup_cons in Hnd as [Hx Hnd].
    apply elem_of_cons in H1 as [-> |H1], H2 as [-> |H2]; auto.
    + exfalso. apply Hx. rewrite Hid. apply list_elem_of_fmap. by exists r2.
    + exfalso. apply Hx. rewrite <- Hid. apply list_elem_of_fmap.
      by exists r1.
Qed.

Section Floating.
Variable h : list Bubble.
Variable allBubbles : list ref.

Lemma unconnected_step (connected : gset string) (curr : ref) :
  (length (neighborsOf h allBubbles connected curr)
   + length (unconnected h allBubbles
               (addIds h connected (neighborsOf h allBubbles connected curr)))
   ≤ length (unconnected h allBubbles connected))%nat.
Proof.
  unfold unconnected, neighborsOf.
  apply length_filter_disjoint.
  - intros x _ (? & ? & _). done.
  - intros x _ [? Hx]. split; [done|]. intros Hc. apply Hx.
    apply elem_of_foldl_ids. by left.
  - intros x Hx Hn [_ Hx']. apply Hx'. apply elem_of_foldl_ids. right.
    exists x. split; [|done]. apply list_elem_of_filter. done.
Qed.

(** The loop ends before the fuel does when the fuel covers the queue
    and the bubbles that may still enter it. *)
Lemma floatingLoop_enough (fuel : nat) :
  ∀ connected queue head,
    (length queue + length (unconnected h allBubbles connected)
     ≤ head + fuel)%nat →
    is_Some (floatingLoop fuel h allBubbles connected queue head).
Proof.
  induction fuel as [|fuel IH]; intros connected queue head Hlen; simpl.
  - destruct (queue !! head) eqn:E; [|done].
    apply lookup_lt_Some in E. lia.
  - destruct (queue !! head) as [curr|] eqn:E; [|done].
    apply IH. rewrite length_app.
    pose proof (unconnected_step connected curr) as Hs.
    lia.
Qed.

Lemma floatingLoop_terminates : is_Some (connectedIds h allBubbles).
Proof.
  unfold connectedIds. apply floatingLoop_enough. simpl.
  etrans; [|apply (length_filter (λ _, True) allBubbles)].
  unfold unconnected. apply length_filter_disjoint.
  - done.
  - done.
  - intros x Hx (Hr & Ha & Hf) [_ Hid]. apply Hid.
    apply elem_of_foldl_ids. right. exists x. split; [|done].
    apply list_elem_of_filter. done.
Qed.

Lemma floatingInv_init :
  floatingInv h allBubbles (addIds h ∅ (ceilingBubbles h allBubbles))
    (ceilingBubbles h allBubbles) 0.
Proof.
  unfold floatingInv, ceilingBubbles. repeat split.
  - by apply list_elem_of_filter in H as [_ ?].
  - apply list_elem_of_filter in H as [(_ & Ha & Hf) _].
    by apply settled_iff.
  - apply list_elem_of_filter in H as [(Hr & Ha & Hf) Hin].
    apply anchored_ceiling; [done..|]. by apply settled_iff.
  - intros Hs. apply elem_of_foldl_ids in Hs as [Hs|Hs]; [set_solver|done].
  - intros Hs. apply elem_of_foldl_ids. by right.
  - intros r Hin Hr Hs. apply list_elem_of_filter. split; [|done].
    apply settled_iff in Hs. tauto.
  - intros i c b Hi. lia.
Qed.

Lemma floatingInv_step (connected : gset string) (queue : list ref)
    (head : nat) (curr : ref) :
  floatingInv h allBubbles connected queue head →
  queue !! head = Some curr →
  floatingInv h allBubbles
    (addIds h connected (neighborsOf h allBubbles connected curr))
    (queue ++ neighborsOf h allBubbles connected curr) (S head).
Proof.
  intros (Hq & Hc & Hceil & Hdone) Hcurr.
  assert (curr ∈ queue) as Hcq by (by eapply list_elem_of_lookup_2).
  unfold floatingInv. split; [|split; [|split]].
  - intros r Hr. apply elem_of_app in Hr as [Hr|Hr]; [by apply Hq|].
    apply list_elem_of_filter in Hr as [(Hs & _ & Hn) Hin].
    split; [done|]. split; [done|].
    eapply anchored_step; [apply Hq, Hcq|done..].
  - intros s. rewrite elem_of_foldl_ids, Hc. split.
    + intros [(r & Hr & Hid)|(r & Hr & Hid)]; exists r;
        (split; [apply elem_of_app; auto|done]).
    + intros (r & Hr & Hid). apply elem_of_app in Hr as [Hr|Hr];
        [left|right]; by exists r.
  - intros r Hin Hr Hs. apply elem_of_app. left. by apply Hceil.
  - intros i c b Hi Hlook Hin Hs Hn.
    apply elem_of_foldl_ids.
    destruct (decide (id (h !!! b) ∈ connected)) as [?|Hnot]; [by left|].
    assert (i < length queue)%nat as Hlt.
    { apply lookup_lt_Some in Hcurr. lia. }
    rewrite lookup_app_l in Hlook by done.
    destruct (decide (i = head)) as [->|Hne].
    + right. exists b. split; [|done].
      apply list_elem_of_filter. split; [|done].
      rewrite Hcurr in Hlook. injection Hlook as <-. done.
    + left. apply (Hdone i c b); [lia|done..].
Qed.

Lemma floatingLoop_inv (fuel : nat) :
  ∀ connected queue head result,
    floatingInv h allBubbles connected queue head →
    floatingLoop fuel h allBubbles connected queue head = Some result →
    ∃ queue' head',
      floatingInv h allBubbles result queue' head'
      ∧ (length queue' ≤ head')%nat.
Proof.
  induction fuel as [|fuel IH]; intros connected queue head result Hinv;
    simpl; destruct (queue !! head) as [curr|] eqn:E; try done.
  - intros [= <-]. exists queue, head. split; [done|].
    by apply lookup_ge_None.
  - intros Hloop. eapply IH; [|exact Hloop].
    by apply floatingInv_step.
  - intros [= <-]. exists queue, head. split; [done|].
    by apply lookup_ge_None.
Qed.

(** At the end of the loop the connected ids are the ids of the anchored
    bubbles. *)
Lemma connectedIds_anchored (connected : gset string) :
  uniqueIds h allBubbles →
  connectedIds h allBubbles = Some connected →
  ∀ r, r ∈ allBubbles →
    (id (h !!! r) ∈ connected ↔ anchored h allBubbles r).
Proof.
  intros Huniq Hrun.
  destruct (floatingLoop_inv _ _ _ _ _ floatingInv_init Hrun)
    as (queue & head & (Hq & Hc & Hceil & Hdone) & Hlen).
  assert (∀ r, anchored h allBubbles r → r ∈ queue) as Hall.
  { induction 1 as [r Hin Hr Hs|c b Hanc IH Hin Hs Hn].
    - by apply Hceil.
    - apply list_elem_of_lookup_1 in IH as [i Hi].
      assert (id (h !!! b) ∈ connected) as Hb.
      { apply (Hdone i c b); [|done..].
        apply lookup_lt_Some in Hi. lia. }
      apply Hc in Hb as (r & Hr & Hid).
      assert (r = b) as <-; [|done].
      apply (uniqueIds_inj _ _ _ _ Huniq); [by apply Hq|done..]. }
  intros r Hin. split.
  - intros Hid. apply Hc in Hid as (r' & Hr' & Hid).
    assert (r' = r) as <-; [|by apply Hq].
    apply (uniqueIds_inj _ _ _ _ Huniq); [by apply Hq|done..].
  - intros Hanc. apply Hc. exists r. split; [by apply Hall|done].
Qed.

(** A settled bubble of the ceiling row is connected. *)
Lemma connectedIds_ceiling (connected : gset string) (r : ref) :
  connectedIds h allBubbles = Some connected →
  r ∈ allBubbles → row (h !!! r) = 0 → settled h r →
  id (h !!! r) ∈ connected.
Proof.
  intros Hrun Hin Hr Hs.
  destruct (floatingLoop_inv _ _ _ _ _ floatingInv_init Hrun)
    as (queue & head & (Hq & Hc & Hceil & Hdone) & Hlen).
  apply Hc. exists r. split; [by apply Hceil|done].
Qed.

Lemma findFloatingBubbles_elem (r : ref) :
  uniqueIds h allBubbles →
  r ∈ findFloatingBubbles h allBubbles
  ↔ r ∈ allBubbles ∧ settled h r ∧ ¬ anchored h allBubbles r.
Proof.
  intros Huniq. unfold findFloatingBubbles.
  destruct floatingLoop_terminates as [connected Hrun]. rewrite Hrun.
  rewrite list_elem_of_filter.
  pose proof (connectedIds_anchored connected Huniq Hrun r) as Hspec.
  split.
  - intros [[Hs Hid] Hin]. repeat split; [done..|].
    intros Hanc. by apply Hid, Hspec.
  - intros (Hin & Hs & Hanc). repeat split; [done| |done].
    intros Hid. by apply Hanc, Hspec.
Qed.

Lemma findFloatingBubbles_settled (r : ref) :
  r ∈ findFloatingBubbles h allBubbles → r ∈ allBubbles ∧ settled h r.
Proof.
  unfold findFloatingBubbles.
  destruct (connectedIds h allBubbles); [|by intros ?%elem_of_nil].
  rewrite list_elem_of_filter. tauto.
Qed.

Lemma findFloatingBubbles_not_ceiling (r : ref) :
  r ∈ findFloatingBubbles h allBubbles → row (h !!! r) ≠ 0.
Proof.
  unfold findFloatingBubbles.
  destruct (connectedIds h allBubbles) as [connected|] eqn:Hrun;
    [|by intros ?%elem_of_nil].
  rewrite list_elem_of_filter. intros [[Hs Hid] Hin] Hr.
  apply Hid. by apply connectedIds_ceiling.
Qed.
End Floating.

(** ** The store *)

Lemma length_forEach (f : Bubble → Bubble) (refs : list ref)
    (h : list Bubble) :
  length (forEach f refs h) = length h.
Proof.
  unfold forEach. revert h. induction refs as [|x refs IH]; intros h; simpl.
  - done.
  - by rewrite IH, length_alter.
Qed.

(** A field that the assignment leaves alone reads the same afterwards. *)
Lemma forEach_proj {B} (p : Bubble → B) (f : Bubble → Bubble)
    (refs : list ref) (h : list Bubble) (r : ref) :
  (∀ b, p (f b) = p b) → p (forEach f refs h !!! r) = p (h !!! r).
Proof.
  intros Hp. unfold forEach. revert h.
  induction refs as [|x refs IH]; intros h; simpl; [done|].
  rewrite IH, list_lookup_total_alter.
  case_decide as Hx; [|done]. destruct Hx as [-> _]. apply Hp.
Qed.

(** The objects the loop visits are assigned, the others are untouched. *)
Lemma forEach_lookup (f : Bubble → Bubble) (refs : list ref)
    (h : list Bubble) (r : ref) :
  (∀ b, f (f b) = f b) → (r < length h)%nat →
  forEach f refs h !!! r = if decide (r ∈ refs) then f (h !!! r) else h !!! r.
Proof.
  intros Hf. unfold forEach. revert h.
  induction refs as [|x refs IH]; intros h Hr; simpl.
  - done.
  - rewrite IH by (by rewrite length_alter).
    rewrite list_lookup_total_alter.
    destruct (decide (x = r)) as [-> |Hne].
    + destruct (decide (r = r ∧ (r < length h)%nat)) as [_|Hn]; [|tauto].
      destruct (decide (r ∈ r :: refs)) as [_|Hn]; [|by exfalso; apply Hn; left].
      case_decide; [apply Hf|done].
    + destruct (decide (x = r ∧ (x < length h)%nat)) as [[? _]|_]; [done|].
      destruct (decide (r ∈ refs)) as [Hin|Hin],
        (decide (r ∈ x :: refs)) as [Hin'|Hin']; try done.
      * exfalso. apply Hin'. by right.
      * exfalso. apply elem_of_cons in Hin' as [?|?]; [congruence|done].
Qed.

(** ** Seeding leaves the existing objects and the score alone *)

Ltac destruct_draws :=
  repeat match goal with
    | |- context [randomElement ?r ?a ?k] => destruct (randomElement r a k)
    end.

Lemma initGrid_heap (w : World) (width : Z) (d : Difficulty) (g : Game) :
  ∃ new, heap (initGrid w width d g) = heap g ++ new.
Proof.
  unfold initGrid. destruct (forR _ _ _ _) as [newBubbles k]. simpl.
  exists newBubbles. case_bool_decide; [|done]. by destruct_draws.
Qed.

Lemma initGrid_score (w : World) (width : Z) (d : Difficulty) (g : Game) :
  score (initGrid w width d g) = score g.
Proof.
  unfold initGrid. destruct (forR _ _ _ _) as [newBubbles k]. simpl.
  case_bool_decide; [|done]. by destruct_draws.
Qed.

Lemma initGrid_lookup (w : World) (width : Z) (d : Difficulty) (g : Game)
    (r : ref) :
  (r < length (heap g))%nat → heap (initGrid w width d g) !!! r = heap g !!! r.
Proof.
  intros Hr. destruct (initGrid_heap w width d g) as [new ->].
  by apply lookup_total_app_l.
Qed.

(** ** Resolving a pending match *)

Lemma foldl_add_const {A} (c : Z) (l : list A) (z : Z) :
  foldl (λ p _, p + c) z l = z + Z.of_nat (length l) * c.
Proof.
  revert z. induction l as [|x l IH]; intros z; simpl length; simpl foldl.
  - lia.
  - rewrite IH. lia.
Qed.

Lemma awardMatch_heap (w : World) (d : Difficulty) (g : Game) :
  heap (awardMatch w d g)
  = forEach (setIsFloating true) (floatingAfterPop (perfNow w) g)
      (afterPop (perfNow w) g).
Proof.
  unfold awardMatch. case_bool_decide as Hfl; simpl.
  - by destruct (_ && _).
  - destruct (floatingAfterPop (perfNow w) g); [|simpl in Hfl; lia].
    by destruct (_ && _).
Qed.

Lemma awardMatch_bubbles (w : World) (d : Difficulty) (g : Game) :
  bubbles (awardMatch w d g) = bubbles g
  ∧ userProfile (awardMatch w d g) = userProfile g.
Proof.
  unfold awardMatch. case_bool_decide; simpl; by destruct (_ && _).
Qed.

Lemma awardMatch_score (w : World) (d : Difficulty) (g : Game) :
  score (awardMatch w d g)
  = score g
    + (Z.of_nat (length (pendingMatches g))
         * points (match pendingMatches g with
                   | first :: _ => color (heap g !!! first)
                   | [] => red
                   end)
       + Z.of_nat (length (floatingAfterPop (perfNow w) g))
         * points (match pendingMatches g with
                   | first :: _ => color (heap g !!! first)
                   | [] => red
                   end) * 2
       + 500).
Proof.
  unfold awardMatch. rewrite foldl_add_const.
  case_bool_decide as Hfl; simpl.
  - destruct (_ && _); simpl; lia.
  - assert (length (floatingAfterPop (perfNow w) g) = 0%nat) as -> by lia.
    destruct (_ && _); simpl; lia.
Qed.

(** The stage of [completeMatch] before the cleared board is reseeded. *)
Lemma completeMatch_stage (w : World) (awarded : bool) (g : Game) :
  let g1 := match awarded, userProfile g with
            | true, Some d => awardMatch w d g
            | _, _ => g
            end in
  score (completeMatch w awarded g) = score g1
  ∧ (length (heap g1) = length (heap g))
  ∧ ∀ r, (r < length (heap g))%nat →
      heap (completeMatch w awarded g) !!! r = heap g1 !!! r.
Proof.
  intros g1.
  assert (length (heap g1) = length (heap g)) as Hlen.
  { subst g1. destruct awarded, (userProfile g); try done.
    rewrite awardMatch_heap, length_forEach. apply length_forEach. }
  unfold completeMatch. fold g1.
  destruct (userProfile (withQuiz false [] g1)); [|by simpl].
  case_bool_decide; [|by simpl].
  rewrite initGrid_score. split; [done|]. split; [done|].
  intros r Hr. rewrite initGrid_lookup; [done|]. simpl. lia.
Qed.

Lemma afterPop_uniqueIds (t : Z) (g : Game) :
  uniqueIds (heap g) (bubbles g) → uniqueIds (afterPop t g) (bubbles g).
Proof.
  unfold uniqueIds, afterPop. intros Hu.
  erewrite map_ext; [exact Hu|]. intros r. simpl.
  by apply (forEach_proj id).
Qed.

Lemma afterPop_inactive (t : Z) (g : Game) (p : ref) :
  (p < length (heap g))%nat → p ∈ pendingMatches g →
  active (afterPop t g !!! p) = false.
Proof.
  intros Hp Hin. unfold afterPop. rewrite forEach_lookup; [|done..].
  by rewrite decide_True.
Qed.

(** The object behind a reference of the old store once [completeMatch]
    with an award is over: floating if among the orphans found after the
    pop, otherwise as the pop left it. *)
Lemma completeMatch_award_lookup (w : World) (g : Game) (d : Difficulty)
    (r : ref) :
  userProfile g = Some d → (r < length (heap g))%nat →
  heap (completeMatch w true g) !!! r
  = if decide (r ∈ floatingAfterPop (perfNow w) g)
    then setIsFloating true (afterPop (perfNow w) g !!! r)
    else afterPop (perfNow w) g !!! r.
Proof.
  intros Hd Hr.
  destruct (completeMatch_stage w true g) as (_ & _ & Hlook).
  rewrite Hlook by done. rewrite Hd, awardMatch_heap.
  apply forEach_lookup; [done|].
  unfold afterPop. by rewrite length_forEach.
Qed.

Lemma validRefs_board (g : Game) (r : ref) :
  validRefs g → r ∈ bubbles g → (r < length (heap g))%nat.
Proof.
  unfold validRefs. rewrite Forall_forall. intros Hv Hin.
  apply Hv, elem_of_app. by left.
Qed.

Lemma validRefs_pending (g : Game) (r : ref) :
  validRefs g → r ∈ pendingMatches g → (r < length (heap g))%nat.
Proof.
  unfold validRefs. rewrite Forall_forall. intros Hv Hin.
  apply Hv, elem_of_app. by right.
Qed.

(** A bubble of the board floats after an awarded [completeMatch] iff it
    floated before or is among the orphans found after the pop. *)
Lemma completeMatch_floating (w : World) (g : Game) (d : Difficulty)
    (r : ref) :
  userProfile g = Some d → (r < length (heap g))%nat →
  isFloating (heap (completeMatch w true g) !!! r)
  ↔ isFloating (heap g !!! r) ∨ r ∈ floatingAfterPop (perfNow w) g.
Proof.
  intros Hd Hr. rewrite (completeMatch_award_lookup w g d) by done.
  assert (isFloating (afterPop (perfNow w) g !!! r)
          = isFloating (heap g !!! r)) as Hsame.
  { unfold afterPop. by apply (forEach_proj isFloating). }
  case_decide as Hin; simpl.
  - split; [by right|done].
  - rewrite Hsame. split; [by left|]. by intros [?|?].
Qed.

(** claim C4: [findFloatingBubbles] returns exactly the settled bubbles of
    the board that no path of adjacent settled bubbles joins to a settled
    bubble of row 0; and [completeMatch] runs it on the store in which every
    bubble of the confirmed match is already inactive, so that a bubble of
    the board floats afterwards iff it floated before or is settled and
    without such a path on the board after the removal. *)
Theorem findFloatingBubbles_orphans :
  (∀ h allBubbles r, uniqueIds h allBubbles →
     r ∈ findFloatingBubbles h allBubbles
     ↔ r ∈ allBubbles ∧ settled h r ∧ ¬ anchored h allBubbles r)
  ∧ (∀ w g d,
       userProfile g = Some d → validRefs g →
       uniqueIds (heap g) (bubbles g) →
       let h1 := afterPop (perfNow w) g in
       Forall (λ p, active (h1 !!! p) = false) (pendingMatches g)
       ∧ Forall
           (λ r, isFloating (heap (completeMatch w true g) !!! r)
                 ↔ isFloating (heap g !!! r)
                   ∨ (settled h1 r ∧ ¬ anchored h1 (bubbles g) r))
           (bubbles g)).
Proof.
  split.
  - intros h allBubbles r Hu. by apply findFloatingBubbles_elem.
  - intros w g d Hd Hv Hu h1. split; apply Forall_forall.
    + intros p Hp. apply afterPop_inactive; [|done].
      by apply validRefs_pending.
    + intros r Hr.
      rewrite (completeMatch_floating w g d) by
        (done || by apply validRefs_board).
      unfold floatingAfterPop.
      rewrite findFloatingBubbles_elem by (by apply afterPop_uniqueIds).
      fold h1. tauto.
Qed.

Lemma findFloatingBubbles_orphans_witness :
  Forall (λ p, active (afterPop 5000 exampleGame !!! p) = false) [3; 2; 1]%nat
  ∧ Forall
      (λ r, isFloating (heap (completeMatch exampleWorld true exampleGame)
                          !!! r)
            ↔ isFloating (exampleHeap !!! r)
              ∨ (settled (afterPop 5000 exampleGame) r
                 ∧ ¬ anchored (afterPop 5000 exampleGame)
                       [0; 1; 2; 3; 4]%nat r))
      [0; 1; 2; 3; 4]%nat.
Proof.
  apply (proj2 findFloatingBubbles_orphans exampleWorld exampleGame Easy).
  - reflexivity.
  - apply (bool_decide_unpack _). vm_compute. exact I.
  - apply (bool_decide_unpack _). vm_compute. exact I.
Defined.

(** claim C10: no bubble of row 0 is returned by [findFloatingBubbles], so
    [completeMatch] leaves the floating flag of every bubble of row 0 as it
    was. *)
Theorem ceiling_never_floats :
  (∀ h allBubbles r,
     r ∈ findFloatingBubbles h allBubbles → row (h !!! r) ≠ 0)
  ∧ (∀ w awarded g r,
       (r < length (heap g))%nat → row (heap g !!! r) = 0 →
       isFloating (heap (completeMatch w awarded g) !!! r)
       = isFloating (heap g !!! r)).
Proof.
  split.
  - intros h allBubbles r. apply findFloatingBubbles_not_ceiling.
  - intros w awarded g r Hr Hrow.
    destruct awarded; [destruct (userProfile g) as [d|] eqn:Hd|].
    + rewrite (completeMatch_award_lookup w g d) by done.
      rewrite decide_False.
      * unfold afterPop. by apply (forEach_proj isFloating).
      * intros Hin. apply findFloatingBubbles_not_ceiling in Hin.
        apply Hin. unfold afterPop.
        by rewrite (forEach_proj row).
    + destruct (completeMatch_stage w true g) as (_ & _ & Hlook).
      rewrite Hlook by done. by rewrite Hd.
    + destruct (completeMatch_stage w false g) as (_ & _ & Hlook).
      by rewrite Hlook.
Qed.

Lemma ceiling_never_floats_witness :
  isFloating (heap (completeMatch exampleWorld true exampleGame) !!! 0%nat)
  = isFloating (heap exampleGame !!! 0%nat).
Proof.
  apply (proj2 ceiling_never_floats exampleWorld true exampleGame 0%nat).
  - simpl. lia.
  - reflexivity.
Defined.

Lemma filter_ext_elem {A} (P Q : A → Prop) `{∀ x, Decision (P x)}
    `{∀ x, Decision (Q x)} (l : list A) :
  (∀ x, x ∈ l → P x ↔ Q x) → filter P l = filter Q l.
Proof.
  induction l as [|x l IH]; intros Hext; [done|].
  rewrite !filter_cons.
  rewrite IH by (intros y Hy; apply Hext; by right).
  pose proof (Hext x (list_elem_of_here _ _)) as Hx.
  destruct (decide (P x)), (decide (Q x)); tauto || done.
Qed.

(** The bubbles that start to float in an awarded [completeMatch] are the
    orphans it found after the pop. *)
Lemma newlyFloating_completeMatch (w : World) (g : Game) (d : Difficulty) :
  userProfile g = Some d → validRefs g →
  newlyFloating g (completeMatch w true g)
  = floatingAfterPop (perfNow w) g.
Proof.
  intros Hd Hv. unfold newlyFloating.
  assert (∀ r, r ∈ floatingAfterPop (perfNow w) g →
            ¬ isFloating (heap g !!! r)) as Hnot.
  { intros r [_ Hs]%findFloatingBubbles_settled.
    apply settled_iff in Hs as [_ Hf]. unfold afterPop in Hf.
    by rewrite (forEach_proj isFloating) in Hf. }
  assert (∀ r, r ∈ bubbles g →
            (¬ isFloating (heap g !!! r)
             ∧ isFloating (heap (completeMatch w true g) !!! r))
            ↔ r ∈ floatingAfterPop (perfNow w) g) as Hiff.
  { intros r Hr.
    rewrite (completeMatch_floating w g d) by
      (done || by apply validRefs_board).
    specialize (Hnot r). tauto. }
  revert Hiff. unfold floatingAfterPop, findFloatingBubbles.
  destruct (floatingLoop_terminates (afterPop (perfNow w) g) (bubbles g))
    as [connected ->].
  intros Hiff. apply filter_ext_elem. intros r Hr.
  rewrite (Hiff r Hr), list_elem_of_filter. tauto.
Qed.

(** claim C5: with a non-empty pending match of [n] bubbles of colour [c],
    [completeMatch(true)] adds [n * points c + orphans * points c * 2 + 500]
    to the score, where [orphans] counts the bubbles of the board that
    start to float; [completeMatch(false)] changes neither the score nor
    any existing bubble. *)
Theorem completeMatch_score_delta :
  (∀ w g d c,
     userProfile g = Some d → validRefs g → pendingMatches g ≠ [] →
     Forall (λ p, color (heap g !!! p) = c) (pendingMatches g) →
     let g' := completeMatch w true g in
     score g'
     = score g + Z.of_nat (length (pendingMatches g)) * points c
       + Z.of_nat (length (newlyFloating g g')) * points c * 2 + 500)
  ∧ (∀ w g,
       score (completeMatch w false g) = score g
       ∧ ∀ r, (r < length (heap g))%nat →
           heap (completeMatch w false g) !!! r = heap g !!! r).
Proof.
  split.
  - intros w g d c Hd Hv Hne Hc g'. subst g'.
    rewrite (newlyFloating_completeMatch w g d) by done.
    destruct (completeMatch_stage w true g) as (-> & _ & _).
    rewrite Hd, awardMatch_score.
    destruct (pendingMatches g) as [|first rest] eqn:Hp; [done|].
    apply Forall_cons in Hc as [-> _]. lia.
  - intros w g.
    destruct (completeMatch_stage w false g) as (Hs & _ & Hlook).
    split; [exact Hs|exact Hlook].
Qed.

Lemma completeMatch_score_delta_witness :
  score (completeMatch exampleWorld true exampleGame)
  = score exampleGame + Z.of_nat 3 * points red
    + Z.of_nat
        (length (newlyFloating exampleGame
                   (completeMatch exampleWorld true exampleGame)))
      * points red * 2
    + 500.
Proof.
  apply (proj1 completeMatch_score_delta exampleWorld exampleGame Easy red).
  - reflexivity.
  - apply (bool_decide_unpack _). vm_compute. exact I.
  - discriminate.
  - apply (bool_decide_unpack _). vm_compute. exact I.
Defined.

Example completeMatch_example_score :
  score (completeMatch exampleWorld true exampleGame) = 1000
  ∧ newlyFloating exampleGame (completeMatch exampleWorld true exampleGame)
    = [4%nat].
Proof. split; vm_compute; reflexivity. Qed.

(** ** Colour policy *)

Lemma literals_are_nearest_doubles :
  isNearestDouble double_0_85 (85 # 100) = true
  ∧ isNearestDouble double_0_9 (9 # 10) = true
  ∧ isNearestDouble double_0_95 (95 # 100) = true
  ∧ isNearestDouble double_0_35 (35 # 100) = true
  ∧ isNearestDouble double_0_1 (1 # 10) = true
  ∧ isNearestDouble double_0_05 (5 # 100) = true.
Proof. by vm_compute. Qed.

Lemma roundToDouble_bounds (p n : Z) :
  0 ≤ p → p ≤ (TWO53 - 1) * n → 0 ≤ roundToDouble p < n * TWO53 ∨ n ≤ 0.
Proof.
  intros Hp Hn. destruct (decide (n ≤ 0)) as [|Hpos]; [by right|left].
  assert (0 < TWO53) as H53 by (by vm_compute).
  unfold roundToDouble. destruct (p <? TWO53) eqn:Hsmall.
  { apply Z.ltb_lt in Hsmall. nia. }
  apply Z.ltb_ge in Hsmall. cbv zeta.
  assert (53 ≤ Z.log2 p) as Hlog.
  { apply (Z.log2_le_mono (2 ^ 53) p) in Hsmall.
    by rewrite Z.log2_pow2 in Hsmall. }
  set (s := Z.log2 p - 52).
  assert (0 < 2 ^ s) as Hs by (apply Z.pow_pos_nonneg; lia).
  assert (2 ^ s = 2 * 2 ^ (s - 1)) as Hhalf.
  { replace s with (Z.succ (s - 1)) at 1 by lia.
    apply Z.pow_succ_r. lia. }
  assert (2 ^ (s - 1) * TWO53 ≤ p) as Hulp.
  { unfold TWO53. rewrite <- Z.pow_add_r by lia.
    replace (s - 1 + 53) with (Z.log2 p) by lia.
    apply Z.log2_spec. lia. }
  pose proof (Z.div_mod p (2 ^ s)) as Hdiv.
  pose proof (Z.mod_pos_bound p (2 ^ s) Hs) as Hr.
  assert (0 ≤ p `div` 2 ^ s) as Hq by (apply Z.div_pos; lia).
  destruct (_ || _) eqn:Hup.
  - assert (2 ^ (s - 1) ≤ p `mod` 2 ^ s) as Hge.
    { apply orb_true_iff in Hup as [Hlt|[Heq _]%andb_true_iff].
      - apply Z.ltb_lt in Hlt. lia.
      - apply Z.eqb_eq in Heq. lia. }
    nia.
  - nia.
Qed.

Lemma randomIndex_lt (rng : nat → Z) (k n : nat) :
  (0 < n)%nat → (randomIndex (rng k `mod` TWO53) n < n)%nat.
Proof.
  intros Hn. unfold randomIndex.
  assert (0 < TWO53) as Hpos by (by vm_compute).
  pose proof (Z.mod_pos_bound (rng k) TWO53 Hpos) as [Hlo Hhi].
  destruct (roundToDouble_bounds (rng k `mod` TWO53 * Z.of_nat n)
              (Z.of_nat n)) as [[Hge Hlt]|Hneg]; [nia|nia| |lia].
  assert (0 ≤ roundToDouble (rng k `mod` TWO53 * Z.of_nat n) `div` TWO53
          < Z.of_nat n).
  { split.
    - by apply Z.div_pos.
    - apply Z.div_lt_upper_bound; lia. }
  lia.
Qed.

(** A draw from a non-empty array is one of its elements. *)
Lemma randomElement_elem {A} `{Inhabited A} (rng : nat → Z) (arr : list A)
    (k : nat) :
  arr ≠ [] → fst (randomElement rng arr k) ∈ arr.
Proof.
  intros Hne. unfold randomElement, bindR, mathRandom, retR. simpl.
  apply list_elem_of_lookup_total_2, randomIndex_lt.
  destruct arr; [done|simpl; lia].
Qed.

Lemma notForbidden_elem (forbiddenColors arr : list BubbleColor)
    (c : BubbleColor) :
  c ∈ notForbidden forbiddenColors arr → c ∉ forbiddenColors.
Proof. unfold notForbidden. rewrite list_elem_of_filter. tauto. Qed.

Lemma elem_of_arrayFromSet_acc {A} `{EqDecision A} (xs acc : list A) (x : A) :
  x ∈ foldl (λ acc x, if decide (x ∈ acc) then acc else acc ++ [x]) acc xs
  ↔ x ∈ acc ∨ x ∈ xs.
Proof.
  revert acc. induction xs as [|y xs IH]; intros acc; simpl.
  - rewrite elem_of_nil. tauto.
  - rewrite IH, elem_of_cons. destruct (decide (y ∈ acc)) as [Hy|Hy].
    + split; [tauto|]. intros [?|[->|?]]; tauto.
    + rewrite elem_of_app, list_elem_of_singleton. tauto.
Qed.

Lemma elem_of_arrayFromSet {A} `{EqDecision A} (xs : list A) (x : A) :
  x ∈ arrayFromSet xs ↔ x ∈ xs.
Proof.
  unfold arrayFromSet. rewrite elem_of_arrayFromSet_acc, elem_of_nil. tauto.
Qed.

Lemma activeColorsOf_elem (h : list Bubble) (currentBubbles : list ref)
    (c : BubbleColor) :
  c ∈ activeColorsOf h currentBubbles
  ↔ ∃ r, r ∈ currentBubbles ∧ active (h !!! r) = true ∧ color (h !!! r) = c.
Proof.
  unfold activeColorsOf. rewrite elem_of_arrayFromSet, list_elem_of_fmap.
  split.
  - intros (r & -> & [Ha Hr]%list_elem_of_filter). by exists r.
  - intros (r & Hr & Ha & <-). exists r. split; [done|].
    by apply list_elem_of_filter.
Qed.

Lemma notForbidden_palette (forbiddenColors : list BubbleColor)
    (c : BubbleColor) :
  c ∈ notForbidden forbiddenColors COLOR_KEYS ↔ c ∉ forbiddenColors.
Proof.
  unfold notForbidden. rewrite list_elem_of_filter. split; [tauto|].
  intros Hc. split; [done|]. unfold COLOR_KEYS. destruct c; set_solver.
Qed.

(** claim C9, as the code has it.  The candidate set is [onBoard], the
    colours of the active bubbles of the board that are not forbidden, and
    when no such colour exists it is [allowed], the palette colours that are
    not forbidden.  With no active bubble on the board the colour returned
    is a draw from the whole palette, whatever is forbidden, and so it is
    when bubbles are active and every palette colour is forbidden.
    Otherwise the first draw decides whether a new colour is introduced:
    if it does the colour returned is the next draw from [allowed], if not
    the next draw from the candidate set; either way it is a member of the
    set it is drawn from and is not forbidden. *)
Theorem getNextBubbleColor_not_forbidden (rng : nat → Z) (h : list Bubble)
    (currentBubbles : list ref) (forbiddenColors : list BubbleColor)
    (difficulty : Difficulty) (k : nat) :
  let result :=
    getNextBubbleColor rng h currentBubbles forbiddenColors difficulty k in
  let activeColors := activeColorsOf h currentBubbles in
  let onBoard := notForbidden forbiddenColors activeColors in
  let allowed := notForbidden forbiddenColors COLOR_KEYS in
  let candidates := match onBoard with [] => allowed | _ => onBoard end in
  let newColor :=
    randomLt (rng k `mod` TWO53) (introduceNewColorChance difficulty) in
  (∀ c, c ∈ onBoard
        ↔ (∃ b, b ∈ currentBubbles ∧ active (h !!! b) = true
                ∧ color (h !!! b) = c)
          ∧ c ∉ forbiddenColors)
  ∧ (∀ c, c ∈ allowed ↔ c ∉ forbiddenColors)
  ∧ (activeColors = [] → result = randomElement rng COLOR_KEYS k)
  ∧ (activeColors ≠ [] → allowed = [] →
     result = randomElement rng COLOR_KEYS k)
  ∧ (activeColors ≠ [] → allowed ≠ [] →
     result
     = randomElement rng (if newColor then allowed else candidates) (S k)
     ∧ fst result ∈ (if newColor then allowed else candidates)
     ∧ fst result ∉ forbiddenColors).
Proof.
  intros result activeColors onBoard allowed candidates newColor.
  assert (∀ c, c ∈ onBoard
               ↔ (∃ b, b ∈ currentBubbles ∧ active (h !!! b) = true
                       ∧ color (h !!! b) = c)
                 ∧ c ∉ forbiddenColors) as HonBoard.
  { intros c. subst onBoard activeColors. unfold notForbidden.
    rewrite list_elem_of_filter, activeColorsOf_elem. tauto. }
  assert (∀ c, c ∈ allowed ↔ c ∉ forbiddenColors) as Hallowed
    by apply notForbidden_palette.
  assert (result
          = (if bool_decide (length activeColors = 0%nat)
             then randomElement rng COLOR_KEYS
             else
               let candidates :=
                 if bool_decide (length onBoard = 0%nat)
                 then allowed else onBoard in
               if bool_decide (length candidates = 0%nat)
               then randomElement rng COLOR_KEYS
               else
                 let* m := mathRandom rng in
                 if randomLt m (introduceNewColorChance difficulty)
                    && bool_decide (0 < length allowed)%nat
                 then randomElement rng allowed
                 else randomElement rng candidates) k) as Hres
    by reflexivity.
  assert (candidates = match onBoard with [] => allowed | _ => onBoard end)
    as Hcandidates by reflexivity.
  clearbody result candidates onBoard allowed activeColors.
  assert (onBoard ≠ [] → allowed ≠ []) as Hsub.
  { destruct onBoard as [|c l]; [done|]. intros _ Hnil.
    assert (c ∈ allowed) as Hc.
    { apply Hallowed, (HonBoard c). left. }
    rewrite Hnil in Hc. by apply elem_of_nil in Hc. }
  split; [done|]. split; [done|].
  split; [|split].
  - intros ->. by rewrite Hres.
  - intros Hactive Hnone. rewrite Hres.
    rewrite (bool_decide_false (length activeColors = 0%nat))
      by (by destruct activeColors).
    destruct onBoard as [|c l]; [|by destruct Hsub].
    simpl. by rewrite Hnone.
  - intros Hactive Hsome.
    assert (candidates ≠ []) as Hcand.
    { rewrite Hcandidates. by destruct onBoard. }
    assert (∀ c, c ∈ candidates → c ∉ forbiddenColors) as Hok.
    { rewrite Hcandidates. intros c Hc. destruct onBoard as [|c' l] eqn:Hon.
      - by apply Hallowed.
      - by apply HonBoard in Hc as [_ Hc]. }
    assert (result
            = randomElement rng (if newColor then allowed else candidates)
                (S k)) as ->.
    { rewrite Hres.
      rewrite (bool_decide_false (length activeColors = 0%nat))
        by (by destruct activeColors).
      cbv zeta.
      assert ((if bool_decide (length onBoard = 0%nat)
               then allowed else onBoard) = candidates) as ->.
      { rewrite Hcandidates. by destruct onBoard. }
      rewrite (bool_decide_false (length candidates = 0%nat))
        by (by destruct candidates).
      rewrite (bool_decide_true (0 < length allowed)%nat)
        by (destruct allowed; [done|simpl; lia]).
      unfold bindR at 1. unfold mathRandom at 1. cbv beta iota.
      fold newColor. rewrite andb_true_r. by destruct newColor. }
    split; [done|].
    destruct newColor.
    + pose proof (randomElement_elem rng allowed (S k) Hsome) as Hel.
      split; [done|]. by apply Hallowed.
    + pose proof (randomElement_elem rng candidates (S k) Hcand) as Hel.
      split; [done|]. by apply Hok.
Qed.

Lemma getNextBubbleColor_not_forbidden_witness :
  let rng := λ i : nat, match i with O => 2 ^ 52 | _ => 2 ^ 53 - 1 end in
  let result :=
    getNextBubbleColor rng exampleHeap [0; 1; 2; 3; 4]%nat [red; green] Hard
      0%nat in
  result = randomElement rng [blue] 1%nat
  ∧ fst result ∈ [blue]
  ∧ fst result ∉ [red; green].
Proof.
  exact (proj2 (proj2 (proj2 (proj2
           (getNextBubbleColor_not_forbidden
              (λ i : nat, match i with O => 2 ^ 52 | _ => 2 ^ 53 - 1 end)
              exampleHeap [0; 1; 2; 3; 4]%nat [red; green] Hard 0%nat))))
         ltac:(vm_compute; discriminate) ltac:(vm_compute; discriminate)).
Defined.

(** The board decides the colour: on the example board with red and green
    forbidden, a draw that introduces no new colour returns blue, the one
    colour of the board that is allowed, where the same draw from the
    palette colours that are allowed returns orange. *)
Example getNextBubbleColor_draws_from_the_board :
  let rng := λ i : nat, match i with O => 2 ^ 52 | _ => 2 ^ 53 - 1 end in
  fst (getNextBubbleColor rng exampleHeap [0; 1; 2; 3; 4]%nat [red; green]
         Hard 0%nat) = blue
  ∧ fst (randomElement rng (notForbidden [red; green] COLOR_KEYS) 1%nat)
    = orange.
Proof. by vm_compute. Qed.

(** The claim as stated fails on an empty board: red is forbidden, five
    palette colours are not, and red is returned. *)
Example getNextBubbleColor_empty_board_forbidden :
  notForbidden [red] COLOR_KEYS ≠ []
  ∧ fst (getNextBubbleColor (λ _, 0) [] [] [red] Medium 0%nat) ∈ [red].
Proof.
  split.
  - vm_compute. discriminate.
  - vm_compute. left.
Qed.

(** ** Detecting a match *)

Section Matching.
Variable h : list Bubble.
Variable board : list ref.
Variable s : ref.
Hypothesis Hunique : uniqueIds h board.
Hypothesis Hstart : s ∈ board.

Lemma sameColorPath_color (r : ref) :
  sameColorPath h board s r → color (h !!! r) = color (h !!! s).
Proof. by destruct 1. Qed.

Lemma unvisited_step (visited : gset string) (current : ref) :
  current ∈ board → id (h !!! current) ∉ visited →
  (S (length (unvisited h board (visited ∪ {[ id (h !!! current) ]})))
   ≤ length (unvisited h board visited))%nat.
Proof.
  intros Hin Hid. unfold unvisited.
  pose proof (length_filter_disjoint
                (λ b, id (h !!! b) = id (h !!! current))
                (λ b, id (h !!! b) ∉ visited ∪ {[ id (h !!! current) ]})
                (λ b, id (h !!! b) ∉ visited) board) as Hlen.
  assert (current ∈ filter (λ b, id (h !!! b) = id (h !!! current)) board)
    as Hc by (by apply list_elem_of_filter).
  destruct (filter (λ b, id (h !!! b) = id (h !!! current)) board);
    [by apply elem_of_nil in Hc|].
  simpl in Hlen. etrans; [|apply Hlen].
  - lia.
  - intros x _ Hx. by rewrite Hx.
  - intros x _ Hx Hv. apply Hx, elem_of_union. by left.
  - intros x _ Hx Hnot. apply Hnot, elem_of_union. right.
    by apply elem_of_singleton.
Qed.

Lemma matchLoop_enough (fuel : nat) :
  ∀ toCheck visited matches,
    (∀ r, r ∈ toCheck → r ∈ board) →
    (length toCheck
     + length (unvisited h board visited) * S (length board)
     ≤ fuel)%nat →
    is_Some (matchLoop fuel h board (color (h !!! s)) toCheck visited matches).
Proof.
  induction fuel as [|fuel IH]; intros toCheck visited matches Hsub Hlen;
    destruct toCheck as [|current rest]; simpl; try done.
  - simpl in Hlen. lia.
  - simpl in Hlen.
    assert (current ∈ board) as Hcur by (apply Hsub; left).
    assert (∀ r, r ∈ rest → r ∈ board) as Hrest
      by (intros r Hr; apply Hsub; by right).
    destruct (decide (id (h !!! current) ∈ visited)) as [Hv|Hv].
    + apply IH; [done|lia].
    + pose proof (unvisited_step visited current Hcur Hv) as Hstep.
      destruct (decide (color (h !!! current) = color (h !!! s))).
      * apply IH.
        -- intros r Hr. apply elem_of_app in Hr as [Hr|Hr]; [|by apply Hrest].
           apply elem_of_reverse, list_elem_of_filter in Hr. tauto.
        -- rewrite length_app, length_reverse.
           assert (length
                     (pushedOf h board
                        (visited ∪ {[ id (h !!! current) ]}) current)
                   ≤ length board)%nat as Hp by apply length_filter.
           nia.
      * apply IH; [done|]. nia.
Qed.

Lemma matchLoop_terminates : is_Some (matchesOf h board s).
Proof.
  unfold matchesOf. apply matchLoop_enough.
  - intros r ->%list_elem_of_singleton. done.
  - unfold matchFuel, unvisited. change (length [s]) with 1%nat.
    assert (∀ U N, U ≤ N → 1 + U * S N ≤ S (S N * S (S N)))%nat as Harith
      by (intros; nia).
    apply Harith, length_filter.
Qed.

Lemma matchInv_init : matchInv h board s [s] ∅ [].
Proof.
  unfold matchInv. split; [|split; [|split; [|split; [|split]]]].
  - intros r ->%list_elem_of_singleton. split; [done|by left].
  - intros m Hm. by apply elem_of_nil in Hm.
  - constructor.
  - intros r _ Hr. by apply not_elem_of_empty in Hr.
  - intros m b Hm. by apply elem_of_nil in Hm.
  - right. split; [by apply list_elem_of_singleton|].
    apply not_elem_of_empty.
Qed.

(** The bubble on top of the stack was visited before: it is dropped. *)
Lemma matchInv_skip (current : ref) (rest : list ref)
    (visited : gset string) (matches : list ref) :
  matchInv h board s (current :: rest) visited matches →
  id (h !!! current) ∈ visited →
  matchInv h board s rest visited matches.
Proof.
  intros (H1 & H2 & H3 & H4 & H5 & H6) Hv.
  split; [|split; [|split; [|split; [|split]]]]; try done.
  - intros r Hr. apply H1. by right.
  - intros m b Hm Hb Hs Hn.
    destruct (H5 m b Hm Hb Hs Hn) as [?|Hin]; [by left|].
    apply elem_of_cons in Hin as [-> |?]; [by left|by right].
  - destruct H6 as [?|[Hin Hid]]; [by left|right].
    split; [|done].
    apply elem_of_cons in Hin as [-> |?]; [done|done].
Qed.

(** The bubble on top of the stack is new and of another colour: it is
    marked visited and dropped. *)
Lemma matchInv_other (current : ref) (rest : list ref)
    (visited : gset string) (matches : list ref) :
  matchInv h board s (current :: rest) visited matches →
  id (h !!! current) ∉ visited →
  color (h !!! current) ≠ color (h !!! s) →
  matchInv h board s rest (visited ∪ {[ id (h !!! current) ]}) matches.
Proof.
  intros (H1 & H2 & H3 & H4 & H5 & H6) Hv Hcol.
  assert (current ∈ board) as Hcur by (apply H1; left).
  split; [|split; [|split; [|split; [|split]]]]; try done.
  - intros r Hr. apply H1. by right.
  - intros m Hm. destruct (H2 m Hm) as [? ?]. split; [done|].
    apply elem_of_union. by left.
  - intros r Hr Hid Hc.
    apply elem_of_union in Hid as [Hid|Hid]; [by apply H4|].
    apply elem_of_singleton in Hid.
    assert (r = current) as -> by (by apply (uniqueIds_inj h board)).
    done.
  - intros m b Hm Hb Hs Hn.
    destruct (H5 m b Hm Hb Hs Hn) as [?|Hin].
    + left. apply elem_of_union. by left.
    + apply elem_of_cons in Hin as [-> |?]; [left|by right].
      apply elem_of_union. right. by apply elem_of_singleton.
  - destruct H6 as [?|[Hin Hid]]; [by left|right].
    apply elem_of_cons in Hin as [-> |Hin]; [done|].
    split; [done|]. intros Hu.
    apply elem_of_union in Hu as [?|Hu]; [done|].
    apply elem_of_singleton in Hu.
    assert (s = current) as Heq by (by apply (uniqueIds_inj h board)).
    subst current. done.
Qed.

(** The bubble on top of the stack is new and of the colour of the
    start: it becomes a match and its unvisited settled neighbours are
    pushed. *)
Lemma matchInv_match (current : ref) (rest : list ref)
    (visited : gset string) (matches : list ref) :
  matchInv h board s (current :: rest) visited matches →
  id (h !!! current) ∉ visited →
  color (h !!! current) = color (h !!! s) →
  matchInv h board s
    (reverse (pushedOf h board (visited ∪ {[ id (h !!! current) ]}) current)
     ++ rest)
    (visited ∪ {[ id (h !!! current) ]}) (matches ++ [current]).
Proof.
  intros (H1 & H2 & H3 & H4 & H5 & H6) Hv Hcol.
  destruct (H1 current (list_elem_of_here _ _)) as [Hcur Hwhy].
  assert (sameColorPath h board s current) as Hpath.
  { destruct Hwhy as [-> |(Hs & m & Hm & Hn)]; [constructor|].
    by apply (path_step h board s m). }
  assert (id (h !!! current) ∈ visited ∪ {[ id (h !!! current) ]}) as Hnew.
  { apply elem_of_union. right. by apply elem_of_singleton. }
  split; [|split; [|split; [|split; [|split]]]].
  - intros r Hr. apply elem_of_app in Hr as [Hr|Hr]; [|apply H1; by right].
    apply elem_of_reverse, list_elem_of_filter in Hr
      as [(Hs & _ & Hn) Hin].
    split; [done|]. right. split; [done|]. by exists current.
  - intros m Hm. apply elem_of_app in Hm as [Hm|Hm].
    + destruct (H2 m Hm) as [? ?]. split; [done|].
      apply elem_of_union. by left.
    + apply list_elem_of_singleton in Hm as ->. done.
  - apply NoDup_app. split; [done|]. split; [|apply NoDup_singleton].
    intros m Hm ->%list_elem_of_singleton. apply Hv. by apply H2.
  - intros r Hr Hid Hc. apply elem_of_app.
    apply elem_of_union in Hid as [Hid|Hid]; [left; by apply H4|].
    apply elem_of_singleton in Hid. right.
    apply list_elem_of_singleton. by apply (uniqueIds_inj h board).
  - intros m b Hm Hb Hs Hn.
    destruct (decide (id (h !!! b) ∈ visited ∪ {[ id (h !!! current) ]}))
      as [?|Hnot]; [by left|right].
    apply elem_of_app.
    apply elem_of_app in Hm as [Hm|Hm].
    + destruct (H5 m b Hm Hb Hs Hn) as [Hin|Hin].
      * exfalso. apply Hnot, elem_of_union. by left.
      * apply elem_of_cons in Hin as [-> |?]; [done|by right].
    + apply list_elem_of_singleton in Hm as ->. left.
      apply elem_of_reverse, list_elem_of_filter. done.
  - destruct H6 as [?|[Hin Hid]].
    { left. apply elem_of_app. by left. }
    destruct (decide (s = current)) as [-> |Hne].
    { left. apply elem_of_app. right. by apply list_elem_of_singleton. }
    right. apply elem_of_cons in Hin as [?|Hin]; [done|].
    split; [apply elem_of_app; by right|].
    intros Hu. apply elem_of_union in Hu as [?|Hu]; [done|].
    apply elem_of_singleton in Hu. apply Hne.
    by apply (uniqueIds_inj h board).
Qed.

Lemma matchLoop_inv (fuel : nat) :
  ∀ toCheck visited matches result,
    matchInv h board s toCheck visited matches →
    matchLoop fuel h board (color (h !!! s)) toCheck visited matches
    = Some result →
    ∃ visited', matchInv h board s [] visited' result.
Proof.
  induction fuel as [|fuel IH]; intros toCheck visited matches result Hinv;
    destruct toCheck as [|current rest]; simpl; try done.
  - intros [= <-]. by exists visited.
  - intros [= <-]. by exists visited.
  - destruct (decide (id (h !!! current) ∈ visited)) as [Hv|Hv].
    { apply IH. by apply matchInv_skip with current. }
    destruct (decide (color (h !!! current) = color (h !!! s))) as [Hc|Hc].
    + apply IH. by apply matchInv_match.
    + apply IH. by apply matchInv_other.
Qed.

(** The matches are a duplicate-free list of the cluster of the start. *)
Lemma matchesOf_cluster :
  ∃ matches,
    matchesOf h board s = Some matches
    ∧ NoDup matches
    ∧ ∀ r, r ∈ matches ↔ sameColorPath h board s r.
Proof.
  destruct matchLoop_terminates as [matches Hrun].
  exists matches. split; [done|].
  destruct (matchLoop_inv _ _ _ _ _ matchInv_init Hrun)
    as (visited & H1 & H2 & H3 & H4 & H5 & H6).
  split; [done|]. intros r. split; [by apply H2|].
  induction 1 as [|m b Hm IH Hb Hs Hc Hn].
  - destruct H6 as [?|[Hin _]]; [done|by apply elem_of_nil in Hin].
  - destruct (H5 m b IH Hb Hs Hn) as [Hid|Hin];
      [by apply H4|by apply elem_of_nil in Hin].
Qed.
End Matching.

(** claim C2: the matches [checkMatches] collects from a start bubble of
    the board all have the colour of the start, and no settled bubble of
    that colour next to a match is left out; the matches are exactly the
    bubbles a same-colour path joins to the start, whatever the order of
    the traversal. *)
Theorem checkMatches_pure_and_maximal (h : list Bubble) (board : list ref)
    (s : ref) :
  uniqueIds h board → s ∈ board →
  ∃ matches,
    matchesOf h board s = Some matches
    ∧ s ∈ matches
    ∧ Forall (λ m, color (h !!! m) = color (h !!! s)) matches
    ∧ (∀ m b, m ∈ matches → b ∈ board → settled h b →
         color (h !!! b) = color (h !!! s) →
         isNeighbor (h !!! m) (h !!! b) → b ∈ matches)
    ∧ (∀ r, r ∈ matches ↔ sameColorPath h board s r).
Proof.
  intros Hu Hs.
  destruct (matchesOf_cluster h board s Hu Hs) as (matches & Hrun & _ & Hiff).
  exists matches. split; [done|]. split; [|split; [|split; [|done]]].
  - apply Hiff. constructor.
  - apply Forall_forall. intros m Hm.
    by apply (sameColorPath_color h board s), Hiff.
  - intros m b Hm Hb Hset Hc Hn. apply Hiff.
    apply (path_step h board s m); [by apply Hiff|done..].
Qed.

Lemma checkMatches_pure_and_maximal_witness :
  ∃ matches,
    matchesOf exampleHeap [0; 1; 2; 3; 4]%nat 3%nat = Some matches
    ∧ 3%nat ∈ matches
    ∧ Forall (λ m, color (exampleHeap !!! m) = color (exampleHeap !!! 3%nat))
        matches
    ∧ (∀ m b, m ∈ matches → b ∈ [0; 1; 2; 3; 4]%nat →
         settled exampleHeap b →
         color (exampleHeap !!! b) = color (exampleHeap !!! 3%nat) →
         isNeighbor (exampleHeap !!! m) (exampleHeap !!! b) → b ∈ matches)
    ∧ (∀ r, r ∈ matches
            ↔ sameColorPath exampleHeap [0; 1; 2; 3; 4]%nat 3%nat r).
Proof.
  apply checkMatches_pure_and_maximal.
  - apply (bool_decide_unpack _). vm_compute. exact I.
  - apply (bool_decide_unpack _). vm_compute. exact I.
Defined.

Example checkMatches_example :
  matchesOf exampleHeap [0; 1; 2; 3; 4]%nat 3%nat = Some [3; 2; 1]%nat.
Proof. vm_compute. reflexivity. Qed.

(** claim C3: when the cluster of the placed bubble has one or two
    bubbles, [checkMatches] returns false and leaves the game as it is;
    when it has three or more, [checkMatches] returns true and the pending
    match is the cluster, each bubble once. *)
Theorem checkMatches_threshold (g : Game) (s : ref) (cluster : list ref) :
  uniqueIds (heap g) (bubbles g) → s ∈ bubbles g →
  NoDup cluster →
  (∀ r, r ∈ cluster ↔ sameColorPath (heap g) (bubbles g) s r) →
  ((length cluster ≤ 2)%nat → checkMatches s g = (g, false))
  ∧ ((3 ≤ length cluster)%nat →
       ∃ matches,
         checkMatches s g = (triggerQuiz matches g, true)
         ∧ pendingMatches (triggerQuiz matches g) = matches
         ∧ isQuizActive (triggerQuiz matches g) = true
         ∧ matches ≡ₚ cluster).
Proof.
  intros Hu Hs Hnd Hcl.
  destruct (matchesOf_cluster (heap g) (bubbles g) s Hu Hs)
    as (matches & Hrun & Hnd' & Hiff).
  assert (matches ≡ₚ cluster) as Hperm.
  { apply NoDup_Permutation; [done..|]. intros r. by rewrite Hiff, Hcl. }
  unfold checkMatches. rewrite Hrun. simpl.
  rewrite (Permutation_length Hperm).
  split; intros Hlen.
  - rewrite bool_decide_eq_false_2 by lia. done.
  - rewrite bool_decide_eq_true_2 by lia. by exists matches.
Qed.

Lemma checkMatches_threshold_witness :
  ((length [3; 2; 1]%nat ≤ 2)%nat
   → checkMatches 3%nat exampleGame = (exampleGame, false))
  ∧ ((3 ≤ length [3; 2; 1]%nat)%nat →
       ∃ matches,
         checkMatches 3%nat exampleGame
         = (triggerQuiz matches exampleGame, true)
         ∧ pendingMatches (triggerQuiz matches exampleGame) = matches
         ∧ isQuizActive (triggerQuiz matches exampleGame) = true
         ∧ matches ≡ₚ [3; 2; 1]%nat).
Proof.
  assert (uniqueIds exampleHeap [0; 1; 2; 3; 4]%nat) as Hu
    by (apply (bool_decide_unpack _); vm_compute; exact I).
  assert (3%nat ∈ [0; 1; 2; 3; 4]%nat) as Hs
    by (apply (bool_decide_unpack _); vm_compute; exact I).
  apply checkMatches_threshold.
  - exact Hu.
  - exact Hs.
  - apply (bool_decide_unpack _). vm_compute. exact I.
  - destruct (matchesOf_cluster exampleHeap [0; 1; 2; 3; 4]%nat 3%nat Hu Hs)
      as (matches & Hrun & _ & Hiff).
    assert (matches = [3; 2; 1]%nat) as <-; [|exact Hiff].
    vm_compute in Hrun. by injection Hrun.
Defined.

(** A pair of bubbles of one colour stays on the board without a quiz. *)
Example checkMatches_pair :
  let h := [ mkBubble "0-0-1" 0 0 red true false None;
             mkBubble "1-0-9" 1 0 red true false None;
             mkBubble "0-1-1" 0 1 blue true false None ] in
  let g := withBoard h [0; 2; 1]%nat (newGame Easy) in
  checkMatches 1%nat g = (g, false).
Proof. vm_compute. reflexivity. Qed.

(** ** The spawn timer and a pending match *)

Lemma awardMatch_lastDropTime (w : World) (d : Difficulty) (g : Game) :
  lastDropTime (awardMatch w d g) = lastDropTime g.
Proof.
  unfold awardMatch. case_bool_decide; simpl; by destruct (_ && _).
Qed.

Lemma initGrid_lastDropTime (w : World) (width : Z) (d : Difficulty)
    (g : Game) :
  lastDropTime (initGrid w width d g) = perfNow w.
Proof.
  unfold initGrid. destruct (forR _ _ _ _) as [newBubbles k]. simpl.
  case_bool_decide; [|done]. by destruct_draws.
Qed.

(** claim C8, as the code has it: while a quiz is active the auto-drop
    step of a frame leaves the game as it is; resolving the pending match
    leaves the reference point of the spawn timer where the last row
    insertion put it, as long as a bubble of the board stays settled; only
    when the resolution leaves no settled bubble, and the board is
    reseeded, is the reference point set to the time of the resolution. *)
Theorem spawn_timer_and_pending_match :
  (∀ w g, isQuizActive g = true → onResults_autoDrop w g = g)
  ∧ (∀ w awarded g r,
       r ∈ bubbles g → (r < length (heap g))%nat →
       settled (heap (completeMatch w awarded g)) r →
       lastDropTime (completeMatch w awarded g) = lastDropTime g)
  ∧ (∀ w awarded g d,
       userProfile g = Some d → validRefs g →
       Forall (λ r, settled (heap (completeMatch w awarded g)) r = false)
         (bubbles g) →
       lastDropTime (completeMatch w awarded g) = perfNow w).
Proof.
  split; [|split].
  - intros w g Hq. unfold onResults_autoDrop. rewrite Hq.
    destruct (isPaused g || gameOver g); [done|].
    by destruct (userProfile g).
  - intros w awarded g r Hin Hr Hs. unfold settled in Hs.
    destruct (completeMatch_stage w awarded g) as (_ & _ & Hlook).
    rewrite Hlook in Hs by done. clear Hlook.
    unfold completeMatch.
    set (g1 := match awarded, userProfile g with
               | true, Some d => awardMatch w d g
               | _, _ => g
               end) in *.
    assert (bubbles g1 = bubbles g ∧ lastDropTime g1 = lastDropTime g)
      as [Hb Ht].
    { subst g1. destruct awarded, (userProfile g); try done.
      split; [apply awardMatch_bubbles|apply awardMatch_lastDropTime]. }
    destruct (userProfile (withQuiz false [] g1)); [|done].
    case_bool_decide as Hcount; [|done].
    exfalso. simpl in Hcount. rewrite Hb in Hcount.
    assert (r ∈ filter (λ b, settled (heap g1) b) (bubbles g)) as Hf
      by (by apply list_elem_of_filter).
    destruct (filter _ (bubbles g)); [by apply elem_of_nil in Hf|done].
  - intros w awarded g d Hd Hv Hall.
    destruct (completeMatch_stage w awarded g) as (_ & _ & Hlook).
    rewrite Forall_forall in Hall.
    assert (∀ r, r ∈ bubbles g →
              ¬ settled (heap (match awarded, userProfile g with
                               | true, Some d => awardMatch w d g
                               | _, _ => g
                               end)) r) as Hnone.
    { intros r Hr Hs. specialize (Hall r Hr). unfold settled in Hall, Hs.
      rewrite Hlook in Hall by (by apply validRefs_board).
      rewrite Hall in Hs. done. }
    clear Hlook Hall. unfold completeMatch.
    set (g1 := match awarded, userProfile g with
               | true, Some d => awardMatch w d g
               | _, _ => g
               end) in *.
    assert (bubbles g1 = bubbles g ∧ userProfile g1 = Some d) as [Hb Hp].
    { subst g1. rewrite Hd. destruct awarded; [|done].
      destruct (awardMatch_bubbles w d g) as [-> ->]. done. }
    simpl. rewrite Hp, Hb.
    rewrite bool_decide_eq_true_2; [apply initGrid_lastDropTime|].
    destruct (filter _ (bubbles g)) as [|x l] eqn:Hf; [done|].
    exfalso. assert (x ∈ filter (λ b, settled (heap g1) b) (bubbles g)) as Hx
      by (rewrite Hf; left).
    apply list_elem_of_filter in Hx as [Hs Hin]. by apply (Hnone x).
Qed.

Lemma spawn_timer_and_pending_match_witness :
  onResults_autoDrop (fullWorld 100001) exampleGame = exampleGame
  ∧ lastDropTime (completeMatch (fullWorld 100000) true exampleGame)
    = lastDropTime exampleGame
  ∧ lastDropTime
      (completeMatch (fullWorld 100000) true
         (withBoard exampleHeap [1; 2; 3]%nat exampleGame))
    = 100000.
Proof.
  split; [|split].
  - apply (proj1 spawn_timer_and_pending_match). reflexivity.
  - apply (proj1 (proj2 spawn_timer_and_pending_match) _ _ _ 0%nat).
    + apply (bool_decide_unpack _). vm_compute. exact I.
    + simpl. lia.
    + vm_compute. exact I.
  - apply (proj2 (proj2 spawn_timer_and_pending_match)
             (fullWorld 100000) true _ Easy).
    + reflexivity.
    + apply (bool_decide_unpack _). vm_compute. exact I.
    + apply (bool_decide_unpack _). vm_compute. exact I.
Defined.

(** The claim as stated fails: the quiz of [exampleGame] is answered
    100000 ms after the last row insertion, on the Easy interval of
    60000 ms.  The reference point of the timer is still 0 afterwards, not
    the time of the answer, and the next frame, one millisecond later,
    spawns a row: every bubble moves down a row. *)
Example spawn_timer_not_reset :
  let g := completeMatch (fullWorld 100000) true exampleGame in
  let g' := onResults_autoDrop (fullWorld 100001) g in
  lastDropTime exampleGame = 0
  ∧ lastDropTime g = 0
  ∧ lastDropTime g ≠ 100000
  ∧ row (heap g !!! 0%nat) = 0
  ∧ row (heap g' !!! 0%nat) = 1
  ∧ lastDropTime g' = 100001.
Proof.
  vm_compute. split; [|split; [|split; [|split; [|split]]]];
    reflexivity || discriminate.
Qed.

(** ** Cell uniqueness *)

(** claim C6 fails on the code.  On a 1920 by 1080 canvas a Hard round
    starts with ten full rows and ten full rows spawn; no bubble is past
    the danger line.  The twenty rows the snap scans are then all
    occupied, the scan keeps its initial cell (0, 0), and the landed ball
    becomes a second settled bubble of cell (0, 0). *)
Example snap_on_full_window_duplicates_cell :
  cellsUnique (heap fullStart) (bubbles fullStart)
  ∧ cellsUnique (heap fullBefore) (bubbles fullBefore)
  ∧ (gameOver fullBefore, isFlying fullBefore, isQuizActive fullBefore)
    = (false, true, false)
  ∧ ¬ cellsUnique (heap fullAfter) (bubbles fullAfter)
  ∧ (bubbles fullAfter !! 299%nat, bubbles fullAfter !! 315%nat)
    = (Some 299%nat, Some 315%nat)
  ∧ map (cellOf (heap fullAfter)) [299; 315]%nat = [(0, 0); (0, 0)]
  ∧ map (settled (heap fullAfter)) [299; 315]%nat = [true; true].
Proof.
  split; [|split; [|split; [|split; [|split; [|split]]]]].
  - apply (bool_decide_unpack _). vm_compute. exact I.
  - apply (bool_decide_unpack _). vm_compute. exact I.
  - vm_compute. reflexivity.
  - apply (bool_decide_eq_false_1 _). vm_compute. reflexivity.
  - vm_compute. reflexivity.
  - vm_compute. reflexivity.
  - vm_compute. reflexivity.
Qed.

(** The slip is the only way the snap breaks the invariant: whenever the
    scan updates its best cell at all, that cell is free, and the landing
    keeps the cells of the settled bubbles distinct. *)
Lemma foldl_preserves {A B} (P : B → Prop) (f : B → A → B) (l : list A)
    (b : B) :
  P b → (∀ b' x, x ∈ l → P b' → P (f b' x)) → P (foldl f b l).
Proof.
  revert b. induction l as [|x l IH]; intros b Hb Hstep; simpl; [done|].
  apply IH.
  - apply Hstep; [left|done].
  - intros b' y Hy. apply Hstep. by right.
Qed.

Lemma snapScan_free {num} (numLt : num → num → bool) (infinity : num)
    (distTo : Z → Z → num) (h : list Bubble) (board : list ref) (cols : Z) :
  let best := snapScan numLt infinity distTo h board cols in
  0 ≤ bestRow best
  ∧ (bestYRow best ≠ None →
     occupied h board (bestRow best) (bestCol best) = false).
Proof.
  intros best. subst best. unfold snapScan.
  apply (foldl_preserves
           (λ best, 0 ≤ bestRow best
                    ∧ (bestYRow best ≠ None →
                       occupied h board (bestRow best) (bestCol best)
                       = false))).
  - done.
  - intros best r Hr%elem_of_seqZ Hbest. apply foldl_preserves; [done|].
    intros best' c _ Hbest'.
    destruct (occupied h board r c) eqn:Hocc; [done|].
    destruct (numLt _ _); [|done]. simpl. split; [lia|done].
Qed.

Lemma checkMatches_board (s : ref) (g : Game) :
  heap (fst (checkMatches s g)) = heap g
  ∧ bubbles (fst (checkMatches s g)) = bubbles g.
Proof. unfold checkMatches. by case_bool_decide. Qed.

Lemma cellsUnique_push (h : list Bubble) (board : list ref) (newB : Bubble) :
  Forall (λ r, (r < length h)%nat) board →
  cellsUnique h board → settledB newB →
  existsb (λ b, settled h b && bool_decide (row (h !!! b) = row newB)
                && bool_decide (col (h !!! b) = col newB)) board = false →
  cellsUnique (h ++ [newB]) (board ++ [length h]).
Proof.
  intros Hvalid Hu Hnew Hfree. unfold cellsUnique in *.
  rewrite Forall_forall in Hvalid.
  assert (∀ r, r ∈ board → (h ++ [newB]) !!! r = h !!! r) as Hsame
    by (intros r Hr; by apply lookup_total_app_l, Hvalid).
  assert ((h ++ [newB]) !!! length h = newB) as Hlast.
  { apply list_lookup_total_correct.
    rewrite lookup_app_r by done. by rewrite Nat.sub_diag. }
  rewrite filter_app, map_app.
  rewrite (filter_ext_elem (λ b, settled (h ++ [newB]) b)
             (λ b, settled h b) board)
    by (intros r Hr; unfold settled; by rewrite Hsame).
  assert (map (cellOf (h ++ [newB])) (filter (λ b, settled h b) board)
          = map (cellOf h) (filter (λ b, settled h b) board)) as ->.
  { apply map_ext_in. intros r Hr%list_elem_of_In.
    apply list_elem_of_filter in Hr as [_ Hr].
    unfold cellOf. by rewrite Hsame. }
  assert (filter (λ b, settled (h ++ [newB]) b) [length h] = [length h])
    as ->.
  { rewrite filter_cons, filter_nil, decide_True; [done|].
    unfold settled. by rewrite Hlast. }
  assert (map (cellOf (h ++ [newB])) [length h] = [(row newB, col newB)])
    as -> by (simpl; unfold cellOf; by rewrite Hlast).
  apply NoDup_app. split; [done|]. split; [|apply NoDup_singleton].
  intros c Hc ->%list_elem_of_singleton.
  apply list_elem_of_fmap in Hc as (r & Hcell & Hr).
  apply list_elem_of_filter in Hr as [Hs Hin].
  assert (existsb (λ b, settled h b && bool_decide (row (h !!! b) = row newB)
                        && bool_decide (col (h !!! b) = col newB)) board
          = true) as Htrue; [|congruence].
  apply existsb_exists. exists r. split; [by apply list_elem_of_In|].
  unfold cellOf in Hcell. injection Hcell as Hrow Hcol.
  rewrite (Is_true_true_1 _ Hs), !bool_decide_eq_true_2 by done. done.
Qed.

(** The frame of a landing either leaves the board as it is or appends
    one new bubble at the best cell of the scan. *)
Lemma onResults_land_board {num} (numLt : num → num → bool)
    (infinity : num) (w : World) (distTo : Z → Z → num) (g : Game) :
  let best := snapScan numLt infinity distTo (heap g) (bubbles g)
                (gridCols g) in
  let g' := onResults_land numLt infinity w distTo g in
  (heap g' = heap g ∧ bubbles g' = bubbles g)
  ∨ (isPaused g || gameOver g = false
     ∧ isFlying g && negb (isQuizActive g) && negb (gameOver g) = true
     ∧ ∃ newB,
         heap g' = heap g ++ [newB]
         ∧ bubbles g' = bubbles g ++ [length (heap g)]
         ∧ row newB = bestRow best ∧ col newB = bestCol best
         ∧ settledB newB).
Proof.
  intros best g'. subst g'. unfold onResults_land.
  destruct (isPaused g || gameOver g); [by left|].
  destruct (isFlying g && negb (isQuizActive g) && negb (gameOver g));
    [|by left].
  right. split; [done|]. split; [done|].
  cbv zeta.
  change (heap (withIsFlying false g)) with (heap g).
  change (bubbles (withIsFlying false g)) with (bubbles g).
  change (gridCols (withIsFlying false g)) with (gridCols g).
  fold best.
  set (newB := mkBubble _ (bestRow best) (bestCol best) _ true false None).
  set (g1 := withBoard (heap g ++ [newB]) (bubbles g ++ [length (heap g)])
               (withIsFlying false g)).
  destruct (checkMatches_board (length (heap g)) g1) as [Hh Hb].
  set (g2 := fst (checkMatches (length (heap g)) g1)) in *.
  set (g3 := if match bestYRow best with
                | Some r => rowPastDangerLine (canvasHeight w) r
                | None => _
                end
             then withGameOver true g2 else g2).
  assert (heap g3 = heap g ++ [newB]
          ∧ bubbles g3 = bubbles g ++ [length (heap g)]) as [Hh3 Hb3].
  { subst g3. destruct (match bestYRow best with Some _ => _ | None => _ end);
      simpl; by rewrite Hh, Hb. }
  exists newB.
  change (heap (withAmmo ?c ?n g3)) with (heap g3).
  change (bubbles (withAmmo ?c ?n g3)) with (bubbles g3).
  by rewrite Hh3, Hb3.
Qed.

(** ** The board invariant along a run *)

Lemma cellsUnique_view (h : list Bubble) (board : list ref) :
  cellsUnique h board
  ↔ NoDup (map cellOfB (filter (λ b, settledB b) (boardView h board))).
Proof.
  unfold cellsUnique, boardView.
  assert (map (cellOf h) (filter (λ b, settled h b) board)
          = map cellOfB (filter (λ b, settledB b) (map (λ r, h !!! r) board)))
    as ->; [|done].
  induction board as [|r board IH]; [done|].
  simpl map at 3. rewrite !filter_cons. unfold settled at 1.
  destruct (decide (settledB (h !!! r))); simpl; by rewrite IH.
Qed.

(** Objects appended to the store are read back through their fresh
    references. *)
Lemma boardView_alloc (new h : list Bubble) :
  boardView (h ++ new) (seq (length h) (length new)) = new.
Proof.
  unfold boardView. revert h. induction new as [|b new IH]; intros h; [done|].
  simpl. f_equal.
  - apply list_lookup_total_correct.
    rewrite lookup_app_r by done. by rewrite Nat.sub_diag.
  - specialize (IH (h ++ [b])).
    rewrite <- app_assoc, length_app in IH. simpl in IH.
    by rewrite Nat.add_1_r in IH.
Qed.

Lemma boardView_app_l (h new : list Bubble) (board : list ref) :
  Forall (λ r, (r < length h)%nat) board →
  boardView (h ++ new) board = boardView h board.
Proof.
  unfold boardView. intros Hv. apply map_ext_in.
  intros r Hr%list_elem_of_In. rewrite Forall_forall in Hv.
  by apply lookup_total_app_l, Hv.
Qed.

(** A loop that appends, for each [x], bubbles whose cells are among
    [keys x], appends in all bubbles whose cells are among the cells of
    all [x], in order. *)
Lemma forR_append {A} (keys : A → list (Z * Z))
    (body : list Bubble → A → Rand (list Bubble)) (xs : list A) :
  (∀ acc x k, ∃ l, fst (body acc x k) = acc ++ l
                   ∧ sublist (map cellOfB l) (keys x)
                   ∧ Forall (λ b, settledB b) l) →
  ∀ acc k, ∃ l, fst (forR xs body acc k) = acc ++ l
                ∧ sublist (map cellOfB l) (concat (map keys xs))
                ∧ Forall (λ b, settledB b) l.
Proof.
  intros Hbody. induction xs as [|x xs IH]; intros acc k; simpl.
  - exists []. by rewrite app_nil_r.
  - unfold bindR. destruct (Hbody acc x k) as (l1 & H1 & Hs1 & Hf1).
    destruct (body acc x k) as [acc' k']. simpl in H1. subst acc'.
    destruct (IH (acc ++ l1) k') as (l2 & H2 & Hs2 & Hf2).
    exists (l1 ++ l2). rewrite H2, app_assoc. split; [done|]. split.
    + rewrite map_app. by apply sublist_app.
    + by apply Forall_app.
Qed.

Lemma initGridCell_append (w : World) (cfg : DifficultyConfig)
    (levelPalette : list BubbleColor) (r : Z) (acc : list Bubble) (c : Z)
    (k : nat) :
  ∃ l, fst (initGridCell w cfg levelPalette r acc c k) = acc ++ l
       ∧ sublist (map cellOfB l) [(r, c)]
       ∧ Forall (λ b, settledB b) l.
Proof.
  unfold initGridCell, bindR, mathRandom.
  destruct (randomLt _ _).
  - match goal with
    | |- context [randomElement ?a ?b ?c] => destruct (randomElement a b c)
    end.
    eexists [_]. split; [done|]. split; [done|]. by constructor.
  - exists []. split; [by rewrite app_nil_r|]. split; [|done].
    apply sublist_nil_l.
Qed.

Lemma addNewRowCell_append (w : World) (h : list Bubble) (board : list ref)
    (rowDensity : Q) (difficulty : Difficulty) (acc : list Bubble) (c : Z)
    (k : nat) :
  ∃ l, fst (addNewRowCell w h board rowDensity difficulty acc c k) = acc ++ l
       ∧ sublist (map cellOfB l) [(0, c)]
       ∧ Forall (λ b, settledB b) l.
Proof.
  unfold addNewRowCell, bindR, mathRandom.
  destruct (randomLt _ _).
  - destruct (getNextBubbleColor _ _ _ _ _ _).
    eexists [_]. split; [done|]. split; [done|]. by constructor.
  - exists []. split; [by rewrite app_nil_r|]. split; [|done].
    apply sublist_nil_l.
Qed.

(** The cells of a grid of rows are pairwise distinct. *)
Lemma NoDup_grid (colsOf : Z → list Z) (rows : list Z) :
  NoDup rows → (∀ r, NoDup (colsOf r)) →
  NoDup (concat (map (λ r, map (pair r) (colsOf r)) rows)).
Proof.
  intros Hrows Hcols. induction Hrows as [|r rows Hr Hrows IH]; simpl.
  - constructor.
  - apply NoDup_app. split; [|split; [|done]].
    + apply NoDup_fmap_2; [|done]. by intros c1 c2 [= ->].
    + intros [r' c'] Hin Hin'.
      apply list_elem_of_fmap in Hin as (c & [= -> ->] & _).
      apply list_elem_of_In, in_concat in Hin' as (l & Hl & Hin').
      apply in_map_iff in Hl as (r'' & <- & Hr'').
      apply in_map_iff in Hin' as (c'' & [= <- _] & _).
      by apply Hr, list_elem_of_In.
Qed.

Lemma filter_all {A} (P : A → Prop) `{∀ x, Decision (P x)} (l : list A) :
  Forall P l → filter P l = l.
Proof.
  induction 1 as [|x l Hx Hl IH]; [done|].
  by rewrite filter_cons, decide_True, IH.
Qed.

Lemma concat_singletons {A B} (f : A → B) (xs : list A) :
  concat (map (λ x, [f x]) xs) = map f xs.
Proof. induction xs as [|x xs IH]; [done|]. simpl. by rewrite IH. Qed.

(** The cells of the grid [initGrid] and [addNewRow] walk through. *)
Lemma grid_cells (cols : Z → Z) (rows : list Z) (cell : Z * Z) :
  NoDup rows →
  NoDup (concat (map (λ r, map (pair r) (upto (cols r))) rows))
  ∧ (cell ∈ concat (map (λ r, map (pair r) (upto (cols r))) rows) →
     cell.1 ∈ rows).
Proof.
  intros Hrows. split.
  - apply NoDup_grid; [done|]. intros r. apply NoDup_seqZ.
  - intros Hin. apply list_elem_of_In, in_concat in Hin as (l & Hl & Hin).
    apply in_map_iff in Hl as (r & <- & Hr).
    apply in_map_iff in Hin as (c & <- & _). by apply list_elem_of_In.
Qed.

(** A board of fresh settled bubbles whose cells are distinct cells of
    rows that are not negative satisfies the invariant. *)
Lemma boardInv_fresh (g : Game) (h new : list Bubble) (cells : list (Z * Z)) :
  heap g = h ++ new → bubbles g = seq (length h) (length new) →
  Forall (λ b, settledB b) new →
  sublist (map cellOfB new) cells → NoDup cells →
  Forall (λ cell, 0 ≤ cell.1) cells →
  boardInv g.
Proof.
  intros Hh Hb Hset Hsub Hnd Hrows. unfold boardInv. rewrite Hh, Hb.
  split; [|split; [|split]].
  - apply Forall_forall. intros r Hr%elem_of_seq. rewrite length_app. lia.
  - apply NoDup_seq.
  - rewrite boardView_alloc. apply Forall_forall. intros b Hb'.
    rewrite Forall_forall in Hrows.
    apply (Hrows (cellOfB b)). eapply elem_of_sublist; [|exact Hsub].
    apply list_elem_of_fmap. by exists b.
  - apply cellsUnique_view. rewrite boardView_alloc, filter_all by done.
    by apply (sublist_NoDup _ cells).
Qed.

Lemma initGrid_boardInv (w : World) (width : Z) (d : Difficulty) (g : Game) :
  boardInv (initGrid w width d g).
Proof.
  set (cols := Z.min MAX_GRID_COLS (Z.max 5 ((width - 40) `div` 42))).
  set (rows := upto (initialRows (DIFFICULTY_CONFIG d))).
  set (cells := concat (map (λ r, map (pair r) (upto (colsOfRow cols r)))
                          rows)).
  assert (∃ new,
            heap (initGrid w width d g) = heap g ++ new
            ∧ bubbles (initGrid w width d g)
              = seq (length (heap g)) (length new)
            ∧ Forall (λ b, settledB b) new
            ∧ sublist (map cellOfB new) cells) as (new & Hh & Hb & Hs & Hsub).
  { unfold initGrid. fold cols. fold rows.
    destruct (forR_append
                (λ r, map (pair r) (upto (colsOfRow cols r)))
                (λ acc r,
                   forR (upto (colsOfRow cols r))
                     (initGridCell w (DIFFICULTY_CONFIG d)
                        (take (numColorsOf d) (shuffled w)) r) acc)
                rows) with (acc := @nil Bubble) (k := 0%nat)
      as (new & Hnew & Hsub & Hs).
    { intros acc r k.
      destruct (forR_append (λ c, [(r, c)])
                  (initGridCell w (DIFFICULTY_CONFIG d)
                     (take (numColorsOf d) (shuffled w)) r)
                  (upto (colsOfRow cols r))) with (acc := acc) (k := k)
        as (l & Hl & Hsubl & Hsl).
      { intros acc' c k'. apply initGridCell_append. }
      exists l. split; [done|]. split; [|done].
      by rewrite concat_singletons in Hsubl. }
    destruct (forR _ _ _ _) as [newBubbles k]. simpl in Hnew. subst.
    exists new. simpl. case_bool_decide; [|done]. by destruct_draws. }
  destruct (grid_cells (colsOfRow cols) rows (0, 0)) as [Hnd _];
    [apply NoDup_seqZ|].
  apply (boardInv_fresh _ (heap g) new cells); try done.
  apply Forall_forall. intros cell Hin.
  destruct (grid_cells (colsOfRow cols) rows cell) as [_ Hrow];
    [apply NoDup_seqZ|].
  apply Hrow, elem_of_seqZ in Hin. lia.
Qed.

(** A loop over distinct valid references assigns each object once. *)
Lemma forEach_lookup_NoDup (f : Bubble → Bubble) (refs : list ref)
    (h : list Bubble) (r : ref) :
  NoDup refs → (r < length h)%nat →
  forEach f refs h !!! r = if decide (r ∈ refs) then f (h !!! r) else h !!! r.
Proof.
  unfold forEach. intros Hnd. revert h.
  induction Hnd as [|x refs Hx Hnd IH]; intros h Hr; simpl; [done|].
  rewrite IH by (by rewrite length_alter).
  rewrite list_lookup_total_alter.
  destruct (decide (x = r)) as [-> |Hne].
  - rewrite (decide_False (P := r ∈ refs)) by done.
    rewrite (decide_True (P := r ∈ r :: refs)) by left.
    by rewrite decide_True.
  - rewrite (decide_False (P := x = r ∧ _)) by tauto.
    destruct (decide (r ∈ refs)) as [Hin|Hin].
    + rewrite (decide_True (P := r ∈ x :: refs)); [done|by right].
    + rewrite (decide_False (P := r ∈ x :: refs)); [done|].
      intros [?|?]%elem_of_cons; [congruence|done].
Qed.

Lemma forEach_view (f : Bubble → Bubble) (refs : list ref) (h : list Bubble) :
  NoDup refs → Forall (λ r, (r < length h)%nat) refs →
  boardView (forEach f refs h) refs = map f (boardView h refs).
Proof.
  intros Hnd Hv. unfold boardView. rewrite map_map. apply map_ext_in.
  intros r Hr%list_elem_of_In. rewrite Forall_forall in Hv.
  rewrite forEach_lookup_NoDup by (done || by apply Hv).
  by rewrite decide_True.
Qed.

(** Moving every bubble down a row keeps the settled cells distinct. *)
Lemma shift_cells (view : list Bubble) :
  map cellOfB (filter (λ b, settledB b)
                 (map (λ b, setRow (row b + 1) b) view))
  = map (λ cell : Z * Z, (cell.1 + 1, cell.2))
      (map cellOfB (filter (λ b, settledB b) view)).
Proof.
  induction view as [|b view IH]; [done|].
  simpl map at 2. rewrite !filter_cons.
  change (settledB (setRow (row b + 1) b)) with (settledB b).
  destruct (decide (settledB b)); simpl; by rewrite IH.
Qed.

Lemma addNewRow_boardInv (w : World) (g : Game) :
  boardInv g → boardInv (addNewRow w g).
Proof.
  intros (Hvalid & Hnd & Hrows & Hu).
  set (shift := λ b, setRow (row b + 1) b).
  set (h1 := forEach shift (bubbles g) (heap g)).
  assert (length h1 = length (heap g)) as Hlen by apply length_forEach.
  assert (boardView h1 (bubbles g) = map shift (boardView (heap g) (bubbles g)))
    as Hview by (by apply forEach_view).
  assert (Forall (λ r, (r < length h1)%nat) (bubbles g)) as Hvalid1
    by (by rewrite Hlen).
  assert (Forall (λ b, 1 ≤ row b) (boardView h1 (bubbles g))) as Hrows1.
  { rewrite Hview. apply Forall_fmap. eapply Forall_impl; [exact Hrows|].
    intros b Hb. unfold shift. simpl in *. lia. }
  assert (NoDup (map cellOfB (filter (λ b, settledB b)
                                (boardView h1 (bubbles g))))) as Hu1.
  { rewrite Hview. unfold shift. rewrite shift_cells.
    apply NoDup_fmap_2; [|by apply cellsUnique_view].
    intros [r1 c1] [r2 c2] [= ? ?]. f_equal; lia. }
  unfold addNewRow. fold shift. fold h1.
  change (bubbles (withBoard h1 (bubbles g) g)) with (bubbles g).
  destruct (existsb _ (bubbles g)).
  { unfold boardInv. simpl.
    split; [done|]. split; [done|]. split.
    - eapply Forall_impl; [exact Hrows1|]. intros b Hb. simpl in Hb. lia.
    - by apply cellsUnique_view. }
  change (gridCols (withBoard h1 (bubbles g) g)) with (gridCols g).
  change (userProfile (withBoard h1 (bubbles g) g)) with (userProfile g).
  match goal with
  | |- context [forR ?xs ?body ?acc ?k] =>
      assert (∀ acc' c k',
                ∃ l, fst (body acc' c k') = acc' ++ l
                     ∧ sublist (map cellOfB l) [(0, c)]
                     ∧ Forall (λ b, settledB b) l) as Hbody
        by (intros; apply addNewRowCell_append);
      destruct (forR_append (λ c, [(0, c)]) body xs Hbody acc k)
        as (new & Hnew & Hsub & Hset);
      destruct (forR xs body acc k) as [newRowBubbles k0]
  end.
  simpl in Hnew. subst newRowBubbles. rewrite concat_singletons in Hsub.
  unfold alloc. unfold boardInv. simpl.
  assert (boardView (h1 ++ new) (bubbles g ++ seq (length h1) (length new))
          = boardView h1 (bubbles g) ++ new) as Hview'.
  { unfold boardView at 1. rewrite map_app. f_equal.
    - by apply boardView_app_l.
    - apply boardView_alloc. }
  assert (Forall (λ b, row b = 0) new) as Hrow0.
  { apply Forall_forall. intros b Hb.
    assert (cellOfB b ∈ map (pair 0) (upto (gridCols g))) as Hc.
    { eapply elem_of_sublist; [|exact Hsub].
      apply list_elem_of_fmap. by exists b. }
    apply list_elem_of_fmap in Hc as (c & Hc & _). by injection Hc. }
  split; [|split; [|split]].
  - apply Forall_app. split.
    + eapply Forall_impl; [exact Hvalid1|]. intros r Hr. simpl in Hr.
      rewrite length_app. lia.
    + apply Forall_forall. intros r Hr%elem_of_seq. rewrite length_app. lia.
  - apply NoDup_app. split; [done|]. split; [|apply NoDup_seq].
    intros r Hr Hr'%elem_of_seq. rewrite Forall_forall in Hvalid1.
    specialize (Hvalid1 r Hr). simpl in Hvalid1. lia.
  - rewrite Hview'. apply Forall_app. split.
    + eapply Forall_impl; [exact Hrows1|]. intros b Hb. simpl in Hb. lia.
    + eapply Forall_impl; [exact Hrow0|]. intros b Hb. simpl in Hb. lia.
  - apply cellsUnique_view. rewrite Hview', filter_app, map_app.
    rewrite (filter_all _ new) by done.
    apply NoDup_app. split; [done|]. split.
    + intros cell Hc Hc'.
      apply list_elem_of_fmap in Hc as (b & -> & Hb).
      apply list_elem_of_filter in Hb as [_ Hb].
      apply list_elem_of_fmap in Hc' as (b' & Hcell & Hb').
      rewrite Forall_forall in Hrows1, Hrow0.
      specialize (Hrows1 b Hb). specialize (Hrow0 b' Hb').
      simpl in Hrows1, Hrow0. unfold cellOfB in Hcell.
      injection Hcell as Hr _. lia.
    + apply (sublist_NoDup _ (map (pair 0) (upto (gridCols g)))); [|done].
      apply NoDup_fmap_2; [|apply NoDup_seqZ]. by intros c1 c2 [= ->].
Qed.

Lemma boardInv_ext (g g' : Game) :
  heap g' = heap g → bubbles g' = bubbles g → boardInv g → boardInv g'.
Proof. unfold boardInv. by intros -> ->. Qed.

(** An assignment that cannot make a bubble settled cannot make a loop
    over it do so. *)
Lemma forEach_settled (f : Bubble → Bubble) (refs : list ref)
    (h : list Bubble) (r : ref) :
  (∀ b, settledB (f b) → settledB b) →
  settledB (forEach f refs h !!! r) → settledB (h !!! r).
Proof.
  intros Hf. unfold forEach. revert h.
  induction refs as [|x refs IH]; intros h; simpl; [done|].
  intros Hs. apply IH in Hs. rewrite list_lookup_total_alter in Hs.
  case_decide as Hx; [|done]. destruct Hx as [-> _]. by apply Hf.
Qed.

(** Settled bubbles that only become fewer, at unchanged cells, keep the
    invariant. *)
Lemma boardInv_fewer (g g' : Game) :
  bubbles g' = bubbles g → length (heap g') = length (heap g) →
  (∀ r, cellOfB (heap g' !!! r) = cellOfB (heap g !!! r)) →
  (∀ r, settledB (heap g' !!! r) → settledB (heap g !!! r)) →
  boardInv g → boardInv g'.
Proof.
  intros Hb Hlen Hcell Hset (Hvalid & Hnd & Hrows & Hu).
  unfold boardInv. rewrite Hb, Hlen. split; [done|]. split; [done|]. split.
  - unfold boardView in *. rewrite Forall_fmap in *.
    eapply Forall_impl; [exact Hrows|]. intros r Hr. simpl in *.
    specialize (Hcell r). unfold cellOfB in Hcell.
    injection Hcell as -> _. done.
  - unfold cellsUnique in *.
    apply (sublist_NoDup _ _ Hu). clear -Hcell Hset.
    induction (bubbles g) as [|r l IH]; [done|].
    rewrite !filter_cons.
    assert (cellOf (heap g') r = cellOf (heap g) r) as Hc by apply Hcell.
    destruct (decide (settled (heap g') r)) as [Hs|Hs],
      (decide (settled (heap g) r)) as [Hs'|Hs']; simpl.
    + rewrite Hc. by apply sublist_skip.
    + exfalso. by apply Hs', Hset.
    + by apply sublist_cons.
    + done.
Qed.

Lemma awardMatch_boardInv (w : World) (d : Difficulty) (g : Game) :
  boardInv g → boardInv (awardMatch w d g).
Proof.
  apply boardInv_fewer.
  - apply awardMatch_bubbles.
  - rewrite awardMatch_heap, length_forEach. apply length_forEach.
  - intros r. rewrite awardMatch_heap. unfold afterPop.
    by rewrite !(forEach_proj cellOfB).
  - intros r. rewrite awardMatch_heap. unfold afterPop. intros Hs.
    apply forEach_settled in Hs.
    + apply forEach_settled in Hs; [done|].
      intros b. unfold settledB. simpl. done.
    + intros b. unfold settledB. simpl. rewrite andb_false_r. done.
Qed.

Lemma completeMatch_boardInv (w : World) (awarded : bool) (g : Game) :
  boardInv g → boardInv (completeMatch w awarded g).
Proof.
  intros Hinv. unfold completeMatch.
  set (g1 := match awarded, userProfile g with
             | true, Some d => awardMatch w d g
             | _, _ => g
             end).
  assert (boardInv g1) as Hinv1.
  { subst g1. destruct awarded, (userProfile g); try done.
    by apply awardMatch_boardInv. }
  destruct (userProfile (withQuiz false [] g1)).
  - case_bool_decide; [apply initGrid_boardInv|].
    by apply (boardInv_ext g1).
  - by apply (boardInv_ext g1).
Qed.

Lemma onResults_autoDrop_boardInv (w : World) (g : Game) :
  boardInv g → boardInv (onResults_autoDrop w g).
Proof.
  intros Hinv. unfold onResults_autoDrop.
  destruct (isPaused g || gameOver g); [done|].
  destruct (userProfile g); [|done].
  destruct (_ && _); [|done].
  case_bool_decide; [|done]. by apply addNewRow_boardInv.
Qed.

Lemma launch_boardInv (g : Game) : boardInv g → boardInv (launch g).
Proof.
  intros Hinv. unfold launch. destruct (_ || _); [done|].
  by apply (boardInv_ext g).
Qed.

Lemma onResults_land_boardInv {num} (numLt : num → num → bool)
    (infinity : num) (w : World) (distTo : Z → Z → num) (g : Game) :
  boardInv g →
  (isPaused g || gameOver g = false →
   isFlying g && negb (isQuizActive g) && negb (gameOver g) = true →
   bestYRow (snapScan numLt infinity distTo (heap g) (bubbles g)
               (gridCols g)) ≠ None) →
  boardInv (onResults_land numLt infinity w distTo g).
Proof.
  intros Hinv Hfound.
  destruct (onResults_land_board numLt infinity w distTo g)
    as [[Hh Hb]|(Hp & Hguard & newB & Hh & Hb & Hrow & Hcol & Hset)].
  { by apply (boardInv_ext g). }
  specialize (Hfound Hp Hguard).
  destruct (snapScan_free numLt infinity distTo (heap g) (bubbles g)
              (gridCols g)) as [Hrow0 Hfree].
  specialize (Hfree Hfound).
  destruct Hinv as (Hvalid & Hnd & Hrows & Hu).
  unfold boardInv. rewrite Hh, Hb. split; [|split; [|split]].
  - apply Forall_app. split.
    + eapply Forall_impl; [exact Hvalid|]. intros r Hr. simpl in Hr.
      rewrite length_app. lia.
    + apply Forall_singleton. rewrite length_app. simpl. lia.
  - apply NoDup_app. split; [done|]. split; [|apply NoDup_singleton].
    intros r Hr ->%list_elem_of_singleton. rewrite Forall_forall in Hvalid.
    specialize (Hvalid _ Hr). simpl in Hvalid. lia.
  - unfold boardView. rewrite map_app. apply Forall_app. split.
    + fold (boardView (heap g ++ [newB]) (bubbles g)).
      by rewrite boardView_app_l.
    + apply Forall_singleton.
      rewrite (list_lookup_total_correct _ _ newB).
      * by rewrite Hrow.
      * rewrite lookup_app_r by done. by rewrite Nat.sub_diag.
  - apply cellsUnique_push; try done.
    unfold occupied in Hfree. by rewrite Hrow, Hcol.
Qed.

(** The purge takes bubbles off the board and changes none. *)
Lemma onResults_purge_boardInv (w : World) (belowFloor : ref → bool)
    (g : Game) :
  boardInv g → boardInv (onResults_purge w belowFloor g).
Proof.
  intros (Hvalid & Hnd & Hrows & Hu). unfold onResults_purge.
  destruct (isPaused g || gameOver g); [done|].
  set (kept := filter _ (bubbles g)).
  assert (kept `sublist_of` bubbles g) as Hsub by apply sublist_filter.
  unfold boardInv. simpl. split; [|split; [|split]].
  - apply Forall_forall. intros r Hr. rewrite Forall_forall in Hvalid.
    apply Hvalid. by eapply elem_of_sublist.
  - by eapply sublist_NoDup.
  - unfold boardView in *. rewrite Forall_fmap in *.
    apply Forall_forall. intros r Hr. rewrite Forall_forall in Hrows.
    apply Hrows. by eapply elem_of_sublist.
  - unfold cellsUnique in *. eapply sublist_NoDup; [exact Hu|].
    apply fmap_sublist. clear -Hsub.
    induction Hsub as [|x l1 l2 Hsub IH|x l1 l2 Hsub IH];
      rewrite ?filter_cons; [done| |].
    + destruct (decide (settled (heap g) x)); [by apply sublist_skip|done].
    + destruct (decide (settled (heap g) x)); [by apply sublist_cons|done].
Qed.

(** What holds of claim C6 on the code: a round starts with distinct
    cells, and rows that spawn, launches, confirmations and the landings
    that find a free cell in the scanned window keep them distinct.  The
    landing on a full window is the one step that does not. *)
Lemma run_boardInv (ops : list Op) :
  ∀ g, boardInv g → landsFree g ops → boardInv (run g ops).
Proof.
  unfold run. induction ops as [|o ops IH]; intros g Hinv Hfree; [done|].
  simpl in Hfree. destruct Hfree as [Ho Hrest]. simpl.
  apply IH; [|done].
  destruct o as [w| |w distTo|w awarded|w belowFloor|paused| ]; simpl.
  - by apply onResults_autoDrop_boardInv.
  - by apply launch_boardInv.
  - by apply onResults_land_boardInv.
  - by apply completeMatch_boardInv.
  - by apply onResults_purge_boardInv.
  - done.
  - done.
Qed.

Lemma startRound_cells_unique (w : World) (d : Difficulty) (ops : list Op) :
  landsFree (startRound w d) ops →
  cellsUnique (heap (run (startRound w d) ops))
    (bubbles (run (startRound w d) ops)).
Proof.
  intros Hfree. apply run_boardInv; [|done]. apply initGrid_boardInv.
Qed.


(** * Further properties of the component *)

(** ** The layout behind the adjacency rule *)

Lemma odd_flag (z : Z) :
  (if bool_decide (Z.rem z 2 ≠ 0) then 1 else 0) = Z.b2z (Z.odd z).
Proof.
  pose proof (rem2_odd z) as Hodd.
  case_bool_decide as Hz; destruct (Z.odd z); try done.
  - by apply Hodd in Hz.
  - exfalso. by apply (proj2 Hodd).
Qed.

(** The squared distance between two cell centres, in integers: the
    columns are 40 apart, odd rows are shifted by 20, and rows are
    [20 * sqrt 3] apart. *)
Lemma distSq_cells (cols width : Z) (a b : Bubble) :
  let dx := 40 * (col b - col a)
            + 20 * (Z.b2z (Z.odd (row b)) - Z.b2z (Z.odd (row a))) in
  let dr := row b - row a in
  (ratPart (distSq (posOf cols width a) (posOf cols width b))
   == inject_Z (dx * dx + 1200 * dr * dr))%Q
  ∧ (sqrt3Part (distSq (posOf cols width a) (posOf cols width b)) == 0)%Q.
Proof.
  intros dx dr. subst dx dr. unfold distSq, posOf, getBubblePos. simpl.
  rewrite <- !odd_flag. unfold BUBBLE_RADIUS.
  split.
  - repeat case_bool_decide; unfold Qeq; simpl;
      rewrite ?Pos2Z.inj_mul; ring.
  - unfold Qeq; simpl; rewrite ?Pos2Z.inj_mul; ring.
Qed.

Lemma cell_distance_cases (a b : Bubble) :
  let dx := 40 * (col b - col a)
            + 20 * (Z.b2z (Z.odd (row b)) - Z.b2z (Z.odd (row a))) in
  let dr := row b - row a in
  (isNeighbor a b = true ↔ dx * dx + 1200 * dr * dr = 1600)
  ∧ ((row a, col a) ≠ (row b, col b) → 1600 ≤ dx * dx + 1200 * dr * dr).
Proof.
  intros dx dr. subst dx dr. rewrite isNeighbor_iff.
  assert ((row a, col a) ≠ (row b, col b) →
          row b - row a ≠ 0 ∨ col b - col a ≠ 0) as Hcell.
  { intros Hne. destruct (decide (row b - row a = 0)); [|by left].
    right. intros Hc. apply Hne. f_equal; lia. }
  assert (row b - row a = 0 → Z.odd (row b) = Z.odd (row a)) as Hsame
    by (intros Hd; f_equal; lia).
  pose proof (odd_neighbor_row (row a) (row b)) as Hflip.
  set (dr := row b - row a) in *. set (dc := col b - col a) in *.
  clearbody dr dc.
  destruct (decide (dr = 0)) as [-> |H0].
  { rewrite Hsame by done.
    replace (40 * dc + 20 * (Z.b2z (Z.odd (row a)) - Z.b2z (Z.odd (row a))))
      with (40 * dc) by lia.
    split.
    - split.
      + intros [[_ ?]|[[? _]|[? _]]]; [|lia|lia].
        assert (dc = 1 ∨ dc = -1) as [-> | ->] by lia; lia.
      + intros Hd. left. split; [done|].
        assert (dc * dc = 1) by lia. nia.
    - intros Hne. destruct (Hcell Hne) as [?|Hdc]; [done|].
      assert (dc ≤ -1 ∨ 1 ≤ dc) as [?|?] by lia; nia. }
  destruct (decide (Z.abs dr = 1)) as [H1|H1].
  { rewrite (Hflip H1). clear Hflip Hsame Hcell.
    assert (dr * dr = 1) as Hsq by nia.
    replace (1200 * dr * dr) with 1200 by lia.
    destruct (Z.odd (row a)); simpl.
    - replace (40 * dc + 20 * (0 - 1)) with (20 * (2 * dc - 1)) by lia.
      split.
      + split.
        * intros [[? _]|[(_ & _ & Hc)|(_ & ? & _)]]; [lia| |done].
          destruct Hc as [-> | ->]; lia.
        * intros Hd. right; left. split; [done|]. split; [done|].
          assert ((2 * dc - 1) * (2 * dc - 1) = 1) by lia. nia.
      + intros _.
        assert (1 ≤ (2 * dc - 1) * (2 * dc - 1)) by nia. nia.
    - replace (40 * dc + 20 * (1 - 0)) with (20 * (2 * dc + 1)) by lia.
      split.
      + split.
        * intros [[? _]|[(_ & ? & _)|(_ & _ & Hc)]]; [lia|done|].
          destruct Hc as [-> | ->]; lia.
        * intros Hd. right; right. split; [done|]. split; [done|].
          assert ((2 * dc + 1) * (2 * dc + 1) = 1) by lia. nia.
      + intros _.
        assert (1 ≤ (2 * dc + 1) * (2 * dc + 1)) by nia. nia. }
  assert (4 ≤ dr * dr) as Hbig by nia.
  set (dx := 40 * dc + 20 * (Z.b2z (Z.odd (row b)) - Z.b2z (Z.odd (row a)))).
  pose proof (Z.square_nonneg dx) as Hdx.
  split.
  - split.
    + intros [[? _]|[[? _]|[? _]]]; lia.
    + intros Hd. lia.
  - intros _. lia.
Qed.

(** Two cells are neighbours for [isNeighbor] exactly when their centres
    are one bubble diameter apart, that is when the bubbles touch, whatever
    the width of the canvas and the number of columns. *)
Theorem isNeighbor_iff_touching (cols width : Z) (a b : Bubble) :
  isNeighbor a b = true
  ↔ (ratPart (distSq (posOf cols width a) (posOf cols width b))
     == inject_Z ((2 * BUBBLE_RADIUS) * (2 * BUBBLE_RADIUS)))%Q
    ∧ (sqrt3Part (distSq (posOf cols width a) (posOf cols width b)) == 0)%Q.
Proof.
  destruct (distSq_cells cols width a b) as [Hrat Hirr].
  destruct (cell_distance_cases a b) as [Hn _].
  rewrite Hrat, Hn. split.
  - intros ->. split; [reflexivity|exact Hirr].
  - intros [Heq _]. unfold Qeq, BUBBLE_RADIUS in Heq. simpl in Heq. lia.
Qed.

(** The centres of two different cells are never closer than a bubble
    diameter: settled bubbles in different cells do not overlap.  The
    square of their distance is a rational number, at least the square of
    the diameter. *)
Theorem cells_do_not_overlap (cols width : Z) (a b : Bubble) :
  (row a, col a) ≠ (row b, col b) →
  (inject_Z ((2 * BUBBLE_RADIUS) * (2 * BUBBLE_RADIUS))
   <= ratPart (distSq (posOf cols width a) (posOf cols width b)))%Q
  ∧ (sqrt3Part (distSq (posOf cols width a) (posOf cols width b)) == 0)%Q.
Proof.
  intros Hne. destruct (distSq_cells cols width a b) as [Hrat Hirr].
  split; [|exact Hirr]. rewrite Hrat.
  destruct (cell_distance_cases a b) as [_ Hd].
  rewrite <- Zle_Qle. by apply Hd.
Qed.

Lemma cells_do_not_overlap_witness :
  (inject_Z ((2 * BUBBLE_RADIUS) * (2 * BUBBLE_RADIUS))
   <= ratPart (distSq (posOf 16 1280 (cell 3 4)) (posOf 16 1280 (cell 4 4))))%Q
  ∧ (sqrt3Part (distSq (posOf 16 1280 (cell 3 4)) (posOf 16 1280 (cell 4 4)))
     == 0)%Q.
Proof. apply cells_do_not_overlap. discriminate. Defined.

(** ** The snap picks the nearest free cell *)

Lemma foldl_nested {A B C} (f : C → A * B → C) (g : A → list B)
    (xs : list A) (c0 : C) :
  foldl (λ c x, foldl (λ c y, f c (x, y)) c (g x)) c0 xs
  = foldl f c0 (concat (map (λ x, map (pair x) (g x)) xs)).
Proof.
  revert c0. induction xs as [|x xs IH]; intros c0; simpl; [done|].
  rewrite foldl_app, IH. f_equal.
  generalize (g x). intros l. revert c0.
  induction l as [|y l IHl]; intros c0; simpl; [done|]. by rewrite IHl.
Qed.

Lemma snapScan_flat {num} (numLt : num → num → bool) (infinity : num)
    (distTo : Z → Z → num) (h : list Bubble) (board : list ref) (cols : Z) :
  snapScan numLt infinity distTo h board cols
  = foldl (scanStep numLt distTo h board) (mkBest infinity 0 0 None)
      (windowCells cols).
Proof.
  unfold snapScan, windowCells.
  by rewrite <- (foldl_nested (scanStep numLt distTo h board)).
Qed.

Section NearestFree.
Context {num : Type} (numLt : num → num → bool) (infinity : num).
Context (distTo : Z → Z → num) (h : list Bubble) (board : list ref).
Hypothesis numLt_irrefl : ∀ a, numLt a a = false.
Hypothesis numLt_trans :
  ∀ a b c, numLt a b = true → numLt b c = true → numLt a c = true.

Lemma not_nearer_trans (a b c : num) :
  numLt a b = false → numLt c b = true → numLt a c = false.
Proof.
  intros Hab Hcb. destruct (numLt a c) eqn:Hac; [|done].
  by rewrite (numLt_trans a c b Hac Hcb) in Hab.
Qed.

Lemma scanInv_step (seen : list (Z * Z)) (best : Best) (cell : Z * Z) :
  scanInv numLt infinity distTo h board seen best →
  scanInv numLt infinity distTo h board (seen ++ [cell])
    (scanStep numLt distTo h board best cell).
Proof.
  intros Hinv. unfold scanStep.
  destruct (occupied h board cell.1 cell.2) eqn:Hocc.
  { destruct Hinv
      as [(Hy & Hd & Hall)|(Hy & Hd & Hin & Hfree & Hmin)].
    - left. split; [done|]. split; [done|].
      intros c [Hc| ->%list_elem_of_singleton]%elem_of_app Hf;
        [by apply Hall|congruence].
    - right. split; [done|]. split; [done|].
      split; [apply elem_of_app; by left|]. split; [done|].
      intros c [Hc| ->%list_elem_of_singleton]%elem_of_app Hf;
        [by apply Hmin|congruence]. }
  assert (∀ c, c ∈ seen → occupied h board c.1 c.2 = false →
            numLt (distTo c.1 c.2) (bestDist best) = false) as Hold.
  { destruct Hinv as [(_ & Hd & Hall)|(_ & _ & _ & _ & Hmin)]; [|done].
    rewrite Hd. done. }
  destruct (numLt (distTo cell.1 cell.2) (bestDist best)) eqn:Hlt.
  - right. simpl. split; [done|]. split; [done|]. split.
    { apply elem_of_app. right. destruct cell.
      by apply list_elem_of_singleton. }
    split; [done|].
    intros c [Hc| ->%list_elem_of_singleton]%elem_of_app Hf.
    + by apply (not_nearer_trans _ (bestDist best)); [apply Hold|].
    + apply numLt_irrefl.
  - destruct Hinv
      as [(Hy & Hd & Hall)|(Hy & Hd & Hin & Hfree & Hmin)].
    + left. split; [done|]. split; [done|].
      intros c [Hc| ->%list_elem_of_singleton]%elem_of_app Hf;
        [by apply Hall|by rewrite <- Hd].
    + right. split; [done|]. split; [done|].
      split; [apply elem_of_app; by left|]. split; [done|].
      intros c [Hc| ->%list_elem_of_singleton]%elem_of_app Hf;
        [by apply Hmin|done].
Qed.

Lemma scanInv_foldl (l : list (Z * Z)) :
  ∀ seen best,
    scanInv numLt infinity distTo h board seen best →
    scanInv numLt infinity distTo h board (seen ++ l)
      (foldl (scanStep numLt distTo h board) best l).
Proof.
  induction l as [|cell l IH]; intros seen best Hinv; simpl.
  - by rewrite app_nil_r.
  - replace (seen ++ cell :: l) with ((seen ++ [cell]) ++ l)
      by (by rewrite <- app_assoc).
    apply IH. by apply scanInv_step.
Qed.
End NearestFree.

Lemma elem_of_windowCells (cols r c : Z) :
  (r, c) ∈ windowCells cols
  ↔ 0 ≤ r < GRID_ROWS + 10 ∧ 0 ≤ c < colsOfRow cols r.
Proof.
  unfold windowCells. rewrite list_elem_of_In, in_concat. split.
  - intros (l & Hl & Hin). apply in_map_iff in Hl as (r' & <- & Hr').
    apply in_map_iff in Hin as (c' & [= <- <-] & Hc').
    apply list_elem_of_In, elem_of_seqZ in Hr'.
    apply list_elem_of_In, elem_of_seqZ in Hc'. lia.
  - intros [Hr Hc]. exists (map (pair r) (upto (colsOfRow cols r))). split.
    + apply in_map_iff. exists r. split; [done|].
      apply list_elem_of_In, elem_of_seqZ. lia.
    + apply in_map_iff. exists c. split; [done|].
      apply list_elem_of_In, elem_of_seqZ. lia.
Qed.

(** For distances of any type whose [<] is irreflexive and transitive, as
    it is on doubles: when the snap finds a cell, it is a free cell of the
    scanned window (rows 0 to 19, the columns of the row), [bestDist] is its
    distance and no free cell of the window is nearer to the ball; it finds
    none only when no free cell of the window is nearer than [Infinity], in
    particular when none is free. *)
Theorem snapScan_nearest_free {num} (numLt : num → num → bool)
    (infinity : num) (distTo : Z → Z → num) (h : list Bubble)
    (board : list ref) (cols : Z) :
  (∀ a, numLt a a = false) →
  (∀ a b c, numLt a b = true → numLt b c = true → numLt a c = true) →
  let best := snapScan numLt infinity distTo h board cols in
  (bestYRow best = None →
   bestDist best = infinity
   ∧ ∀ r c, 0 ≤ r < GRID_ROWS + 10 → 0 ≤ c < colsOfRow cols r →
       occupied h board r c = false → numLt (distTo r c) infinity = false)
  ∧ (bestYRow best ≠ None →
     0 ≤ bestRow best < GRID_ROWS + 10
     ∧ 0 ≤ bestCol best < colsOfRow cols (bestRow best)
     ∧ occupied h board (bestRow best) (bestCol best) = false
     ∧ bestDist best = distTo (bestRow best) (bestCol best)
     ∧ ∀ r c, 0 ≤ r < GRID_ROWS + 10 → 0 ≤ c < colsOfRow cols r →
         occupied h board r c = false →
         numLt (distTo r c) (bestDist best) = false).
Proof.
  intros Hirr Htrans best. subst best. rewrite snapScan_flat.
  assert (scanInv numLt infinity distTo h board []
            (mkBest infinity 0 0 None)) as Hinit.
  { left. split; [done|]. split; [done|].
    intros c Hc. by apply elem_of_nil in Hc. }
  apply (scanInv_foldl numLt infinity distTo h board Hirr Htrans
           (windowCells cols)) in Hinit.
  simpl in Hinit.
  destruct Hinit
    as [(Hy & Hd & Hall)|(Hy & Hd & Hin & Hfree & Hmin)].
  - split; [|by rewrite Hy].
    intros _. split; [done|]. intros r c Hr Hc Hf.
    apply (Hall (r, c)); [|done]. by apply elem_of_windowCells.
  - split; [by rewrite Hy|]. intros _.
    apply elem_of_windowCells in Hin as [Hr Hc].
    split; [done|]. split; [done|]. split; [done|]. split; [done|].
    intros r c Hr' Hc' Hf.
    apply (Hmin (r, c)); [|done]. by apply elem_of_windowCells.
Qed.

Lemma snapScan_nearest_free_witness :
  let best :=
    snapScan extLt None (λ r c, Some (r * r + c * c)) exampleHeap
      [0; 1; 2; 3; 4]%nat 16 in
  (bestYRow best = None →
   bestDist best = None
   ∧ ∀ r c, 0 ≤ r < GRID_ROWS + 10 → 0 ≤ c < colsOfRow 16 r →
       occupied exampleHeap [0; 1; 2; 3; 4]%nat r c = false →
       extLt (Some (r * r + c * c)) None = false)
  ∧ (bestYRow best ≠ None →
     0 ≤ bestRow best < GRID_ROWS + 10
     ∧ 0 ≤ bestCol best < colsOfRow 16 (bestRow best)
     ∧ occupied exampleHeap [0; 1; 2; 3; 4]%nat (bestRow best) (bestCol best)
       = false
     ∧ bestDist best
       = Some (bestRow best * bestRow best + bestCol best * bestCol best)
     ∧ ∀ r c, 0 ≤ r < GRID_ROWS + 10 → 0 ≤ c < colsOfRow 16 r →
         occupied exampleHeap [0; 1; 2; 3; 4]%nat r c = false →
         extLt (Some (r * r + c * c)) (bestDist best) = false).
Proof.
  apply (snapScan_nearest_free extLt None (λ r c, Some (r * r + c * c))
           exampleHeap [0; 1; 2; 3; 4]%nat 16).
  - intros [a|]; simpl; [|done]. apply bool_decide_eq_false. lia.
  - intros [a|] [b|] [c|]; simpl; rewrite ?bool_decide_eq_true;
      try done; lia.
Defined.

(** ** The ammunition after a landing *)

Lemma NoDup_arrayFromSet_acc {A} `{EqDecision A} (xs acc : list A) :
  NoDup acc →
  NoDup (foldl (λ acc x, if decide (x ∈ acc) then acc else acc ++ [x]) acc xs).
Proof.
  revert acc. induction xs as [|y xs IH]; intros acc Hnd; simpl; [done|].
  apply IH. destruct (decide (y ∈ acc)) as [Hy|Hy]; [done|].
  apply NoDup_app. split; [done|]. split; [|apply NoDup_singleton].
  by intros z Hz ->%list_elem_of_singleton.
Qed.

Lemma checkMatches_fields (s : ref) (g : Game) :
  let g' := fst (checkMatches s g) in
  score g' = score g ∧ lastDropTime g' = lastDropTime g
  ∧ isFlying g' = isFlying g ∧ gameOver g' = gameOver g
  ∧ currentAmmo g' = currentAmmo g ∧ nextAmmo g' = nextAmmo g
  ∧ userProfile g' = userProfile g ∧ isPaused g' = isPaused g
  ∧ gridCols g' = gridCols g ∧ hasWon g' = hasWon g ∧ gameWon g' = gameWon g.
Proof. unfold checkMatches. by case_bool_decide. Qed.

(** A landing that passes the guards of the frame ends the flight, makes
    the next colour the current one, gives the landed bubble the colour that
    was loaded, and draws the new next colour among the colours of the
    settled bubbles of the board: the landed bubble is one of them, so the
    fallback to red is never taken. *)
Theorem onResults_land_cycles_ammo {num} (numLt : num → num → bool)
    (infinity : num) (w : World) (distTo : Z → Z → num) (g : Game) :
  isPaused g || gameOver g = false →
  isFlying g && negb (isQuizActive g) && negb (gameOver g) = true →
  let g' := onResults_land numLt infinity w distTo g in
  isFlying g' = false
  ∧ currentAmmo g' = nextAmmo g
  ∧ color (heap g' !!! length (heap g)) = currentAmmo g
  ∧ ∃ r, r ∈ bubbles g' ∧ settled (heap g') r
         ∧ color (heap g' !!! r) = nextAmmo g'.
Proof.
  intros Hp Hguard g'. subst g'. unfold onResults_land.
  destruct (isPaused g || gameOver g); [done|].
  destruct (isFlying g && negb (isQuizActive g) && negb (gameOver g));
    [|done].
  cbv zeta.
  change (heap (withIsFlying false g)) with (heap g).
  change (bubbles (withIsFlying false g)) with (bubbles g).
  change (gridCols (withIsFlying false g)) with (gridCols g).
  change (currentAmmo (withIsFlying false g)) with (currentAmmo g).
  set (best := snapScan numLt infinity distTo (heap g) (bubbles g)
                 (gridCols g)).
  set (newB := mkBubble _ (bestRow best) (bestCol best) _ true false None).
  set (g1 := withBoard (heap g ++ [newB]) (bubbles g ++ [length (heap g)])
               (withIsFlying false g)).
  destruct (checkMatches_board (length (heap g)) g1) as [Hh Hb].
  destruct (checkMatches_fields (length (heap g)) g1)
    as (_ & _ & Hfly & _ & _ & Hnext & _).
  set (g2 := fst (checkMatches (length (heap g)) g1)) in *.
  set (g3 := if match bestYRow best with
                | Some r => rowPastDangerLine (canvasHeight w) r
                | None => _
                end
             then withGameOver true g2 else g2).
  assert (heap g3 = heap g ++ [newB]
          ∧ bubbles g3 = bubbles g ++ [length (heap g)]
          ∧ isFlying g3 = false ∧ nextAmmo g3 = nextAmmo g)
    as (Hh3 & Hb3 & Hfly3 & Hnext3).
  { subst g3. destruct (match bestYRow best with Some _ => _ | None => _ end);
      simpl; by rewrite Hh, Hb, Hfly, Hnext. }
  assert (heap g3 !!! length (heap g) = newB) as Hnew.
  { rewrite Hh3. apply list_lookup_total_correct.
    rewrite lookup_app_r by done. by rewrite Nat.sub_diag. }
  set (avail := arrayFromSet _).
  change (isFlying (withAmmo ?c ?n g3)) with (isFlying g3).
  change (currentAmmo (withAmmo ?c ?n g3)) with c.
  change (nextAmmo (withAmmo ?c ?n g3)) with n.
  change (heap (withAmmo ?c ?n g3)) with (heap g3).
  change (bubbles (withAmmo ?c ?n g3)) with (bubbles g3).
  split; [done|]. split; [done|]. split; [by rewrite Hnew|].
  assert (color newB ∈ avail) as Hin.
  { subst avail. apply elem_of_arrayFromSet, list_elem_of_fmap.
    exists (length (heap g)). split; [by rewrite Hnew|].
    apply list_elem_of_filter. split.
    - unfold settled. by rewrite Hnew.
    - rewrite Hb3. apply elem_of_app. right. by apply list_elem_of_singleton. }
  assert (avail ≠ []) as Hne.
  { intros Heq. rewrite Heq in Hin. by apply elem_of_nil in Hin. }
  rewrite bool_decide_true by (destruct avail; [done|simpl; lia]).
  pose proof (randomElement_elem (rng w) avail 0%nat Hne) as Hel.
  subst avail. apply elem_of_arrayFromSet, list_elem_of_fmap in Hel.
  destruct Hel as (r & Hcol & [Hs Hr]%list_elem_of_filter).
  exists r. split; [done|]. split; [done|]. done.
Qed.

Lemma onResults_land_cycles_ammo_witness :
  let g := withIsFlying true (withQuiz false [] exampleGame) in
  let g' := onResults_land extLt None exampleWorld
              (λ r c, Some (r * r + c * c)) g in
  isFlying g' = false
  ∧ currentAmmo g' = nextAmmo g
  ∧ color (heap g' !!! length (heap g)) = currentAmmo g
  ∧ ∃ r, r ∈ bubbles g' ∧ settled (heap g') r
         ∧ color (heap g' !!! r) = nextAmmo g'.
Proof.
  apply (onResults_land_cycles_ammo extLt None exampleWorld
           (λ r c, Some (r * r + c * c))
           (withIsFlying true (withQuiz false [] exampleGame)));
    reflexivity.
Defined.

(** ** What a step of the game leaves alone *)

Lemma addNewRow_fields (w : World) (g : Game) :
  let g' := addNewRow w g in
  score g' = score g ∧ isQuizActive g' = isQuizActive g
  ∧ pendingMatches g' = pendingMatches g ∧ userProfile g' = userProfile g
  ∧ isPaused g' = isPaused g ∧ isPinching g' = isPinching g
  ∧ isFlying g' = isFlying g ∧ gameWon g' = gameWon g
  ∧ hasWon g' = hasWon g ∧ gridCols g' = gridCols g
  ∧ currentAmmo g' = currentAmmo g ∧ nextAmmo g' = nextAmmo g.
Proof.
  unfold addNewRow. destruct (existsb _ _); [done|].
  destruct (forR _ _ _ _). simpl. done.
Qed.

Lemma initGrid_fields (w : World) (width : Z) (d : Difficulty) (g : Game) :
  let g' := initGrid w width d g in
  isQuizActive g' = isQuizActive g ∧ pendingMatches g' = pendingMatches g
  ∧ userProfile g' = userProfile g ∧ isPaused g' = isPaused g
  ∧ hasWon g' = false ∧ gameWon g' = false ∧ gameOver g' = false
  ∧ lastDropTime g' = perfNow w.
Proof.
  unfold initGrid. destruct (forR _ _ _ _) as [newBubbles k]. simpl.
  case_bool_decide; [|done]. by destruct_draws.
Qed.

(** The landing frame, when it passes its guards: the game it builds
    before the ammunition is cycled. *)
Lemma onResults_land_cases {num} (numLt : num → num → bool)
    (infinity : num) (w : World) (distTo : Z → Z → num) (g : Game) :
  let g' := onResults_land numLt infinity w distTo g in
  g' = g
  ∨ (isPaused g || gameOver g = false
     ∧ isFlying g && negb (isQuizActive g) && negb (gameOver g) = true
     ∧ ∃ newB g1,
         color newB = currentAmmo g ∧ settledB newB
         ∧ heap g1 = heap g ++ [newB]
         ∧ bubbles g1 = bubbles g ++ [length (heap g)]
         ∧ isQuizActive g1 = isQuizActive g
         ∧ pendingMatches g1 = pendingMatches g
         ∧ score g1 = score g
         ∧ heap g' = heap g1 ∧ bubbles g' = bubbles g1
         ∧ score g' = score (fst (checkMatches (length (heap g)) g1))
         ∧ isQuizActive g'
           = isQuizActive (fst (checkMatches (length (heap g)) g1))
         ∧ pendingMatches g'
           = pendingMatches (fst (checkMatches (length (heap g)) g1))).
Proof.
  intros g'. subst g'. unfold onResults_land.
  destruct (isPaused g || gameOver g); [by left|].
  destruct (isFlying g && negb (isQuizActive g) && negb (gameOver g));
    [|by left].
  right. split; [done|]. split; [done|].
  cbv zeta.
  change (heap (withIsFlying false g)) with (heap g).
  change (bubbles (withIsFlying false g)) with (bubbles g).
  change (gridCols (withIsFlying false g)) with (gridCols g).
  change (currentAmmo (withIsFlying false g)) with (currentAmmo g).
  set (best := snapScan numLt infinity distTo (heap g) (bubbles g)
                 (gridCols g)).
  set (newB := mkBubble _ (bestRow best) (bestCol best) _ true false None).
  set (g1 := withBoard (heap g ++ [newB]) (bubbles g ++ [length (heap g)])
               (withIsFlying false g)).
  destruct (checkMatches_board (length (heap g)) g1) as [Hh Hb].
  set (g2 := fst (checkMatches (length (heap g)) g1)) in *.
  exists newB, g1.
  destruct (match bestYRow best with Some _ => _ | None => _ end); simpl;
    by rewrite Hh, Hb.
Qed.

Lemma points_pos (c : BubbleColor) : 0 < points c.
Proof. by destruct c. Qed.

Lemma completeMatch_fields (w : World) (awarded : bool) (g : Game) :
  isQuizActive (completeMatch w awarded g) = false
  ∧ pendingMatches (completeMatch w awarded g) = []
  ∧ userProfile (completeMatch w awarded g) = userProfile g.
Proof.
  unfold completeMatch.
  set (g1 := match awarded, userProfile g with
             | true, Some d => awardMatch w d g
             | _, _ => g
             end).
  assert (userProfile g1 = userProfile g) as Hprof.
  { subst g1. destruct awarded; [|done].
    destruct (userProfile g) eqn:E; [|done].
    rewrite <- E. apply awardMatch_bubbles. }
  change (userProfile (withQuiz false [] g1)) with (userProfile g1).
  destruct (userProfile g1) as [d|] eqn:Hd; [|by rewrite <- Hprof].
  case_bool_decide; [|by rewrite <- Hprof].
  destruct (initGrid_fields w (widthOr1280 w) d (withQuiz false [] g1))
    as (-> & -> & -> & _).
  simpl. by rewrite Hd, <- Hprof.
Qed.

Lemma step_score (g : Game) (o : Op) : score g ≤ score (step g o).
Proof.
  destruct o as [w| |w distTo|w awarded|w belowFloor|paused| ]; simpl;
    [| | | |unfold onResults_purge; by destruct (_ || _)|done|done].
  - unfold onResults_autoDrop. destruct (isPaused g || gameOver g); [done|].
    destruct (userProfile g); [|done]. destruct (_ && _); [|done].
    case_bool_decide; [|done].
    destruct (addNewRow_fields w g) as [-> _]. done.
  - unfold launch. by destruct (_ || _).
  - destruct (onResults_land_cases extLt None w distTo g)
      as [->|(_ & _ & newB & g1 & _ & _ & _ & _ & _ & _ & Hs & _ & _ & -> & _)];
      [done|].
    destruct (checkMatches_fields (length (heap g)) g1) as [-> _].
    by rewrite Hs.
  - destruct (completeMatch_stage w awarded g) as [-> _].
    destruct awarded, (userProfile g); try done.
    rewrite awardMatch_score.
    pose proof (points_pos (match pendingMatches g with
                            | first :: _ => color (heap g !!! first)
                            | [] => red
                            end)).
    nia.
Qed.

(** The score never goes down, whatever the events: rows that spawn,
    launches and landings keep it, and every resolution of a match keeps
    or raises it. *)
Theorem score_never_decreases (ops : list Op) (g : Game) :
  score g ≤ score (run g ops).
Proof.
  unfold run. revert g. induction ops as [|o ops IH]; intros g; simpl; [done|].
  etrans; [apply (step_score g o)|apply IH].
Qed.

(** ** The match a landing raises *)

Lemma matchLoop_shape (fuel : nat) (h : list Bubble) (board : list ref)
    (c : BubbleColor) :
  ∀ toCheck visited matches result,
    matchLoop fuel h board c toCheck visited matches = Some result →
    ∃ more, result = matches ++ more
      ∧ ∀ r, r ∈ more →
          (r ∈ toCheck ∨ (r ∈ board ∧ settled h r)) ∧ color (h !!! r) = c.
Proof.
  assert (∀ matches : list ref,
            ∃ more : list ref, matches = matches ++ more
              ∧ ∀ r, r ∈ more →
                  (r ∈ @nil ref ∨ (r ∈ board ∧ settled h r))
                  ∧ color (h !!! r) = c) as Hnil.
  { intros matches. exists []. split; [by rewrite app_nil_r|].
    intros r Hr. by apply elem_of_nil in Hr. }
  induction fuel as [|fuel IH]; intros toCheck visited matches result;
    destruct toCheck as [|current rest]; simpl.
  - intros [= <-]. apply Hnil.
  - done.
  - intros [= <-]. apply Hnil.
  - destruct (decide (id (h !!! current) ∈ visited)) as [Hv|Hv].
    { intros Hrun. apply IH in Hrun as (more & -> & Hmore).
      exists more. split; [done|]. intros r Hr.
      destruct (Hmore r Hr) as [[Hin|Hin] Hc]; (split; [|done]).
      - left. by right.
      - by right. }
    destruct (decide (color (h !!! current) = c)) as [Hc|Hc].
    + intros Hrun. apply IH in Hrun as (more & -> & Hmore).
      exists (current :: more). split; [by rewrite <- app_assoc|].
      intros r [->|Hr]%elem_of_cons.
      { split; [left; by left|done]. }
      destruct (Hmore r Hr) as [[Hin|Hin] Hcr]; (split; [|done]).
      * apply elem_of_app in Hin as [Hin|Hin].
        -- right. apply elem_of_reverse, list_elem_of_filter in Hin. tauto.
        -- left. by right.
      * by right.
    + intros Hrun. apply IH in Hrun as (more & -> & Hmore).
      exists more. split; [done|]. intros r Hr.
      destruct (Hmore r Hr) as [[Hin|Hin] Hcr]; (split; [|done]).
      * left. by right.
      * by right.
Qed.

(** The matches begin with the start bubble; the others are settled
    bubbles of the board, or the start again, all of its colour. *)
Lemma matchesOf_shape (h : list Bubble) (board : list ref) (s : ref)
    (result : list ref) :
  matchesOf h board s = Some result →
  ∃ more, result = s :: more
    ∧ ∀ r, r ∈ more →
        (r = s ∨ (r ∈ board ∧ settled h r))
        ∧ color (h !!! r) = color (h !!! s).
Proof.
  unfold matchesOf, matchFuel. cbn [matchLoop].
  destruct (decide (id (h !!! s) ∈ (∅ : gset string))) as [Hv|_];
    [by apply not_elem_of_empty in Hv|].
  destruct (decide (color (h !!! s) = color (h !!! s))) as [_|Hc]; [|done].
  intros Hrun. apply matchLoop_shape in Hrun as (more & -> & Hmore).
  exists more. split; [done|]. intros r Hr.
  destruct (Hmore r Hr) as [[Hin|Hin] Hc]; (split; [|done]).
  - rewrite app_nil_r in Hin.
    right. apply elem_of_reverse, list_elem_of_filter in Hin. tauto.
  - by right.
Qed.

Lemma onResults_land_pending {num} (numLt : num → num → bool)
    (infinity : num) (w : World) (distTo : Z → Z → num) (g : Game) :
  isQuizActive g = false →
  let g' := onResults_land numLt infinity w distTo g in
  (isQuizActive g' = false ∧ pendingMatches g' = pendingMatches g)
  ∨ (isQuizActive g' = true
     ∧ ∃ rest,
         pendingMatches g' = length (heap g) :: rest
         ∧ (2 ≤ length rest)%nat
         ∧ ∀ r, r ∈ pendingMatches g' →
             r ∈ bubbles g' ∧ settled (heap g') r
             ∧ color (heap g' !!! r) = currentAmmo g).
Proof.
  intros Hq g'.
  destruct (onResults_land_cases numLt infinity w distTo g)
    as [Heq|(_ & _ & newB & g1 & Hcol & Hset & Hh1 & Hb1 & Hq1 & Hp1 & _
             & Hh & Hb & _ & Hq' & Hp')];
    fold g' in Heq || fold g' in Hh, Hb, Hq', Hp'.
  { left. by rewrite Heq. }
  rewrite Hq', Hp', Hh, Hb. unfold checkMatches.
  assert (heap g1 !!! length (heap g) = newB) as Hnew.
  { rewrite Hh1. apply list_lookup_total_correct.
    rewrite lookup_app_r by done. by rewrite Nat.sub_diag. }
  case_bool_decide as Hlen; simpl; [|left; by rewrite Hq1, Hp1].
  right. split; [done|].
  destruct (matchesOf (heap g1) (bubbles g1) (length (heap g)))
    as [result|] eqn:Hm; [|simpl in Hlen; lia].
  simpl in *. apply matchesOf_shape in Hm as (more & -> & Hmore).
  exists more. split; [done|]. split; [simpl in Hlen; lia|].
  assert (length (heap g) ∈ bubbles g1 ∧ settled (heap g1) (length (heap g)))
    as [Hin Hs].
  { split.
    - rewrite Hb1. apply elem_of_app. right. by apply list_elem_of_singleton.
    - unfold settled. by rewrite Hnew. }
  rewrite Hnew, Hcol in Hmore.
  intros r [->|Hr]%elem_of_cons.
  { by rewrite Hnew, Hcol. }
  destruct (Hmore r Hr) as [[->|[Hrb Hrs]] Hc]; by rewrite Hc.
Qed.

(** A quiz that a landing opens is about the shot: the pending match
    begins with the landed bubble and holds at least three bubbles, each
    one on the board, settled and of the colour that was loaded. *)
Theorem landing_quiz_is_about_the_shot {num} (numLt : num → num → bool)
    (infinity : num) (w : World) (distTo : Z → Z → num) (g : Game) :
  isQuizActive g = false →
  let g' := onResults_land numLt infinity w distTo g in
  isQuizActive g' = true →
  ∃ rest,
    pendingMatches g' = length (heap g) :: rest
    ∧ (2 ≤ length rest)%nat
    ∧ ∀ r, r ∈ pendingMatches g' →
        r ∈ bubbles g' ∧ settled (heap g') r
        ∧ color (heap g' !!! r) = currentAmmo g.
Proof.
  intros Hq g' Hq'.
  destruct (onResults_land_pending numLt infinity w distTo g Hq)
    as [[Hno _]|[_ Hyes]]; [|done].
  fold g' in Hno. congruence.
Qed.

Lemma landing_quiz_is_about_the_shot_witness :
  let g := withIsFlying true (withQuiz false [] exampleGame) in
  let g' := onResults_land extLt None exampleWorld
              (λ r c, Some ((r - 2) * (r - 2) + c * c)) g in
  ∃ rest,
    pendingMatches g' = length (heap g) :: rest
    ∧ (2 ≤ length rest)%nat
    ∧ ∀ r, r ∈ pendingMatches g' →
        r ∈ bubbles g' ∧ settled (heap g') r
        ∧ color (heap g' !!! r) = currentAmmo g.
Proof.
  apply (landing_quiz_is_about_the_shot extLt None exampleWorld
           (λ r c, Some ((r - 2) * (r - 2) + c * c))
           (withIsFlying true (withQuiz false [] exampleGame)));
    reflexivity.
Defined.

(** While a quiz is open, the auto drop, the release of the sling and the
    landing leave the game as it is. *)
Lemma quiz_blocks_the_engine (g : Game) :
  isQuizActive g = true →
  (∀ w, onResults_autoDrop w g = g)
  ∧ launch g = g
  ∧ ∀ w distTo, onResults_land extLt None w distTo g = g.
Proof.
  intros Hq. split; [|split].
  - intros w. unfold onResults_autoDrop. rewrite Hq.
    destruct (isPaused g || gameOver g); [done|]. by destruct (userProfile g).
  - unfold launch. by rewrite Hq.
  - intros w distTo. unfold onResults_land. rewrite Hq.
    destruct (isPaused g || gameOver g); [done|]. by rewrite andb_false_r.
Qed.

Lemma step_pendingInv (g : Game) (o : Op) :
  pendingInv g → pendingInv (step g o).
Proof.
  intros Hinv.
  destruct o as [w| |w distTo|w awarded|w belowFloor|paused| ]; simpl;
    [| | | |unfold onResults_purge; by destruct (_ || _)|done|done].
  - destruct (isQuizActive g) eqn:Hq.
    { by rewrite (proj1 (quiz_blocks_the_engine g Hq)). }
    unfold onResults_autoDrop.
    destruct (isPaused g || gameOver g); [done|].
    destruct (userProfile g); [|done]. destruct (_ && _); [|done].
    case_bool_decide; [|done].
    destruct (addNewRow_fields w g) as (_ & Hq' & Hp' & _).
    unfold pendingInv in *. rewrite Hq', Hp', Hq. by rewrite Hq in Hinv.
  - unfold launch. destruct (_ || _); [done|].
    unfold pendingInv in *. simpl. done.
  - destruct (isQuizActive g) eqn:Hq.
    { by rewrite (proj2 (proj2 (quiz_blocks_the_engine g Hq))). }
    destruct (onResults_land_pending extLt None w distTo g Hq)
      as [[Hq' Hp']|(Hq' & rest & Hp' & Hlen & Hall)];
      unfold pendingInv in *.
    + rewrite Hq', Hp'. by rewrite Hq in Hinv.
    + rewrite Hq'. split; [rewrite Hp'; simpl; lia|]. split.
      * intros r Hr. destruct (Hall r Hr) as (? & ? & ?). done.
      * intros r r' Hr Hr'. destruct (Hall r Hr) as (_ & _ & ->).
        by destruct (Hall r' Hr') as (_ & _ & ->).
  - unfold pendingInv.
    by destruct (completeMatch_fields w awarded g) as (-> & -> & _).
Qed.

(** In every run of a round, whatever its events (rows that spawn, launches,
    landings, purges of the board, resolutions of a quiz, pauses), a quiz
    is open only over a pending match of at least three bubbles that are
    active, not floating and of one colour, and no match is pending while
    no quiz is open.  The pending bubbles need not be on the board any
    more: the purge of a frame also runs while the quiz is open. *)
Theorem pending_match_invariant (w : World) (d : Difficulty)
    (ops : list Op) :
  pendingInv (run (startRound w d) ops).
Proof.
  assert (pendingInv (startRound w d)) as Hstart.
  { unfold pendingInv, startRound.
    by destruct (initGrid_fields w (canvasWidth w) d (newGame d))
      as (-> & -> & _). }
  unfold run. revert Hstart. generalize (startRound w d).
  induction ops as [|o ops IH]; intros g Hinv; simpl; [done|].
  by apply IH, step_pendingInv.
Qed.

(** From the start of a round, every run whose landings find a free cell
    in the window they scan keeps the references of the board valid and
    distinct, the row indices non-negative and the cells of the settled
    bubbles pairwise distinct. *)
Theorem round_keeps_board_invariant (w : World) (d : Difficulty)
    (ops : list Op) :
  landsFree (startRound w d) ops → boardInv (run (startRound w d) ops).
Proof. intros Hfree. apply run_boardInv; [|done]. apply initGrid_boardInv. Qed.

Lemma round_keeps_board_invariant_witness :
  boardInv
    (run (startRound (fullWorld 1000) Hard)
       [Launch; Land (fullWorld 2000) (λ r c, Some (r * r + c * c))]).
Proof.
  apply (round_keeps_board_invariant (fullWorld 1000) Hard
           [Launch; Land (fullWorld 2000) (λ r c, Some (r * r + c * c))]).
  vm_compute.
  split; [exact I|]. split; [|exact I]. intros _ _. discriminate.
Defined.

(** ** The colour of a spawned bubble *)

Lemma getNextBubbleColor_result (rng : nat → Z) (h : list Bubble)
    (currentBubbles : list ref) (forbiddenColors : list BubbleColor)
    (difficulty : Difficulty) (k : nat) :
  activeColorsOf h currentBubbles ≠ [] →
  notForbidden forbiddenColors COLOR_KEYS ≠ [] →
  let c :=
    fst (getNextBubbleColor rng h currentBubbles forbiddenColors difficulty k)
  in
  (c ∉ forbiddenColors)
  ∧ (randomLt (rng k `mod` TWO53) (introduceNewColorChance difficulty) = false →
     notForbidden forbiddenColors (activeColorsOf h currentBubbles) ≠ [] →
     c ∈ activeColorsOf h currentBubbles).
Proof.
  intros Hactive Hvalid c. subst c. unfold getNextBubbleColor.
  case_bool_decide as Hlen.
  { destruct (activeColorsOf h currentBubbles); [done|discriminate]. }
  set (candidates :=
         if bool_decide
              (length (notForbidden forbiddenColors
                         (activeColorsOf h currentBubbles)) = 0%nat)
         then notForbidden forbiddenColors COLOR_KEYS
         else notForbidden forbiddenColors
                (activeColorsOf h currentBubbles)).
  assert (candidates ≠ []) as Hcand.
  { subst candidates. case_bool_decide as Hc; [done|].
    intros Hnil. apply Hc. by rewrite Hnil. }
  assert (∀ c, c ∈ candidates → c ∉ forbiddenColors) as Hok.
  { subst candidates. intros c.
    case_bool_decide; apply notForbidden_elem. }
  case_bool_decide as Hc0.
  { destruct candidates; [done|discriminate]. }
  unfold bindR, mathRandom. cbv beta iota.
  destruct (randomLt _ _) eqn:Hdraw; cbn [andb].
  - split; [|done]. case_bool_decide.
    + eapply notForbidden_elem, randomElement_elem, Hvalid.
    + by apply Hok, randomElement_elem.
  - split; [by apply Hok, randomElement_elem|].
    intros _ Hsome.
    assert (candidates
            = notForbidden forbiddenColors (activeColorsOf h currentBubbles))
      as Heq.
    { subst candidates. rewrite bool_decide_false; [done|].
      intros Hz. apply Hsome. by apply nil_length_inv. }
    pose proof (randomElement_elem rng candidates (S k) Hcand) as Hel.
    revert Hel. generalize (fst (randomElement rng candidates (S k))).
    intros c Hel. rewrite Heq in Hel. unfold notForbidden in Hel.
    apply list_elem_of_filter in Hel. tauto.
Qed.

(** Unless the draw introduces a new colour, the colour chosen for a new
    bubble is the colour of an active bubble of the board and is not
    forbidden, provided some active colour is allowed. *)
Theorem getNextBubbleColor_keeps_to_the_board (rng : nat → Z)
    (h : list Bubble) (currentBubbles : list ref)
    (forbiddenColors : list BubbleColor) (difficulty : Difficulty) (k : nat) :
  notForbidden forbiddenColors (activeColorsOf h currentBubbles) ≠ [] →
  randomLt (rng k `mod` TWO53) (introduceNewColorChance difficulty) = false →
  let c :=
    fst (getNextBubbleColor rng h currentBubbles forbiddenColors difficulty k)
  in
  (c ∉ forbiddenColors)
  ∧ ∃ r, r ∈ currentBubbles ∧ active (h !!! r) = true ∧ color (h !!! r) = c.
Proof.
  intros Hsome Hdraw c.
  assert (∃ x, x ∈ notForbidden forbiddenColors
                     (activeColorsOf h currentBubbles)) as [x Hx].
  { destruct (notForbidden _ _) as [|x l]; [done|]. exists x. by left. }
  unfold notForbidden in Hx. apply list_elem_of_filter in Hx as [Hxf Hxa].
  destruct (getNextBubbleColor_result rng h currentBubbles forbiddenColors
              difficulty k) as [Hnot Hact].
  - intros Hnil. rewrite Hnil in Hxa. by apply elem_of_nil in Hxa.
  - intros Hnil.
    assert (x ∈ notForbidden forbiddenColors COLOR_KEYS) as Hin.
    { unfold notForbidden. apply list_elem_of_filter. split; [done|].
      destruct x; unfold COLOR_KEYS; set_solver. }
    rewrite Hnil in Hin. by apply elem_of_nil in Hin.
  - split; [done|]. by apply activeColorsOf_elem, Hact.
Qed.

Lemma getNextBubbleColor_keeps_to_the_board_witness :
  let c :=
    fst (getNextBubbleColor (λ _, TWO53 - 1) exampleHeap [0; 1; 2; 3; 4]%nat
           [green] Hard 0%nat)
  in
  (c ∉ [green])
  ∧ ∃ r, r ∈ [0; 1; 2; 3; 4]%nat ∧ active (exampleHeap !!! r) = true
         ∧ color (exampleHeap !!! r) = c.
Proof.
  apply (getNextBubbleColor_keeps_to_the_board (λ _, TWO53 - 1) exampleHeap
           [0; 1; 2; 3; 4]%nat [green] Hard 0%nat).
  - vm_compute. discriminate.
  - reflexivity.
Defined.

(** ** Rows that spawn *)

Lemma forR_append_inv {A} (keys : A → list (Z * Z)) (P : list Bubble → Prop)
    (Q : Bubble → Prop) (body : list Bubble → A → Rand (list Bubble))
    (xs : list A) :
  (∀ acc x k, x ∈ xs → P acc →
     ∃ l, fst (body acc x k) = acc ++ l
          ∧ sublist (map cellOfB l) (keys x)
          ∧ Forall Q l ∧ P (acc ++ l)) →
  ∀ acc k, P acc →
    ∃ l, fst (forR xs body acc k) = acc ++ l
         ∧ sublist (map cellOfB l) (concat (map keys xs))
         ∧ Forall Q l ∧ P (acc ++ l).
Proof.
  induction xs as [|x xs IH]; intros Hbody acc k HP; simpl.
  - exists []. by rewrite app_nil_r.
  - unfold bindR.
    destruct (Hbody acc x k (list_elem_of_here _ _) HP)
      as (l1 & H1 & Hs1 & Hf1 & HP1).
    destruct (body acc x k) as [acc' k']. simpl in H1. subst acc'.
    destruct (IH (λ a y k0 Hy, Hbody a y k0 (list_elem_of_further _ _ _ Hy))
                (acc ++ l1) k' HP1) as (l2 & H2 & Hs2 & Hf2 & HP2).
    exists (l1 ++ l2). rewrite H2, app_assoc. split; [done|]. split.
    + rewrite map_app. by apply sublist_app.
    + split; [by apply Forall_app|done].
Qed.

Lemma lastTwo_snoc2 {A} (l : list A) (b a : A) :
  lastTwo (l ++ [b; a]) = Some (a, b).
Proof. unfold lastTwo. by rewrite reverse_app. Qed.

Lemma noTripleOn_nil (same : Bubble → Bubble → Prop) : noTripleOn same [].
Proof. intros l1 a b c l2 Heq. by destruct l1. Qed.

Lemma noTripleOn_snoc (same : Bubble → Bubble → Prop) (l : list Bubble)
    (x : Bubble) :
  noTripleOn same l →
  (∀ p1 p2, lastTwo l = Some (p1, p2) → same p1 x →
     color p1 = color p2 → color x ≠ color p1) →
  noTripleOn same (l ++ [x]).
Proof.
  intros Hl Hx l1 a b c l2 Heq Hsame [Hab Hbc].
  destruct l2 as [|y l2 _] using rev_ind.
  - change (l1 ++ [a; b; c]) with (l1 ++ [a; b] ++ [c]) in Heq.
    rewrite app_assoc in Heq. apply app_inj_tail in Heq as [-> ->].
    apply (Hx b a); [apply lastTwo_snoc2|done|done|done].
  - change (l1 ++ a :: b :: c :: l2 ++ [y])
      with (l1 ++ (a :: b :: c :: l2) ++ [y]) in Heq.
    rewrite app_assoc in Heq. apply app_inj_tail in Heq as [-> _].
    by apply (Hl l1 a b c l2).
Qed.

Lemma notForbidden_singleton_palette (c : BubbleColor) :
  notForbidden [c] COLOR_KEYS ≠ [].
Proof. by destruct c. Qed.

(** One column of a spawning row: at most one bubble, in row 0 at that
    column, settled and never popped; with an active bubble on the board it
    does not complete a run of three of one colour. *)
Lemma addNewRowCell_step (w : World) (h : list Bubble) (board : list ref)
    (rowDensity : Q) (difficulty : Difficulty) (acc : list Bubble) (c : Z)
    (k : nat) :
  (activeColorsOf h board ≠ [] → noTripleOn (λ _ _, True) acc) →
  ∃ l, fst (addNewRowCell w h board rowDensity difficulty acc c k) = acc ++ l
       ∧ sublist (map cellOfB l) [(0, c)]
       ∧ Forall (λ b, settledB b ∧ popTime b = None) l
       ∧ (activeColorsOf h board ≠ [] → noTripleOn (λ _ _, True) (acc ++ l)).
Proof.
  intros Hacc. unfold addNewRowCell, bindR, mathRandom.
  destruct (randomLt _ _).
  - match goal with
    | |- context [getNextBubbleColor ?r ?h ?b ?f ?d ?k] =>
        pose proof (getNextBubbleColor_result r h b f d k) as Hcol;
        destruct (getNextBubbleColor r h b f d k) as [c' k']
    end.
    eexists [_]. split; [done|]. split; [done|].
    split; [by repeat constructor|].
    intros Hactive. apply noTripleOn_snoc; [by apply Hacc|].
    intros p1 p2 Hlast _ Hsame. simpl. rewrite Hlast in Hcol.
    rewrite bool_decide_true in Hcol by done.
    destruct (Hcol Hactive (notForbidden_singleton_palette _)) as [Hnot _].
    simpl in Hnot. intros ->. apply Hnot. by left.
  - exists []. rewrite app_nil_r. split; [done|]. split; [|done].
    apply sublist_nil_l.
Qed.

(** The row a spawn adds. *)
Lemma addNewRow_spawn (w : World) (g : Game) :
  let h1 := forEach (λ b, setRow (row b + 1) b) (bubbles g) (heap g) in
  let g' := addNewRow w g in
  let danger :=
    existsb (λ r, active (h1 !!! r)
                  && rowPastDangerLine (canvasHeight w) (row (h1 !!! r)))
      (bubbles g) in
  ∃ new,
    heap g' = h1 ++ new
    ∧ bubbles g' = bubbles g ++ seq (length (heap g)) (length new)
    ∧ sublist (map cellOfB new) (map (pair 0) (upto (gridCols g)))
    ∧ Forall (λ b, settledB b ∧ popTime b = None) new
    ∧ (activeColorsOf h1 (bubbles g) ≠ [] → noTripleOn (λ _ _, True) new)
    ∧ (danger = true →
       new = [] ∧ gameOver g' = true ∧ lastDropTime g' = lastDropTime g)
    ∧ (danger = false →
       gameOver g' = gameOver g ∧ lastDropTime g' = perfNow w).
Proof.
  intros h1 g' danger. subst g'. unfold addNewRow. fold h1.
  change (bubbles (withBoard h1 (bubbles g) g)) with (bubbles g).
  fold danger. destruct danger.
  { exists []. simpl. rewrite !app_nil_r. split; [done|]. split; [done|].
    split; [apply sublist_nil_l|]. split; [done|].
    split; [intros _; apply noTripleOn_nil|]. done. }
  change (gridCols (withBoard h1 (bubbles g) g)) with (gridCols g).
  change (userProfile (withBoard h1 (bubbles g) g)) with (userProfile g).
  match goal with
  | |- context [forR ?xs ?body ?acc ?k] =>
      assert (∀ acc' c k', c ∈ xs →
                (activeColorsOf h1 (bubbles g) ≠ [] →
                 noTripleOn (λ _ _, True) acc') →
                ∃ l, fst (body acc' c k') = acc' ++ l
                     ∧ sublist (map cellOfB l) [(0, c)]
                     ∧ Forall (λ b, settledB b ∧ popTime b = None) l
                     ∧ (activeColorsOf h1 (bubbles g) ≠ [] →
                        noTripleOn (λ _ _, True) (acc' ++ l))) as Hbody
        by (intros ? ? ? _; apply addNewRowCell_step);
      destruct (forR_append_inv (λ c, [(0, c)]) _ _ body xs Hbody acc k)
        as (new & Hnew & Hsub & Hset & Htriple);
        [intros _; apply noTripleOn_nil|];
      destruct (forR xs body acc k) as [newRowBubbles k0]
  end.
  simpl in Hnew. subst newRowBubbles. rewrite concat_singletons in Hsub.
  assert (length h1 = length (heap g)) as Hlen by apply length_forEach.
  exists new. unfold alloc. simpl. rewrite Hlen. done.
Qed.

Lemma sublist_row0 (new : list Bubble) (cols : list Z) :
  sublist (map cellOfB new) (map (pair 0) cols) →
  Forall (λ b, row b = 0) new ∧ sublist (map col new) cols.
Proof.
  intros Hsub. split.
  - apply Forall_forall. intros b Hb.
    assert (cellOfB b ∈ map (pair 0) cols) as Hc.
    { eapply elem_of_sublist; [|exact Hsub].
      apply list_elem_of_fmap. by exists b. }
    apply list_elem_of_fmap in Hc as (c & Hc & _). by injection Hc.
  - apply (fmap_sublist snd) in Hsub.
    rewrite <- !list_fmap_compose in Hsub.
    assert (snd ∘ pair 0 <$> cols = cols) as Hid.
    { clear. induction cols as [|c cols IH]; [done|]. simpl. by f_equal. }
    by rewrite Hid in Hsub.
Qed.

(** A spawn moves every bubble of the board down exactly one row and
    changes nothing else of it, whether or not the game ends; objects that
    are not on the board are left alone. *)
Theorem addNewRow_shifts_every_bubble (w : World) (g : Game) (r : ref) :
  NoDup (bubbles g) → (r < length (heap g))%nat →
  heap (addNewRow w g) !!! r
  = if decide (r ∈ bubbles g)
    then setRow (row (heap g !!! r) + 1) (heap g !!! r)
    else heap g !!! r.
Proof.
  intros Hnd Hr.
  destruct (addNewRow_spawn w g) as (new & -> & _).
  rewrite lookup_total_app_l by (by rewrite length_forEach).
  by rewrite forEach_lookup_NoDup.
Qed.

Lemma addNewRow_shifts_every_bubble_witness :
  heap (addNewRow exampleWorld exampleGame) !!! 3%nat
  = if decide (3%nat ∈ bubbles exampleGame)
    then setRow (row (heap exampleGame !!! 3%nat) + 1)
           (heap exampleGame !!! 3%nat)
    else heap exampleGame !!! 3%nat.
Proof.
  apply (addNewRow_shifts_every_bubble exampleWorld exampleGame 3).
  - apply (bool_decide_unpack _). vm_compute. exact I.
  - simpl. lia.
Defined.

(** A spawn ends the game, adding nothing and leaving the spawn timer
    alone, exactly when an active bubble would come to lie past the danger
    line in its new row.  Otherwise it restarts the spawn timer and puts
    the new bubbles on the board behind the old ones: they lie in row 0, in
    increasing columns of the grid, settled and never popped. *)
Theorem addNewRow_outcome (w : World) (g : Game) :
  NoDup (bubbles g) → Forall (λ r, (r < length (heap g))%nat) (bubbles g) →
  let g' := addNewRow w g in
  let danger :=
    ∃ r, r ∈ bubbles g ∧ active (heap g !!! r) = true
         ∧ rowPastDangerLine (canvasHeight w) (row (heap g !!! r) + 1) = true
  in
  (danger →
   gameOver g' = true ∧ bubbles g' = bubbles g
   ∧ lastDropTime g' = lastDropTime g)
  ∧ (¬ danger →
     gameOver g' = gameOver g ∧ lastDropTime g' = perfNow w
     ∧ ∃ new,
         bubbles g' = bubbles g ++ seq (length (heap g)) (length new)
         ∧ boardView (heap g') (seq (length (heap g)) (length new)) = new
         ∧ Forall (λ b, row b = 0 ∧ settledB b ∧ popTime b = None) new
         ∧ sublist (map col new) (upto (gridCols g))).
Proof.
  intros Hnd Hvalid g' danger.
  destruct (addNewRow_spawn w g)
    as (new & Hh & Hb & Hsub & Hset & _ & Hover & Hgo).
  fold g' in Hh, Hb, Hover, Hgo.
  set (h1 := forEach (λ b, setRow (row b + 1) b) (bubbles g) (heap g)) in *.
  set (test := existsb _ (bubbles g)) in *.
  assert (test = true ↔ danger) as Htest.
  { subst test danger. rewrite existsb_exists. split.
    - intros (r & Hr%list_elem_of_In & [Ha Hp]%andb_prop).
      exists r. split; [done|].
      rewrite Forall_forall in Hvalid.
      unfold h1 in Ha, Hp.
      rewrite forEach_lookup_NoDup in Ha, Hp by (done || by apply Hvalid).
      rewrite decide_True in Ha, Hp by done. done.
    - intros (r & Hr & Ha & Hp). exists r.
      split; [by apply list_elem_of_In|].
      rewrite Forall_forall in Hvalid. unfold h1.
      rewrite forEach_lookup_NoDup by (done || by apply Hvalid).
      rewrite decide_True by done. simpl. by rewrite Ha, Hp. }
  split.
  - intros Hd%Htest. destruct (Hover Hd) as (-> & Ho & Ht).
    rewrite Hb. simpl. by rewrite app_nil_r.
  - intros Hd. assert (test = false) as Hf.
    { destruct test; [|done]. exfalso. by apply Hd, Htest. }
    destruct (Hgo Hf) as [Ho Ht]. split; [done|]. split; [done|].
    exists new. split; [done|]. split.
    + rewrite Hh. replace (length (heap g)) with (length h1)
        by apply length_forEach. apply boardView_alloc.
    + apply sublist_row0 in Hsub as [Hrow Hcols]. split; [|done].
      rewrite Forall_forall in *. intros b Hbn.
      split; [by apply Hrow|by apply Hset].
Qed.

Lemma addNewRow_outcome_witness :
  let g' := addNewRow exampleWorld exampleGame in
  let danger :=
    ∃ r, r ∈ bubbles exampleGame ∧ active (heap exampleGame !!! r) = true
         ∧ rowPastDangerLine (canvasHeight exampleWorld)
             (row (heap exampleGame !!! r) + 1) = true
  in
  (danger →
   gameOver g' = true ∧ bubbles g' = bubbles exampleGame
   ∧ lastDropTime g' = lastDropTime exampleGame)
  ∧ (¬ danger →
     gameOver g' = gameOver exampleGame
     ∧ lastDropTime g' = perfNow exampleWorld
     ∧ ∃ new,
         bubbles g'
         = bubbles exampleGame
           ++ seq (length (heap exampleGame)) (length new)
         ∧ boardView (heap g')
             (seq (length (heap exampleGame)) (length new)) = new
         ∧ Forall (λ b, row b = 0 ∧ settledB b ∧ popTime b = None) new
         ∧ sublist (map col new) (upto (gridCols exampleGame))).
Proof.
  apply (addNewRow_outcome exampleWorld exampleGame).
  - apply (bool_decide_unpack _). vm_compute. exact I.
  - apply (bool_decide_unpack _). vm_compute. exact I.
Defined.

(** When the board holds an active bubble, no three bubbles that follow
    each other in a spawned row have one colour. *)
Theorem addNewRow_no_three_alike (w : World) (g : Game) :
  (∃ r, r ∈ bubbles g ∧ active (heap g !!! r) = true) →
  ∃ new,
    heap (addNewRow w g)
    = forEach (λ b, setRow (row b + 1) b) (bubbles g) (heap g) ++ new
    ∧ bubbles (addNewRow w g)
      = bubbles g ++ seq (length (heap g)) (length new)
    ∧ ∀ l1 a b c l2, new = l1 ++ a :: b :: c :: l2 →
        ¬ (color a = color b ∧ color b = color c).
Proof.
  intros (r & Hr & Ha).
  destruct (addNewRow_spawn w g) as (new & Hh & Hb & _ & _ & Htriple & _).
  exists new. split; [done|]. split; [done|].
  intros l1 a b c l2 Heq. apply (Htriple) with (l1 := l1) (l2 := l2);
    [|done..].
  intros Hnil.
  assert (color (heap g !!! r)
          ∈ activeColorsOf
              (forEach (λ b, setRow (row b + 1) b) (bubbles g) (heap g))
              (bubbles g)) as Hin.
  { apply activeColorsOf_elem. exists r. split; [done|].
    by rewrite (forEach_proj active), (forEach_proj color). }
  rewrite Hnil in Hin. by apply elem_of_nil in Hin.
Qed.

Lemma addNewRow_no_three_alike_witness :
  ∃ new,
    heap (addNewRow exampleWorld exampleGame)
    = forEach (λ b, setRow (row b + 1) b) (bubbles exampleGame)
        (heap exampleGame) ++ new
    ∧ bubbles (addNewRow exampleWorld exampleGame)
      = bubbles exampleGame
        ++ seq (length (heap exampleGame)) (length new)
    ∧ ∀ l1 a b c l2, new = l1 ++ a :: b :: c :: l2 →
        ¬ (color a = color b ∧ color b = color c).
Proof.
  apply (addNewRow_no_three_alike exampleWorld exampleGame).
  exists 0%nat. split; [|reflexivity].
  apply (bool_decide_unpack _). vm_compute. exact I.
Defined.

(** ** The seeded board *)

(** One cell of the seeding loop: at most one bubble, at that cell,
    settled, never popped and of a colour of the palette; when the palette
    offers a second colour it does not complete a run of three of one
    colour within a row. *)
Lemma initGridCell_step (w : World) (cfg : DifficultyConfig)
    (palette : list BubbleColor) (r : Z) (acc : list Bubble) (c : Z)
    (k : nat) :
  ((∀ x, notForbidden [x] palette ≠ []) →
   noTripleOn (λ b x, row b = row x) acc) →
  ∃ l, fst (initGridCell w cfg palette r acc c k) = acc ++ l
       ∧ sublist (map cellOfB l) [(r, c)]
       ∧ Forall (λ b, settledB b ∧ popTime b = None
                      ∧ (palette ≠ [] → color b ∈ palette)) l
       ∧ ((∀ x, notForbidden [x] palette ≠ []) →
          noTripleOn (λ b x, row b = row x) (acc ++ l)).
Proof.
  intros Hacc. unfold initGridCell, bindR, mathRandom.
  destruct (randomLt _ _).
  - match goal with
    | |- context [randomElement ?a ?b ?k0] =>
        pose proof (randomElement_elem a b k0) as Hel;
        destruct (randomElement a b k0) as [sel k']
    end.
    simpl in Hel.
    eexists [_]. split; [done|]. split; [done|]. split.
    + constructor; [|done]. split; [done|]. split; [done|].
      simpl. intros Hpal. revert Hel.
      case_bool_decide as Hc; intros Hel; [by apply Hel|].
      assert (sel ∈ notForbidden
                      match lastTwo acc with
                      | Some (prev1, prev2) =>
                          if bool_decide (row prev1 = r)
                             && bool_decide (color prev1 = color prev2)
                          then [color prev1] else []
                      | None => []
                      end palette) as Hin.
      { apply Hel. intros Hnil. apply Hc. by rewrite Hnil. }
      unfold notForbidden in Hin. apply list_elem_of_filter in Hin. tauto.
    + intros Htwo. apply noTripleOn_snoc; [by apply Hacc|].
      intros p1 p2 Hlast Hrow Hcol. simpl in *. rewrite Hlast in Hel.
      rewrite (bool_decide_true (row p1 = r)),
        (bool_decide_true (color p1 = color p2)) in Hel by done.
      simpl in Hel.
      rewrite bool_decide_false in Hel.
      * intros ->. eapply notForbidden_elem; [apply Hel, Htwo|]. by left.
      * intros Hz. apply (Htwo (color p1)). by apply nil_length_inv.
  - exists []. rewrite app_nil_r. split; [done|]. split; [|done].
    apply sublist_nil_l.
Qed.

Lemma initGrid_seed (w : World) (width : Z) (d : Difficulty) (g : Game) :
  let cols := Z.min MAX_GRID_COLS (Z.max 5 ((width - 40) `div` 42)) in
  let palette := take (numColorsOf d) (shuffled w) in
  let g' := initGrid w width d g in
  ∃ new,
    heap g' = heap g ++ new
    ∧ bubbles g' = seq (length (heap g)) (length new)
    ∧ gridCols g' = cols
    ∧ sublist (map cellOfB new)
        (concat (map (λ r, map (pair r) (upto (colsOfRow cols r)))
                   (upto (initialRows (DIFFICULTY_CONFIG d)))))
    ∧ Forall (λ b, settledB b ∧ popTime b = None
                   ∧ (palette ≠ [] → color b ∈ palette)) new
    ∧ ((∀ x, notForbidden [x] palette ≠ []) →
       noTripleOn (λ b x, row b = row x) new)
    ∧ (new ≠ [] →
       currentAmmo g' ∈ map color new ∧ nextAmmo g' ∈ map color new)
    ∧ (new = [] →
       currentAmmo g' = currentAmmo g ∧ nextAmmo g' = nextAmmo g).
Proof.
  intros cols palette g'. subst g'. unfold initGrid. fold cols. fold palette.
  set (rows := upto (initialRows (DIFFICULTY_CONFIG d))).
  destruct (forR_append_inv
              (λ r, map (pair r) (upto (colsOfRow cols r)))
              (λ acc, (∀ x, notForbidden [x] palette ≠ []) →
                      noTripleOn (λ b x, row b = row x) acc)
              (λ b, settledB b ∧ popTime b = None
                    ∧ (palette ≠ [] → color b ∈ palette))
              (λ acc r,
                 forR (upto (colsOfRow cols r))
                   (initGridCell w (DIFFICULTY_CONFIG d) palette r) acc)
              rows) with (acc := @nil Bubble) (k := 0%nat)
    as (new & Hnew & Hsub & Hs & Htriple).
  { intros acc r k _ Hacc.
    destruct (forR_append_inv (λ c, [(r, c)])
                (λ acc, (∀ x, notForbidden [x] palette ≠ []) →
                        noTripleOn (λ b x, row b = row x) acc)
                (λ b, settledB b ∧ popTime b = None
                      ∧ (palette ≠ [] → color b ∈ palette))
                (initGridCell w (DIFFICULTY_CONFIG d) palette r)
                (upto (colsOfRow cols r))) with (acc := acc) (k := k)
      as (l & Hl & Hsubl & Hsl & Htl).
    { intros acc' c k' _. apply initGridCell_step. }
    { done. }
    exists l. split; [done|]. split; [|done].
    by rewrite concat_singletons in Hsubl. }
  { intros _. apply noTripleOn_nil. }
  destruct (forR _ _ _ _) as [newBubbles k]. simpl in Hnew. subst newBubbles.
  exists new. unfold alloc. cbv zeta.
  assert (∀ c, c ∈ arrayFromSet (map color new) → c ∈ map color new)
    as Hcol by (intros c; apply elem_of_arrayFromSet).
  case_bool_decide as Hne.
  - match goal with
    | |- context [randomElement ?a ?b ?k0] =>
        pose proof (randomElement_elem a b k0) as Hel1;
        destruct (randomElement a b k0) as [c1 k1]
    end.
    match goal with
    | |- context [randomElement ?a ?b ?k0] =>
        pose proof (randomElement_elem a b k0) as Hel2;
        destruct (randomElement a b k0) as [c2 k2]
    end.
    simpl in *.
    assert (arrayFromSet (map color new) ≠ []) as Hnn.
    { intros Hnil. rewrite Hnil in Hne. simpl in Hne. lia. }
    split; [done|]. split; [done|]. split; [done|]. split; [done|].
    split; [done|]. split; [done|]. split.
    + intros _. split; apply Hcol; [by apply Hel1|by apply Hel2].
    + intros ->. done.
  - simpl. split; [done|]. split; [done|]. split; [done|]. split; [done|].
    split; [done|]. split; [done|]. split; [|done].
    intros Hnn. exfalso. apply Hne. destruct new as [|b new]; [done|].
    assert (color b ∈ arrayFromSet (map color (b :: new))) as Hin.
    { apply elem_of_arrayFromSet. by left. }
    destruct (arrayFromSet _); [by apply elem_of_nil in Hin|simpl; lia].
Qed.

(** Seeding replaces the board by fresh bubbles, leaves the objects of the
    store alone and chooses between 5 and 16 columns.  The seeded bubbles
    are settled, never popped, and lie at pairwise distinct cells of the
    initial rows, an odd row holding one column less. *)
Theorem initGrid_layout (w : World) (width : Z) (d : Difficulty) (g : Game) :
  let g' := initGrid w width d g in
  let seeded := boardView (heap g') (bubbles g') in
  5 ≤ gridCols g' ≤ 16
  ∧ (∀ r, (r < length (heap g))%nat → heap g' !!! r = heap g !!! r)
  ∧ Forall (λ r, (length (heap g) ≤ r < length (heap g'))%nat) (bubbles g')
  ∧ Forall (λ b, 0 ≤ row b < initialRows (DIFFICULTY_CONFIG d)
                 ∧ 0 ≤ col b < colsOfRow (gridCols g') (row b)
                 ∧ settledB b ∧ popTime b = None) seeded
  ∧ NoDup (map cellOfB seeded).
Proof.
  intros g' seeded.
  destruct (initGrid_seed w width d g)
    as (new & Hh & Hb & Hcols & Hsub & Hs & _).
  fold g' in Hh, Hb, Hcols.
  assert (seeded = new) as ->.
  { subst seeded. rewrite Hh, Hb. apply boardView_alloc. }
  rewrite Hcols, Hh, Hb.
  set (cols := Z.min MAX_GRID_COLS (Z.max 5 ((width - 40) `div` 42))) in *.
  split; [unfold cols, MAX_GRID_COLS; lia|].
  split; [intros r Hr; by apply lookup_total_app_l|].
  split.
  { apply Forall_forall. intros r Hr%elem_of_seq. rewrite length_app. lia. }
  split.
  - apply Forall_forall. intros b Hin.
    assert (cellOfB b
            ∈ concat (map (λ r, map (pair r) (upto (colsOfRow cols r)))
                        (upto (initialRows (DIFFICULTY_CONFIG d))))) as Hc.
    { eapply elem_of_sublist; [|exact Hsub].
      apply list_elem_of_fmap. by exists b. }
    apply list_elem_of_In, in_concat in Hc as (l & Hl & Hc).
    apply in_map_iff in Hl as (r & <- & Hr).
    apply in_map_iff in Hc as (c & Hc & Hcin).
    apply list_elem_of_In, elem_of_seqZ in Hr.
    apply list_elem_of_In, elem_of_seqZ in Hcin.
    unfold cellOfB in Hc. injection Hc as <- <-.
    rewrite Forall_forall in Hs. destruct (Hs b Hin) as (? & ? & _).
    split; [lia|]. split; [lia|]. done.
  - eapply sublist_NoDup; [|exact Hsub].
    apply NoDup_grid; [apply NoDup_seqZ|]. intros r. apply NoDup_seqZ.
Qed.

Lemma palette_two_colours (sh : list BubbleColor) (d : Difficulty) :
  sh ≡ₚ COLOR_KEYS →
  take (numColorsOf d) sh ≠ []
  ∧ ∀ x, notForbidden [x] (take (numColorsOf d) sh) ≠ [].
Proof.
  intros Hperm.
  assert (NoDup sh) as Hnd.
  { rewrite Hperm. apply (bool_decide_unpack _). by vm_compute. }
  apply Permutation_length in Hperm.
  destruct sh as [|a [|b sh]]; [done..|].
  apply NoDup_cons in Hnd as [Hab _].
  assert (a ≠ b) as Hne by (intros ->; apply Hab; left).
  split; [by destruct d|].
  intros x. unfold notForbidden.
  assert (take (numColorsOf d) (a :: b :: sh)
          = a :: b :: take (numColorsOf d - 2) sh) as ->
    by (by destruct d).
  rewrite !filter_cons.
  destruct (decide (a ∉ [x])) as [|Ha]; [done|].
  destruct (decide (b ∉ [x])) as [|Hb]; [done|].
  exfalso. apply Hne.
  apply dec_stable in Ha. apply dec_stable in Hb.
  apply list_elem_of_singleton in Ha, Hb. congruence.
Qed.

(** When the shuffle leaves a permutation of the six colours, every seeded
    bubble has one of the first colours of the shuffle, four on Easy, five
    on Medium and six otherwise; and when any bubble was seeded, the loaded
    colour and the next colour are colours of seeded bubbles. *)
Theorem initGrid_palette (w : World) (width : Z) (d : Difficulty)
    (g : Game) :
  shuffled w ≡ₚ COLOR_KEYS →
  let g' := initGrid w width d g in
  let seeded := boardView (heap g') (bubbles g') in
  length (take (numColorsOf d) (shuffled w)) = numColorsOf d
  ∧ Forall (λ b, color b ∈ take (numColorsOf d) (shuffled w)) seeded
  ∧ (seeded ≠ [] →
     currentAmmo g' ∈ map color seeded ∧ nextAmmo g' ∈ map color seeded).
Proof.
  intros Hperm g' seeded.
  destruct (initGrid_seed w width d g)
    as (new & Hh & Hb & _ & _ & Hs & _ & Hammo & _).
  fold g' in Hh, Hb, Hammo.
  assert (seeded = new) as ->.
  { subst seeded. rewrite Hh, Hb. apply boardView_alloc. }
  destruct (palette_two_colours (shuffled w) d Hperm) as [Hpal _].
  split.
  { rewrite length_take. apply Permutation_length in Hperm.
    rewrite Hperm. by destruct d. }
  split; [|done].
  eapply Forall_impl; [exact Hs|]. intros b (_ & _ & Hin). by apply Hin.
Qed.

Lemma initGrid_palette_witness :
  let g' := initGrid exampleWorld 1280 Easy (newGame Easy) in
  let seeded := boardView (heap g') (bubbles g') in
  length (take (numColorsOf Easy) (shuffled exampleWorld)) = numColorsOf Easy
  ∧ Forall (λ b, color b ∈ take (numColorsOf Easy) (shuffled exampleWorld))
      seeded
  ∧ (seeded ≠ [] →
     currentAmmo g' ∈ map color seeded ∧ nextAmmo g' ∈ map color seeded).
Proof.
  apply (initGrid_palette exampleWorld 1280 Easy (newGame Easy)).
  reflexivity.
Defined.

(** When the shuffle leaves a permutation of the six colours, no three
    seeded bubbles that follow each other in the order of seeding have one
    colour when the last two lie in one row. *)
Theorem initGrid_no_three_alike (w : World) (width : Z) (d : Difficulty)
    (g : Game) :
  shuffled w ≡ₚ COLOR_KEYS →
  let g' := initGrid w width d g in
  ∀ l1 a b c l2,
    boardView (heap g') (bubbles g') = l1 ++ a :: b :: c :: l2 →
    row b = row c →
    ¬ (color a = color b ∧ color b = color c).
Proof.
  intros Hperm g'.
  destruct (initGrid_seed w width d g)
    as (new & Hh & Hb & _ & _ & _ & Htriple & _).
  fold g' in Hh, Hb. rewrite Hh, Hb, boardView_alloc.
  apply Htriple. by apply palette_two_colours.
Qed.

Lemma initGrid_no_three_alike_witness :
  let g' := initGrid exampleWorld 1280 Easy (newGame Easy) in
  let a := mkBubble "0-0-5000" 0 0 red true false None in
  let b := mkBubble "0-1-5000" 0 1 red true false None in
  let c := mkBubble "0-2-5000" 0 2 blue true false None in
  let l2 := drop 3 (boardView (heap g') (bubbles g')) in
  boardView (heap g') (bubbles g') = [] ++ a :: b :: c :: l2
  ∧ row b = row c
  ∧ ¬ (color a = color b ∧ color b = color c).
Proof.
  cbv zeta.
  assert (boardView (heap (initGrid exampleWorld 1280 Easy (newGame Easy)))
            (bubbles (initGrid exampleWorld 1280 Easy (newGame Easy)))
          = [] ++ mkBubble "0-0-5000" 0 0 red true false None
               :: mkBubble "0-1-5000" 0 1 red true false None
               :: mkBubble "0-2-5000" 0 2 blue true false None
               :: drop 3
                    (boardView
                       (heap (initGrid exampleWorld 1280 Easy (newGame Easy)))
                       (bubbles
                          (initGrid exampleWorld 1280 Easy (newGame Easy)))))
    as Hboard by (vm_compute; reflexivity).
  split; [exact Hboard|]. split; [reflexivity|].
  apply (initGrid_no_three_alike exampleWorld 1280 Easy (newGame Easy)
           (reflexivity _) _ _ _ _ _ Hboard).
  reflexivity.
Defined.

(** ** The spawn timer *)

(** After a frame that spawned a row or ended the game on the attempt, no
    later frame spawns again before the interval of the difficulty has
    passed since that frame. *)
Theorem autoDrop_waits_for_interval (w w' : World) (g : Game)
    (d : Difficulty) :
  userProfile g = Some d →
  onResults_autoDrop w g ≠ g →
  perfNow w' - perfNow w ≤ dropInterval (DIFFICULTY_CONFIG d) →
  onResults_autoDrop w' (onResults_autoDrop w g) = onResults_autoDrop w g.
Proof.
  intros Hprof Hchanged Hsoon. revert Hchanged.
  unfold onResults_autoDrop at 1 3 4.
  destruct (isPaused g || gameOver g) eqn:Hp; [done|].
  rewrite Hprof.
  destruct (negb (isQuizActive g) && negb (isPinching g)
            && negb (isFlying g) && negb (gameWonSeen w)) eqn:Hguard; [|done].
  case_bool_decide as Htime; [|done]. intros _.
  destruct (addNewRow_fields w g)
    as (_ & Hq & _ & Hu & Hpa & Hpi & Hf & Hw & _).
  destruct (addNewRow_spawn w g) as (new & _ & _ & _ & _ & _ & Hover & Hgo).
  unfold onResults_autoDrop.
  rewrite Hpa, Hu, Hprof, Hq, Hpi, Hf.
  destruct (existsb _ (bubbles g)).
  - destruct (Hover eq_refl) as (_ & -> & _). by rewrite orb_true_r.
  - destruct (Hgo eq_refl) as [-> ->]. rewrite Hp.
    destruct (_ && negb (gameWonSeen w')); [|done].
    by rewrite bool_decide_false by lia.
Qed.

Lemma autoDrop_waits_for_interval_witness :
  onResults_autoDrop (mkWorld (λ _, 0) 80000 80000 1280 1080 COLOR_KEYS false)
    (onResults_autoDrop (mkWorld (λ _, 0) 70000 70000 1280 1080 COLOR_KEYS false)
       (withQuiz false [] exampleGame))
  = onResults_autoDrop (mkWorld (λ _, 0) 70000 70000 1280 1080 COLOR_KEYS false)
      (withQuiz false [] exampleGame).
Proof.
  apply (autoDrop_waits_for_interval
           (mkWorld (λ _, 0) 70000 70000 1280 1080 COLOR_KEYS false)
           (mkWorld (λ _, 0) 80000 80000 1280 1080 COLOR_KEYS false)
           (withQuiz false [] exampleGame) Easy).
  - reflexivity.
  - intros Heq. apply (f_equal lastDropTime) in Heq. vm_compute in Heq.
    discriminate.
  - vm_compute. discriminate.
Defined.

(** ** One search for orphans is enough *)

Lemma anchored_settled (h : list Bubble) (board : list ref) (r : ref) :
  anchored h board r → r ∈ board ∧ settled h r.
Proof. by destruct 1. Qed.

(** Marking the orphans as floating keeps every anchored bubble
    anchored. *)
Lemma anchored_after_marking (h : list Bubble) (board : list ref) (r : ref) :
  uniqueIds h board → Forall (λ r, (r < length h)%nat) board →
  anchored h board r →
  anchored (forEach (setIsFloating true) (findFloatingBubbles h board) h)
    board r
  ∧ forEach (setIsFloating true) (findFloatingBubbles h board) h !!! r
    = h !!! r.
Proof.
  intros Huniq Hvalid. rewrite Forall_forall in Hvalid.
  assert (∀ x, anchored h board x →
            forEach (setIsFloating true) (findFloatingBubbles h board) h !!! x
            = h !!! x) as Hsame.
  { intros x Hx. destruct (anchored_settled h board x Hx) as [Hin Hs].
    rewrite forEach_lookup by (done || by apply Hvalid).
    rewrite decide_False; [done|].
    intros Hfl%findFloatingBubbles_elem; [|done]. tauto. }
  intros Hanc. split; [|by apply Hsame].
  induction Hanc as [r Hin Hr Hs|c b Hanc IH Hin Hs Hn].
  - assert (anchored h board r) as Ha by (by apply anchored_ceiling).
    apply anchored_ceiling; [done|by rewrite Hsame|].
    unfold settled. by rewrite Hsame.
  - assert (anchored h board b) as Ha by (by apply (anchored_step _ _ c)).
    apply (anchored_step _ _ c); [done|done| |].
    + unfold settled. by rewrite Hsame.
    + by rewrite !Hsame.
Qed.

Lemma settled_after_marking (h : list Bubble) (board : list ref) (r : ref) :
  uniqueIds h board → Forall (λ r, (r < length h)%nat) board →
  r ∈ board →
  settled (forEach (setIsFloating true) (findFloatingBubbles h board) h) r →
  anchored h board r.
Proof.
  intros Huniq Hvalid Hin Hs. rewrite Forall_forall in Hvalid.
  assert (settled h r) as Hs0.
  { unfold settled in *. apply forEach_settled in Hs; [done|].
    intros b. unfold settledB. simpl. by rewrite andb_false_r. }
  assert (r ∉ findFloatingBubbles h board) as Hnot.
  { intros Hfl. unfold settled in Hs.
    rewrite forEach_lookup in Hs by (done || by apply Hvalid).
    rewrite decide_True in Hs by done.
    unfold settledB in Hs. simpl in Hs. by rewrite andb_false_r in Hs. }
  unfold findFloatingBubbles in Hnot.
  destruct (floatingLoop_terminates h board) as [connected Hrun].
  rewrite Hrun in Hnot.
  apply (connectedIds_anchored h board connected); [done..|].
  destruct (decide (id (h !!! r) ∈ connected)) as [|Hid]; [done|].
  exfalso. apply Hnot. by apply list_elem_of_filter.
Qed.

(** Once the orphans a search finds are marked as floating, a second
    search over the same board finds none: no settled bubble is left
    without a path to the ceiling. *)
Theorem findFloatingBubbles_one_pass (h : list Bubble) (board : list ref) :
  uniqueIds h board → Forall (λ r, (r < length h)%nat) board →
  findFloatingBubbles
    (forEach (setIsFloating true) (findFloatingBubbles h board) h) board
  = [].
Proof.
  intros Huniq Hvalid.
  set (h' := forEach (setIsFloating true) (findFloatingBubbles h board) h).
  assert (uniqueIds h' board) as Huniq'.
  { unfold uniqueIds in *. erewrite map_ext; [exact Huniq|].
    intros r. simpl. by apply (forEach_proj id). }
  apply elem_of_nil_inv. intros r Hr.
  apply findFloatingBubbles_elem in Hr as (Hin & Hs & Hnot); [|done].
  apply Hnot. apply anchored_after_marking; [done..|].
  by apply settled_after_marking.
Qed.

Lemma findFloatingBubbles_one_pass_witness :
  findFloatingBubbles
    (forEach (setIsFloating true)
       (findFloatingBubbles (afterPop 5000 exampleGame) [0; 1; 2; 3; 4]%nat)
       (afterPop 5000 exampleGame))
    [0; 1; 2; 3; 4]%nat
  = [].
Proof.
  apply (findFloatingBubbles_one_pass (afterPop 5000 exampleGame)
           [0; 1; 2; 3; 4]%nat).
  - apply (bool_decide_unpack _). vm_compute. exact I.
  - apply (bool_decide_unpack _). vm_compute. exact I.
Defined.

(** ** What the resolution of a match does to the board *)

(** An awarded resolution pops exactly the bubbles of the pending match,
    stamping them with the time of the call; it keeps the identity, the
    cell and the colour of every object, keeps the others active or
    inactive as they were, and never lets a floating bubble settle
    again. *)
Theorem completeMatch_pops_the_pending_match (w : World) (g : Game)
    (d : Difficulty) (r : ref) :
  userProfile g = Some d → (r < length (heap g))%nat →
  let b := heap g !!! r in
  let b' := heap (completeMatch w true g) !!! r in
  id b' = id b ∧ row b' = row b ∧ col b' = col b ∧ color b' = color b
  ∧ (r ∈ pendingMatches g →
     active b' = false ∧ popTime b' = Some (perfNow w))
  ∧ (r ∉ pendingMatches g → active b' = active b ∧ popTime b' = popTime b)
  ∧ (isFloating b = true → isFloating b' = true).
Proof.
  intros Hd Hr b b'. subst b b'.
  rewrite (completeMatch_award_lookup w g d) by done.
  assert (afterPop (perfNow w) g !!! r
          = if decide (r ∈ pendingMatches g)
            then popBubble (perfNow w) (heap g !!! r) else heap g !!! r)
    as Hpop by (by apply forEach_lookup).
  destruct (decide (r ∈ floatingAfterPop (perfNow w) g));
    rewrite Hpop; destruct (decide (r ∈ pendingMatches g)); simpl;
    (split; [done|]); (split; [done|]); (split; [done|]); (split; [done|]);
    (split; [done|]); done.
Qed.

Lemma completeMatch_pops_the_pending_match_witness :
  let b := heap exampleGame !!! 3%nat in
  let b' := heap (completeMatch exampleWorld true exampleGame) !!! 3%nat in
  id b' = id b ∧ row b' = row b ∧ col b' = col b ∧ color b' = color b
  ∧ (3%nat ∈ pendingMatches exampleGame →
     active b' = false ∧ popTime b' = Some (perfNow exampleWorld))
  ∧ (3%nat ∉ pendingMatches exampleGame →
     active b' = active b ∧ popTime b' = popTime b)
  ∧ (isFloating b = true → isFloating b' = true).
Proof.
  apply (completeMatch_pops_the_pending_match exampleWorld exampleGame Easy
           3%nat).
  - reflexivity.
  - simpl. lia.
Defined.

(** After an awarded resolution, either no bubble of the board is settled
    any more, so that the board is seeded anew, or every settled bubble of
    the board has a path of settled bubbles to the ceiling. *)
Theorem completeMatch_leaves_no_orphan (w : World) (g : Game)
    (d : Difficulty) :
  userProfile g = Some d → uniqueIds (heap g) (bubbles g) → validRefs g →
  let g' := completeMatch w true g in
  (∀ r, r ∈ bubbles g → ¬ settled (heap g') r)
  ∨ (bubbles g' = bubbles g
     ∧ ∀ r, r ∈ bubbles g' → settled (heap g') r →
         anchored (heap g') (bubbles g') r).
Proof.
  intros Hd Huniq Hvalid g'.
  assert (Forall (λ r, (r < length (heap g))%nat) (bubbles g)) as Hv.
  { apply Forall_forall. intros r Hr. by apply validRefs_board. }
  set (hp := afterPop (perfNow w) g).
  set (h1 := forEach (setIsFloating true)
               (findFloatingBubbles hp (bubbles g)) hp).
  assert (length hp = length (heap g)) as Hlen by apply length_forEach.
  assert (uniqueIds hp (bubbles g)) as Huniq' by (by apply afterPop_uniqueIds).
  assert (∀ r, r ∈ bubbles g → heap g' !!! r = h1 !!! r) as Hlook.
  { intros r Hr. subst g'.
    rewrite (completeMatch_award_lookup w g d)
      by (done || by apply validRefs_board).
    symmetry. apply forEach_lookup; [done|].
    unfold afterPop. rewrite length_forEach. by apply validRefs_board. }
  destruct (awardMatch_bubbles w d g) as [Hb Hp].
  destruct (decide (filter (λ b, settled h1 b) (bubbles g) = []))
    as [Hnone|Hsome].
  - left. intros r Hr Hs. unfold settled in Hs. rewrite Hlook in Hs by done.
    assert (r ∈ filter (λ b, settled h1 b) (bubbles g)) as Hin
      by (by apply list_elem_of_filter).
    rewrite Hnone in Hin. by apply elem_of_nil in Hin.
  - right.
    assert (heap g' = h1 ∧ bubbles g' = bubbles g) as [Hh' Hb'].
    { subst g'. unfold completeMatch. rewrite Hd.
      change (userProfile (withQuiz false [] (awardMatch w d g)))
        with (userProfile (awardMatch w d g)).
      rewrite Hp, Hd.
      change (heap (withQuiz false [] (awardMatch w d g)))
        with (heap (awardMatch w d g)).
      change (bubbles (withQuiz false [] (awardMatch w d g)))
        with (bubbles (awardMatch w d g)).
      rewrite Hb, awardMatch_heap. fold hp. fold h1.
      rewrite bool_decide_false; [by simpl; rewrite awardMatch_heap, Hb|].
      intros Hz. apply Hsome. by apply nil_length_inv. }
    split; [done|]. rewrite Hh', Hb'. intros r Hr Hs.
    assert (Forall (λ r, (r < length hp)%nat) (bubbles g)) as Hv'
      by (by rewrite Hlen).
    apply anchored_after_marking; [done..|].
    by apply settled_after_marking.
Qed.

Lemma completeMatch_leaves_no_orphan_witness :
  let g' := completeMatch exampleWorld true exampleGame in
  (∀ r, r ∈ bubbles exampleGame → ¬ settled (heap g') r)
  ∨ (bubbles g' = bubbles exampleGame
     ∧ ∀ r, r ∈ bubbles g' → settled (heap g') r →
         anchored (heap g') (bubbles g') r).
Proof.
  apply (completeMatch_leaves_no_orphan exampleWorld exampleGame Easy).
  - reflexivity.
  - apply (bool_decide_unpack _). vm_compute. exact I.
  - apply (bool_decide_unpack _). vm_compute. exact I.
Defined.

(** The win flags after an awarded resolution, for a player who has not
    won yet.  When a settled bubble remains, the game is won and paused
    exactly when the difficulty has a target and the score has reached it.
    When the match clears the board, the reseeding takes the win back:
    the win flags are cleared while the pause of a reached target
    stays. *)
Theorem completeMatch_win_flags (w : World) (g : Game) (d : Difficulty) :
  userProfile g = Some d → hasWon g = false →
  let g' := completeMatch w true g in
  let cleared :=
    filter (λ b, settled (heap (awardMatch w d g)) b) (bubbles g) = [] in
  let reached :=
    d ≠ Infinity ∧ winScore (DIFFICULTY_CONFIG d) ≤ score g' in
  (¬ cleared → reached →
   hasWon g' = true ∧ gameWon g' = true ∧ isPaused g' = true)
  ∧ (¬ cleared → ¬ reached →
     hasWon g' = false ∧ gameWon g' = gameWon g ∧ isPaused g' = isPaused g)
  ∧ (cleared →
     hasWon g' = false ∧ gameWon g' = false ∧ gameOver g' = false
     ∧ (reached → isPaused g' = true)).
Proof.
  intros Hd Hw g' cleared reached.
  destruct (completeMatch_stage w true g) as [Hscore _].
  rewrite Hd in Hscore. fold g' in Hscore.
  destruct (awardMatch_bubbles w d g) as [Hb Hp].
  set (g1 := awardMatch w d g) in *.
  assert ((reached →
           hasWon g1 = true ∧ gameWon g1 = true ∧ isPaused g1 = true)
          ∧ (¬ reached →
             hasWon g1 = false ∧ gameWon g1 = gameWon g
             ∧ isPaused g1 = isPaused g)) as [Hyes Hno].
  { subst reached. rewrite Hscore. subst g1. unfold awardMatch.
    destruct (if bool_decide (0 < length _)%nat then _ else _) as [h pts].
    set (g0 := withScore _ _).
    change (hasWon g0) with (hasWon g). rewrite Hw.
    assert (hasWon g0 = false ∧ gameWon g0 = gameWon g
            ∧ isPaused g0 = isPaused g) as Hsame by (split; [exact Hw|done]).
    destruct (bool_decide (d ≠ Infinity)) eqn:Hinf;
      destruct (bool_decide (winScore (DIFFICULTY_CONFIG d) ≤ score g0))
        eqn:Hwin; cbn [andb negb].
    - apply bool_decide_eq_true in Hinf, Hwin. split; [done|].
      intros Hn. exfalso. apply Hn. by split.
    - apply bool_decide_eq_false in Hwin. split; [|done].
      intros [_ Hr]. exfalso. by apply Hwin.
    - apply bool_decide_eq_false in Hinf. split; [|done].
      intros [Hr _]. done.
    - apply bool_decide_eq_false in Hinf. split; [|done].
      intros [Hr _]. done. }
  assert (g' = (if bool_decide
                     (length (filter (λ b, settled (heap g1) b) (bubbles g))
                      = 0%nat)
                then initGrid w (widthOr1280 w) d (withQuiz false [] g1)
                else withQuiz false [] g1)) as Hg'.
  { subst g'. unfold completeMatch. rewrite Hd. fold g1.
    change (userProfile (withQuiz false [] g1)) with (userProfile g1).
    rewrite Hp, Hd.
    change (heap (withQuiz false [] g1)) with (heap g1).
    change (bubbles (withQuiz false [] g1)) with (bubbles g1).
    by rewrite Hb. }
  split; [|split].
  - intros Hnc Hr. rewrite Hg', bool_decide_false.
    + simpl. by apply Hyes.
    + intros Hz. apply Hnc. by apply nil_length_inv.
  - intros Hnc Hr. rewrite Hg', bool_decide_false.
    + simpl. by apply Hno.
    + intros Hz. apply Hnc. by apply nil_length_inv.
  - intros Hc. rewrite Hg', bool_decide_true by (by rewrite Hc).
    destruct (initGrid_fields w (widthOr1280 w) d (withQuiz false [] g1))
      as (_ & _ & _ & Hpa & Hhw & Hgw & Hgo & _).
    split; [done|]. split; [done|]. split; [done|].
    intros Hr. rewrite Hpa. simpl. by apply Hyes.
Qed.

Lemma completeMatch_win_flags_witness :
  let g' := completeMatch exampleWorld true exampleGame in
  let cleared :=
    filter (λ b, settled (heap (awardMatch exampleWorld Easy exampleGame)) b)
      (bubbles exampleGame) = [] in
  let reached :=
    Easy ≠ Infinity ∧ winScore (DIFFICULTY_CONFIG Easy) ≤ score g' in
  (¬ cleared → reached →
   hasWon g' = true ∧ gameWon g' = true ∧ isPaused g' = true)
  ∧ (¬ cleared → ¬ reached →
     hasWon g' = false ∧ gameWon g' = gameWon exampleGame
     ∧ isPaused g' = isPaused exampleGame)
  ∧ (cleared →
     hasWon g' = false ∧ gameWon g' = false ∧ gameOver g' = false
     ∧ (reached → isPaused g' = true)).
Proof.
  apply (completeMatch_win_flags exampleWorld exampleGame Easy); reflexivity.
Defined.

(** ** Quiz questions *)

Lemma fallbackQuestion_answerable : Quiz.answerable Quiz.fallbackQuestion.
Proof. by split. Qed.

Lemma truthy_orElse (v : option Quiz.Json) (d : Quiz.Json) :
  Quiz.truthy (Some d) = true → Quiz.truthy (Some (Quiz.orElse v d)) = true.
Proof.
  intros Hd. unfold Quiz.orElse. destruct v as [x|]; [|done].
  by destruct (Quiz.truthy (Some x)) eqn:Hx.
Qed.

Lemma orElse_truthy (v : option Quiz.Json) (d : Quiz.Json) :
  Quiz.truthy v = true → Some (Quiz.orElse v d) = v.
Proof.
  unfold Quiz.orElse. destruct v as [x|]; [|done]. by intros ->.
Qed.

Lemma getProp_defined (json : Quiz.Json) (k k' : string)
    (v : option Quiz.Json) :
  Quiz.getProp json k = Some v →
  Quiz.getProp json k' = Some (default None (Quiz.getProp json k')).
Proof. by destruct json. Qed.

(** The five ways the service ends. *)
Lemma generateQuizQuestion_cases (ai : bool)
    (parse : string → option Quiz.Json) (outcome : Quiz.ApiOutcome) :
  let result := Quiz.generateQuizQuestion ai parse outcome in
  (ai = false ∧ result = Some (Quiz.fallbackQuestion, Some Quiz.ApiKeyMissing))
  ∨ (ai = true ∧ outcome = Quiz.Rejected true ∧ result = None)
  ∨ (ai = true
     ∧ (outcome = Quiz.Rejected false ∨ outcome = Quiz.RespondedNullish)
     ∧ result = Some (Quiz.fallbackQuestion, Some Quiz.ApiError))
  ∨ (ai = true
     ∧ ∃ response, outcome = Quiz.Responded response
         ∧ result = Some (Quiz.fallbackQuestion, Some Quiz.JsonParseError)
         ∧ ∀ json qv av,
             parse (Quiz.textOf response) = Some json →
             ¬ (Quiz.getProp json "question" = Some qv
                ∧ Quiz.truthy qv = true
                ∧ Quiz.getProp json "answer" = Some av
                ∧ Quiz.truthy av = true))
  ∨ (ai = true
     ∧ ∃ response json qv av,
         outcome = Quiz.Responded response
         ∧ parse (Quiz.textOf response) = Some json
         ∧ Quiz.getProp json "question" = Some qv
         ∧ Quiz.truthy qv = true
         ∧ Quiz.getProp json "answer" = Some av
         ∧ Quiz.truthy av = true
         ∧ result
           = Some
               (Quiz.mkQuiz (Quiz.orElse qv Quiz.JNull)
                  (Quiz.orElse (default None (Quiz.getProp json "type"))
                     (Quiz.JString "fill-blank"))
                  (Quiz.orElse av Quiz.JNull)
                  (Quiz.orElse
                     (default None (Quiz.getProp json "explanation"))
                     (Quiz.JString "Correct!")),
                None)).
Proof.
  intros result. subst result. unfold Quiz.generateQuizQuestion.
  destruct ai; simpl negb; cbv iota; [|by left].
  right. destruct outcome as [[|]| |response].
  - by left.
  - right. left. split; [done|]. split; [by left|done].
  - right. left. split; [done|]. split; [by right|done].
  - right. right. cbv zeta.
    destruct (parse (Quiz.textOf response)) as [json|] eqn:Hparse.
    2:{ left. split; [done|]. exists response. split; [done|]. split; [done|].
        intros json qv av Hp. congruence. }
    destruct (Quiz.getProp json "question") as [qv|] eqn:Hq.
    2:{ left. split; [done|]. exists response. split; [done|]. split; [done|].
        intros json' qv av Hp (Hq' & _). simplify_eq. }
    pose proof (getProp_defined json "question" "answer" qv Hq) as Ha.
    destruct (Quiz.truthy qv) eqn:Hqt; simpl andb.
    2:{ left. split; [done|]. exists response. split; [done|]. split; [done|].
        intros json' qv' av Hp (Hq' & Hqt' & _). simplify_eq. congruence. }
    destruct (Quiz.truthy (default None (Quiz.getProp json "answer")))
      eqn:Hat.
    2:{ left. split; [done|]. exists response. split; [done|]. split; [done|].
        intros json' qv' av Hp (_ & _ & Ha' & Hat').
        assert (json' = json) as -> by congruence.
        rewrite Ha' in Hat. simpl in Hat. congruence. }
    right. split; [done|].
    exists response, json, qv, (default None (Quiz.getProp json "answer")).
    by repeat split.
Qed.

(** The outcome of the service in full.  Its promise rejects exactly when
    the client exists and the call was rejected with a reason that is
    [null] or [undefined].  In every other case (no client, a call rejected
    with another reason, a response that is nullish or without text, text
    that does not parse, JSON of any shape) it resolves to a question whose
    question, answer, type and explanation are truthy.  [debug.error] is
    absent exactly when the text of the response parsed to a value with a
    truthy [question] and [answer]; the question then carries these two
    values, with [type] and [explanation] of the value or their defaults.
    It is the missing key exactly when there is no client, the API error
    exactly when the client exists and the call was rejected or resolved to
    a nullish response, and whenever it is present the question is the
    fallback. *)
Theorem generateQuizQuestion_always_a_question (ai : bool)
    (parse : string → option Quiz.Json) (outcome : Quiz.ApiOutcome) :
  let result := Quiz.generateQuizQuestion ai parse outcome in
  let valid (json : Quiz.Json) (qv av : option Quiz.Json) :=
    Quiz.getProp json "question" = Some qv ∧ Quiz.truthy qv = true
    ∧ Quiz.getProp json "answer" = Some av ∧ Quiz.truthy av = true in
  (result = None ↔ ai = true ∧ outcome = Quiz.Rejected true)
  ∧ ∀ quiz err, result = Some (quiz, err) →
      Quiz.truthy (Some (Quiz.question quiz)) = true
      ∧ Quiz.truthy (Some (Quiz.answer quiz)) = true
      ∧ Quiz.truthy (Some (Quiz.type quiz)) = true
      ∧ Quiz.truthy (Some (Quiz.explanation quiz)) = true
      ∧ (err = Some Quiz.ApiKeyMissing ↔ ai = false)
      ∧ (err = Some Quiz.ApiError
         ↔ ai = true
           ∧ (outcome = Quiz.Rejected false
              ∨ outcome = Quiz.RespondedNullish))
      ∧ (err = Some Quiz.JsonParseError
         ↔ ai = true
           ∧ ∃ response, outcome = Quiz.Responded response
               ∧ ∀ json qv av,
                   parse (Quiz.textOf response) = Some json →
                   ¬ valid json qv av)
      ∧ (err = None
         ↔ ai = true
           ∧ ∃ response json qv av,
               outcome = Quiz.Responded response
               ∧ parse (Quiz.textOf response) = Some json
               ∧ valid json qv av)
      ∧ (err = None →
         ∀ response json,
           outcome = Quiz.Responded response →
           parse (Quiz.textOf response) = Some json →
           Quiz.getProp json "question" = Some (Some (Quiz.question quiz))
           ∧ Quiz.getProp json "answer" = Some (Some (Quiz.answer quiz))
           ∧ Quiz.type quiz
             = Quiz.orElse (default None (Quiz.getProp json "type"))
                 (Quiz.JString "fill-blank")
           ∧ Quiz.explanation quiz
             = Quiz.orElse (default None (Quiz.getProp json "explanation"))
                 (Quiz.JString "Correct!"))
      ∧ (err ≠ None → quiz = Quiz.fallbackQuestion).
Proof.
  intros result valid. subst valid.
  destruct (generateQuizQuestion_cases ai parse outcome)
    as [(Hai & Hres)|[(Hai & Hout & Hres)|[(Hai & Hout & Hres)
       |[(Hai & response & Hout & Hres & Hbad)
        |(Hai & response & json & qv & av & Hout & Hparse & Hq & Hqt & Ha
          & Hat & Hres)]]]];
    fold result in Hres; rewrite Hres; clear Hres result.
  - subst ai. split; [by split; [|intros [? _]]|].
    intros quiz err [= <- <-].
    repeat split; try done; by intros [? _].
  - subst ai outcome. split; [done|]. intros quiz err [=].
  - subst ai. split; [split; [done|]; intros [_ ->]; by destruct Hout|].
    intros quiz err [= <- <-].
    repeat split; try done.
    + intros (_ & response & -> & _). by destruct Hout.
    + intros (_ & response & json & qv & av & -> & _). by destruct Hout.
  - subst ai outcome. split; [by split; [|intros [_ ?]]|].
    intros quiz err [= <- <-].
    repeat split; try done.
    + by intros (_ & [?|?]).
    + by exists response.
    + intros (_ & response' & json & qv & av & [= <-] & Hparse & Hvalid).
      by destruct (Hbad json qv av Hparse).
  - subst ai outcome. split; [by split; [|intros [_ ?]]|].
    intros quiz err [= <- <-].
    cbn [Quiz.question Quiz.answer Quiz.type Quiz.explanation].
    split; [by rewrite orElse_truthy|]. split; [by rewrite orElse_truthy|].
    split; [by apply truthy_orElse|]. split; [by apply truthy_orElse|].
    split; [done|]. split; [by split; [|intros (_ & [?|?])]|].
    split.
    { split; [done|]. intros (_ & response' & [= <-] & Hbad).
      by destruct (Hbad json qv av Hparse). }
    split.
    { split; [|done]. intros _. split; [done|].
      by exists response, json, qv, av. }
    split; [|done].
    intros _ response' json' [= <-] Hparse'.
    assert (json' = json) as -> by congruence.
    by rewrite Hq, Ha, !orElse_truthy.
Qed.

Lemma generateQuizQuestion_answerable (ai : bool)
    (parse : string → option Quiz.Json) (outcome : Quiz.ApiOutcome)
    (quiz : Quiz.QuizQuestion) :
  fst <$> Quiz.generateQuizQuestion ai parse outcome = Some quiz →
  Quiz.answerable quiz.
Proof.
  destruct (generateQuizQuestion_cases ai parse outcome)
    as [(_ & ->)|[(_ & _ & ->)|[(_ & _ & ->)
       |[(_ & response & _ & -> & _)
        |(_ & response & json & qv & av & _ & _ & _ & Hqt & _ & Hat
          & ->)]]]]; simpl; intros [= <-]; try by split.
  split; cbn [Quiz.question Quiz.answer]; by rewrite orElse_truthy.
Qed.

Lemma filter_imap_all {A} (m : nat) (l : list A) :
  ∀ k, (m < k)%nat →
    map snd (filter (λ p, p.1 ≠ m) (imap (λ i, pair (k + i)%nat) l)) = l.
Proof.
  induction l as [|x l IH]; intros k Hk; [done|].
  rewrite imap_cons, filter_cons, decide_True by (simpl; lia).
  cbn [map snd]. f_equal.
  rewrite (imap_ext _ (λ i, pair (S k + i)%nat))
    by (intros; simpl; f_equal; lia).
  apply IH. lia.
Qed.

Lemma filter_imap_delete {A} (l : list A) :
  ∀ index k,
    map snd (filter (λ p, p.1 ≠ (k + index)%nat)
               (imap (λ i, pair (k + i)%nat) l))
    = delete index l.
Proof.
  induction l as [|x l IH]; intros index k; [done|].
  rewrite imap_cons, filter_cons.
  rewrite (imap_ext _ (λ i, pair (S k + i)%nat))
    by (intros; simpl; f_equal; lia).
  destruct index as [|index].
  - rewrite decide_False by (simpl; lia).
    apply (filter_imap_all (k + 0) l (S k)). lia.
  - rewrite decide_True by (simpl; lia). cbn [map snd delete list_delete].
    f_equal.
    replace (k + S index)%nat with (S k + index)%nat by lia. apply IH.
Qed.

Lemma removeCustomQuestion_delete (index : nat)
    (questions : option (list Quiz.QuizQuestion)) :
  Quiz.removeCustomQuestion index questions
  = Some (delete index (default [] questions)).
Proof.
  unfold Quiz.removeCustomQuestion. f_equal.
  apply (filter_imap_delete (default [] questions) index 0%nat).
Qed.

(** Adding a question with a question text and an answer and then
    removing the last question gives the questions back, and clears the
    form; with an empty question text or answer nothing is added and the
    form is kept; removing at an index beyond the end removes nothing. *)
Theorem custom_question_add_remove (tempQuestion : Quiz.TempQuestion)
    (questions : list Quiz.QuizQuestion) :
  let added := Quiz.handleAddCustomQuestion tempQuestion (Some questions) in
  (Quiz.q tempQuestion ≠ EmptyString → Quiz.a tempQuestion ≠ EmptyString →
   added.1 = Quiz.mkTemp EmptyString EmptyString EmptyString
   ∧ (∃ newQ, added.2 = Some (questions ++ [newQ])
              ∧ Quiz.question newQ = Quiz.JString (Quiz.q tempQuestion)
              ∧ Quiz.answer newQ = Quiz.JString (Quiz.a tempQuestion)
              ∧ Quiz.type newQ = Quiz.JString "custom")
   ∧ Quiz.removeCustomQuestion (length questions) added.2 = Some questions)
  ∧ (Quiz.q tempQuestion = EmptyString ∨ Quiz.a tempQuestion = EmptyString →
     added = (tempQuestion, Some questions))
  ∧ (∀ index, (length questions ≤ index)%nat →
       Quiz.removeCustomQuestion index (Some questions) = Some questions).
Proof.
  intros added. subst added. unfold Quiz.handleAddCustomQuestion.
  split; [|split].
  - intros Hq Ha.
    apply String.eqb_neq in Hq, Ha. rewrite Hq, Ha. simpl.
    split; [done|]. split.
    + eexists. split; [done|]. done.
    + rewrite removeCustomQuestion_delete. simpl. f_equal.
      induction questions as [|x l IH]; [done|]. simpl. by f_equal.
  - intros [Hq|Ha].
    + rewrite Hq. done.
    + rewrite Ha. by rewrite orb_true_r.
  - intros index Hlen. rewrite removeCustomQuestion_delete. simpl. f_equal.
    revert index Hlen. induction questions as [|x l IH]; intros index Hlen.
    + by destruct index.
    + destruct index as [|index]; simpl in *; [lia|].
      f_equal. apply IH. lia.
Qed.

Lemma custom_question_add_remove_witness :
  let tempQuestion := Quiz.mkTemp "2 + 2 = ?" "4" EmptyString in
  let added := Quiz.handleAddCustomQuestion tempQuestion (Some []) in
  added.1 = Quiz.mkTemp EmptyString EmptyString EmptyString
  ∧ (∃ newQ, added.2 = Some ([] ++ [newQ])
             ∧ Quiz.question newQ = Quiz.JString (Quiz.q tempQuestion)
             ∧ Quiz.answer newQ = Quiz.JString (Quiz.a tempQuestion)
             ∧ Quiz.type newQ = Quiz.JString "custom")
  ∧ Quiz.removeCustomQuestion (length (@nil Quiz.QuizQuestion)) added.2
    = Some [].
Proof.
  apply (proj1 (custom_question_add_remove
                  (Quiz.mkTemp "2 + 2 = ?" "4" EmptyString) []));
    discriminate.
Defined.

Lemma handleAddCustomQuestion_answerable (tempQuestion : Quiz.TempQuestion)
    (questions : option (list Quiz.QuizQuestion)) :
  Forall Quiz.answerable (default [] questions) →
  Forall Quiz.answerable
    (default [] (Quiz.handleAddCustomQuestion tempQuestion questions).2).
Proof.
  intros Hall. unfold Quiz.handleAddCustomQuestion.
  destruct (String.eqb (Quiz.q tempQuestion) EmptyString) eqn:Hq; [done|].
  destruct (String.eqb (Quiz.a tempQuestion) EmptyString) eqn:Ha; [done|].
  simpl. apply Forall_app. split; [done|]. apply Forall_singleton.
  split; simpl; [by rewrite Hq|by rewrite Ha].
Qed.

Lemma removeCustomQuestion_answerable (index : nat)
    (questions : option (list Quiz.QuizQuestion)) :
  Forall Quiz.answerable (default [] questions) →
  Forall Quiz.answerable
    (default [] (Quiz.removeCustomQuestion index questions)).
Proof.
  intros Hall. rewrite removeCustomQuestion_delete. simpl.
  apply Forall_forall. intros x Hx. rewrite Forall_forall in Hall.
  apply Hall. eapply elem_of_sublist; [exact Hx|apply sublist_delete].
Qed.

(** Whatever questions are added and removed through the form, starting
    from none, every custom question has a question text and an answer
    that are not empty. *)
Theorem custom_questions_stay_answerable
    (edits : list (Quiz.TempQuestion + nat)) :
  Forall Quiz.answerable
    (default []
       (foldl (λ questions edit,
                 match edit with
                 | inl tempQuestion =>
                     (Quiz.handleAddCustomQuestion tempQuestion questions).2
                 | inr index => Quiz.removeCustomQuestion index questions
                 end)
          (Some []) edits)).
Proof.
  apply (foldl_preserves
           (λ questions, Forall Quiz.answerable (default [] questions))).
  - constructor.
  - intros questions [tempQuestion|index] _ Hall.
    + by apply handleAddCustomQuestion_answerable.
    + by apply removeCustomQuestion_answerable.
Qed.

(** Every question a player is asked has a question text and an answer
    that are not empty, whether it is drawn from custom questions entered
    through the form, generated by the service or the fallback of the
    service; with custom questions it is one of them, and the service is
    not consulted.  No question is shown in one case only: there is no
    custom question and the call of the model was rejected with a reason
    that is [null] or [undefined]. *)
Theorem quiz_is_always_answerable (rng : nat → Z)
    (profile : Quiz.UserProfile) (ai : bool)
    (parse : string → option Quiz.Json) (outcome : Quiz.ApiOutcome) :
  Forall Quiz.answerable (default [] (Quiz.customQuestions profile)) →
  let shown := Quiz.quizDataOf rng profile ai parse outcome in
  (∀ quiz, shown = Some quiz → Quiz.answerable quiz)
  ∧ (default [] (Quiz.customQuestions profile) ≠ [] →
     ∃ quiz, shown = Some quiz
       ∧ quiz ∈ default [] (Quiz.customQuestions profile))
  ∧ (default [] (Quiz.customQuestions profile) = [] →
     shown = fst <$> Quiz.generateQuizQuestion ai parse outcome)
  ∧ (shown = None
     ↔ default [] (Quiz.customQuestions profile) = []
       ∧ ai = true ∧ outcome = Quiz.Rejected true).
Proof.
  intros Hall shown. subst shown. unfold Quiz.quizDataOf.
  assert (fst <$> Quiz.generateQuizQuestion ai parse outcome = None
          ↔ ai = true ∧ outcome = Quiz.Rejected true) as Hnone.
  { destruct (generateQuizQuestion_cases ai parse outcome)
      as [(Hai & ->)|[(Hai & Hout & ->)|[(Hai & Hout & ->)
         |[(Hai & response & Hout & -> & _)
          |(Hai & response & json & qv & av & Hout & _ & _ & _ & _ & _
            & ->)]]]]; simpl; (split; [|intros [? ?]]);
        try done; try congruence.
    destruct Hout; congruence. }
  destruct (Quiz.customQuestions profile) as [[|x l]|];
    cbn [default] in *; cbv beta iota zeta.
  - split; [intros quiz; apply generateQuizQuestion_answerable|].
    split; [done|]. split; [done|]. rewrite Hnone. tauto.
  - assert (fst (randomElement rng (x :: l) 0%nat) ∈ x :: l) as Hin
      by (by apply randomElement_elem).
    rewrite Forall_forall in Hall.
    split; [intros quiz [= <-]; by apply Hall|].
    split; [intros _; by eexists|]. split; [done|].
    split; [done|by intros [? _]].
  - split; [intros quiz; apply generateQuizQuestion_answerable|].
    split; [done|]. split; [done|]. rewrite Hnone. tauto.
Qed.

Lemma quiz_is_always_answerable_witness :
  let profile :=
    Quiz.mkProfile "An" "7-A" "Animals" Easy
      (Quiz.handleAddCustomQuestion
         (Quiz.mkTemp "2 + 2 = ?" "4" EmptyString) (Some [])).2 in
  let shown :=
    Quiz.quizDataOf (λ _, 0) profile true (λ _, None) (Quiz.Rejected true) in
  (∀ quiz, shown = Some quiz → Quiz.answerable quiz)
  ∧ (default [] (Quiz.customQuestions profile) ≠ [] →
     ∃ quiz, shown = Some quiz
       ∧ quiz ∈ default [] (Quiz.customQuestions profile))
  ∧ (default [] (Quiz.customQuestions profile) = [] →
     shown
     = fst <$> Quiz.generateQuizQuestion true (λ _, None) (Quiz.Rejected true))
  ∧ (shown = None
     ↔ default [] (Quiz.customQuestions profile) = []
       ∧ true = true ∧ Quiz.Rejected true = Quiz.Rejected true).
Proof.
  apply (quiz_is_always_answerable (λ _, 0)
           (Quiz.mkProfile "An" "7-A" "Animals" Easy
              (Quiz.handleAddCustomQuestion
                 (Quiz.mkTemp "2 + 2 = ?" "4" EmptyString) (Some [])).2)
           true (λ _, None) (Quiz.Rejected true)).
  simpl. apply Forall_singleton. by split.
Defined.

(** ** The leaderboard *)

Lemma insert_Permutation (x : Leaderboard.LeaderboardEntry)
    (l : list Leaderboard.LeaderboardEntry) :
  Leaderboard.insert x l ≡ₚ x :: l.
Proof.
  induction l as [|y l IH]; simpl; [done|].
  case_bool_decide; [|done]. rewrite IH. apply Permutation_swap.
Qed.

Lemma sortByScore_Permutation (l : list Leaderboard.LeaderboardEntry) :
  Leaderboard.sortByScore l ≡ₚ l.
Proof.
  induction l as [|x l IH]; simpl; [done|].
  rewrite insert_Permutation. by f_equiv.
Qed.

Lemma insert_descending (x : Leaderboard.LeaderboardEntry)
    (l : list Leaderboard.LeaderboardEntry) :
  Leaderboard.descending l → Leaderboard.descending (Leaderboard.insert x l).
Proof.
  induction l as [|y l IH]; simpl; intros Hd.
  - split; [constructor|done].
  - destruct Hd as [Hy Hl]. case_bool_decide as Hlt; simpl.
    + split; [|by apply IH].
      rewrite insert_Permutation. constructor; [lia|done].
    + split; [|done]. constructor; [lia|].
      eapply Forall_impl; [exact Hy|]. intros z Hz. simpl in Hz. lia.
Qed.

Lemma sortByScore_descending (l : list Leaderboard.LeaderboardEntry) :
  Leaderboard.descending (Leaderboard.sortByScore l).
Proof.
  induction l as [|x l IH]; simpl; [done|]. by apply insert_descending.
Qed.

Lemma insert_filter (s : Z) (x : Leaderboard.LeaderboardEntry)
    (l : list Leaderboard.LeaderboardEntry) :
  filter (λ y, Leaderboard.score y = s) (Leaderboard.insert x l)
  = filter (λ y, Leaderboard.score y = s) (x :: l).
Proof.
  induction l as [|y l IH]; simpl; [done|].
  case_bool_decide as Hlt; [|done].
  rewrite filter_cons, IH, !filter_cons.
  destruct (decide (Leaderboard.score y = s)),
    (decide (Leaderboard.score x = s)); try done. lia.
Qed.

(** The sort keeps entries of equal score in their order. *)
Lemma sortByScore_stable (s : Z) (l : list Leaderboard.LeaderboardEntry) :
  filter (λ y, Leaderboard.score y = s) (Leaderboard.sortByScore l)
  = filter (λ y, Leaderboard.score y = s) l.
Proof.
  induction l as [|x l IH]; simpl; [done|].
  by rewrite insert_filter, !filter_cons, IH.
Qed.

Lemma descending_app (l1 l2 : list Leaderboard.LeaderboardEntry) :
  Leaderboard.descending (l1 ++ l2) →
  Leaderboard.descending l1
  ∧ ∀ kept dropped, kept ∈ l1 → dropped ∈ l2 →
      Leaderboard.score dropped ≤ Leaderboard.score kept.
Proof.
  induction l1 as [|x l1 IH]; simpl.
  - intros _. split; [done|]. intros kept dropped Hk.
    by apply elem_of_nil in Hk.
  - intros [Hx Hd]. destruct (IH Hd) as [Hd1 Hall].
    apply Forall_app in Hx as [Hx1 Hx2]. split; [done|].
    intros kept dropped [->|Hk]%elem_of_cons Hdr.
    + rewrite Forall_forall in Hx2. by apply Hx2.
    + by apply Hall.
Qed.

(** What is saved is ranked: highest score first, entries of equal score
    in the order in which they were saved, the new entry behind them, at
    most 100 entries, and none that was dropped scores more than one that
    was kept.  Without a profile nothing is saved. *)
Theorem saveToLeaderboard_ranking (profile : Quiz.UserProfile)
    (scoreNow : Z) (today : string)
    (leaderboard : list Leaderboard.LeaderboardEntry) :
  let newEntry :=
    Leaderboard.mkEntry (Quiz.name profile) (Quiz.className profile)
      scoreNow today (Quiz.difficulty profile) in
  let updated :=
    Leaderboard.saveToLeaderboard (Some profile) scoreNow today leaderboard in
  Leaderboard.descending updated
  ∧ length updated = (100 `min` S (length leaderboard))%nat
  ∧ (∀ s, filter (λ y, Leaderboard.score y = s) updated
          `prefix_of` filter (λ y, Leaderboard.score y = s)
                        (leaderboard ++ [newEntry]))
  ∧ (∃ dropped,
       updated ++ dropped ≡ₚ leaderboard ++ [newEntry]
       ∧ ∀ kept d, kept ∈ updated → d ∈ dropped →
           Leaderboard.score d ≤ Leaderboard.score kept)
  ∧ Leaderboard.saveToLeaderboard None scoreNow today leaderboard
    = leaderboard.
Proof.
  intros newEntry updated. subst updated. unfold Leaderboard.saveToLeaderboard.
  fold newEntry.
  set (sorted := Leaderboard.sortByScore (leaderboard ++ [newEntry])).
  pose proof (sortByScore_descending (leaderboard ++ [newEntry])) as Hdesc.
  fold sorted in Hdesc. rewrite <- (take_drop 100 sorted) in Hdesc.
  apply descending_app in Hdesc as [Hd Hbetter].
  split; [done|]. split.
  { rewrite length_take. unfold sorted.
    rewrite (Permutation_length (sortByScore_Permutation _)), length_app.
    change (length [newEntry]) with 1%nat. lia. }
  split.
  { intros s. rewrite <- (sortByScore_stable s (leaderboard ++ [newEntry])).
    fold sorted. rewrite <- (take_drop 100 sorted) at 2.
    rewrite filter_app. by apply prefix_app_r. }
  split; [|done].
  exists (drop 100 sorted). split; [|done].
  rewrite take_drop. apply sortByScore_Permutation.
Qed.

Lemma insert_insertLast (x e : Leaderboard.LeaderboardEntry)
    (l : list Leaderboard.LeaderboardEntry) :
  Leaderboard.insert x (Leaderboard.insertLast e l)
  = Leaderboard.insertLast e (Leaderboard.insert x l).
Proof.
  induction l as [|y l IH]; simpl.
  - repeat case_bool_decide; simpl; repeat case_bool_decide; done || lia.
  - repeat case_bool_decide; simpl; repeat case_bool_decide;
      rewrite ?IH; done || lia.
Qed.

Lemma sortByScore_snoc (e : Leaderboard.LeaderboardEntry)
    (l : list Leaderboard.LeaderboardEntry) :
  Leaderboard.sortByScore (l ++ [e])
  = Leaderboard.insertLast e (Leaderboard.sortByScore l).
Proof.
  unfold Leaderboard.sortByScore.
  induction l as [|x l IH]; simpl; [done|].
  rewrite IH. apply insert_insertLast.
Qed.

Lemma sortByScore_sorted (l : list Leaderboard.LeaderboardEntry) :
  Leaderboard.descending l → Leaderboard.sortByScore l = l.
Proof.
  unfold Leaderboard.sortByScore.
  induction l as [|x l IH]; simpl; [done|]. intros [Hx Hd].
  rewrite IH by done.
  destruct l as [|y l]; [done|]. simpl.
  apply Forall_cons in Hx as [Hy _].
  by rewrite bool_decide_false by lia.
Qed.

Lemma insertLast_take (n : nat) (e : Leaderboard.LeaderboardEntry)
    (l : list Leaderboard.LeaderboardEntry) :
  Leaderboard.descending l →
  (n ≤ Leaderboard.atLeast (Leaderboard.score e) l)%nat →
  take n (Leaderboard.insertLast e l) = take n l.
Proof.
  unfold Leaderboard.atLeast. revert n.
  induction l as [|y l IH]; intros n Hd Hn; simpl in *.
  - by assert (n = 0%nat) as -> by lia.
  - destruct Hd as [Hy Hd]. rewrite filter_cons in Hn.
    case_bool_decide as Hle.
    + rewrite decide_True in Hn by done. destruct n as [|n]; [done|].
      simpl in *. f_equal. apply IH; [done|lia].
    + rewrite decide_False in Hn by done.
      assert (filter (λ z, Leaderboard.score e ≤ Leaderboard.score z) l = [])
        as Hnil.
      { apply elem_of_nil_inv. intros z [Hz Hin]%list_elem_of_filter.
        rewrite Forall_forall in Hy. specialize (Hy z Hin). simpl in Hy.
        lia. }
      rewrite Hnil in Hn. simpl in Hn.
      by assert (n = 0%nat) as -> by lia.
Qed.

Lemma insertLast_at (e : Leaderboard.LeaderboardEntry)
    (l : list Leaderboard.LeaderboardEntry) :
  Leaderboard.descending l →
  Leaderboard.insertLast e l !! Leaderboard.atLeast (Leaderboard.score e) l
  = Some e.
Proof.
  unfold Leaderboard.atLeast. induction l as [|y l IH]; simpl; [done|].
  intros [Hy Hd]. rewrite filter_cons. case_bool_decide as Hle.
  - rewrite decide_True by done. simpl. by apply IH.
  - rewrite decide_False by done.
    assert (filter (λ z, Leaderboard.score e ≤ Leaderboard.score z) l = [])
      as ->; [|done].
    apply elem_of_nil_inv. intros z [Hz Hin]%list_elem_of_filter.
    rewrite Forall_forall in Hy. specialize (Hy z Hin). simpl in Hy. lia.
Qed.

(** On a leaderboard that is ranked, the new entry is saved when fewer
    than 100 entries score at least as much, and then stands behind them;
    when 100 entries or more score at least as much, a tie included, the
    leaderboard keeps its first 100 entries and the new one is dropped. *)
Theorem saveToLeaderboard_new_entry (profile : Quiz.UserProfile)
    (scoreNow : Z) (today : string)
    (leaderboard : list Leaderboard.LeaderboardEntry) :
  Leaderboard.descending leaderboard →
  let newEntry :=
    Leaderboard.mkEntry (Quiz.name profile) (Quiz.className profile)
      scoreNow today (Quiz.difficulty profile) in
  let updated :=
    Leaderboard.saveToLeaderboard (Some profile) scoreNow today leaderboard in
  let rivals := Leaderboard.atLeast scoreNow leaderboard in
  ((rivals < 100)%nat →
   updated !! rivals = Some newEntry
   ∧ take rivals updated = take rivals leaderboard)
  ∧ ((100 ≤ rivals)%nat → updated = take 100 leaderboard).
Proof.
  intros Hd newEntry updated rivals. subst updated.
  unfold Leaderboard.saveToLeaderboard. fold newEntry.
  rewrite sortByScore_snoc, sortByScore_sorted by done.
  change scoreNow with (Leaderboard.score newEntry) in rivals.
  split.
  - intros Hlt. split.
    + rewrite lookup_take_lt by done. by apply insertLast_at.
    + rewrite take_take, Nat.min_l by lia. by apply insertLast_take.
  - intros Hge. by apply insertLast_take.
Qed.

Lemma saveToLeaderboard_new_entry_witness :
  let profile := Quiz.mkProfile "An" "7-A" "Animals" Easy None in
  let leaderboard :=
    [Leaderboard.mkEntry "Binh" "7-B" 900 "1/1/2025" Hard;
     Leaderboard.mkEntry "Chi" "7-A" 700 "2/1/2025" Easy] in
  let newEntry := Leaderboard.mkEntry "An" "7-A" 700 "3/1/2025" Easy in
  let updated :=
    Leaderboard.saveToLeaderboard (Some profile) 700 "3/1/2025" leaderboard in
  let rivals := Leaderboard.atLeast 700 leaderboard in
  ((rivals < 100)%nat →
   updated !! rivals = Some newEntry
   ∧ take rivals updated = take rivals leaderboard)
  ∧ ((100 ≤ rivals)%nat → updated = take 100 leaderboard).
Proof.
  apply (saveToLeaderboard_new_entry
           (Quiz.mkProfile "An" "7-A" "Animals" Easy None) 700 "3/1/2025"
           [Leaderboard.mkEntry "Binh" "7-B" 900 "1/1/2025" Hard;
            Leaderboard.mkEntry "Chi" "7-A" 700 "2/1/2025" Easy]).
  simpl. repeat constructor; simpl; lia.
Defined.

(** ** The danger line *)

Lemma sqrt3_facts : (0 < sqrt 3)%R ∧ (sqrt 3 * sqrt 3 = 3)%R.
Proof.
  split.
  - apply sqrt_lt_R0. lra.
  - apply sqrt_sqrt. lra.
Qed.

Lemma Q2R_inject_Z (z : Z) : Q2R (inject_Z z) = IZR z.
Proof. unfold Q2R. simpl. lra. Qed.

(** The test on the row index that stands for the danger line is the
    test of the source on the pixel position, in exact real arithmetic: a
    row is past the line exactly when the [y] that [getBubblePos] gives it
    exceeds [canvasHeight - SLINGSHOT_BOTTOM_OFFSET - 80]. *)
Theorem rowPastDangerLine_is_the_pixel_test (cols width height r c : Z) :
  rowPastDangerLine height r = true
  ↔ (IZR (height - SLINGSHOT_BOTTOM_OFFSET - 80)
     < surdToR (posY (getBubblePos cols r c width)))%R.
Proof.
  destruct sqrt3_facts as [Hpos Hsq]. set (s := sqrt 3) in *.
  unfold rowPastDangerLine, surdToR, getBubblePos.
  cbn [posY ratPart sqrt3Part]. rewrite !Q2R_inject_Z. fold s.
  unfold SLINGSHOT_BOTTOM_OFFSET, BUBBLE_RADIUS.
  set (d := height - 220 - 80 - 20).
  replace (height - 220 - 80) with (d + 20) by (unfold d; lia).
  rewrite plus_IZR, mult_IZR.
  assert (IZR (d * d) = IZR d * IZR d)%R as Hd2 by apply mult_IZR.
  assert (IZR (1200 * r * r) = 1200 * IZR r * IZR r)%R as Hr2
    by (by rewrite !mult_IZR).
  case_bool_decide as Hr.
  - apply IZR_le in Hr. rewrite orb_true_iff, !bool_decide_eq_true. split.
    + intros [Hd|Hd]; apply IZR_lt in Hd.
      * assert (0 <= IZR r * s)%R by (apply Rmult_le_pos; lra). lra.
      * rewrite Hd2, Hr2 in Hd.
        assert (0 <= IZR r * s)%R by (apply Rmult_le_pos; lra).
        destruct (Rlt_le_dec (IZR d) 0) as [Hneg|Hnn]; [lra|].
        apply Rnot_le_lt. intros Hle.
        assert (20 * (IZR r * s) * (20 * (IZR r * s)) <= IZR d * IZR d)%R
          by (apply Rmult_le_compat; lra).
        assert (20 * (IZR r * s) * (20 * (IZR r * s))
                = 400 * (IZR r * IZR r) * (s * s))%R as Heq by ring.
        rewrite Heq, Hsq in H0. lra.
    + intros Hlt. destruct (decide (d < 0)) as [|Hd]; [by left|right].
      assert (0 <= IZR d)%R by (apply IZR_le; lia).
      apply lt_IZR. rewrite Hd2, Hr2.
      assert (IZR d * IZR d < 20 * (IZR r * s) * (20 * (IZR r * s)))%R
        by (apply Rmult_le_0_lt_compat; lra).
      assert (20 * (IZR r * s) * (20 * (IZR r * s))
              = 400 * (IZR r * IZR r) * (s * s))%R as Heq by ring.
      rewrite Heq, Hsq in H0. lra.
  - assert (IZR r < 0)%R as Hrn by (apply IZR_lt; lia).
    assert (0 < - IZR r * s)%R as Hprod by (apply Rmult_lt_0_compat; lra).
    rewrite andb_true_iff, !bool_decide_eq_true. split.
    + intros [Hd Hd']. apply IZR_lt in Hd, Hd'. rewrite Hd2, Hr2 in Hd'.
      apply Rnot_le_lt. intros Hle.
      assert (- IZR d * - IZR d <= 20 * (- IZR r * s) * (20 * (- IZR r * s)))%R
        by (apply Rmult_le_compat; lra).
      assert (20 * (- IZR r * s) * (20 * (- IZR r * s))
              = 400 * (IZR r * IZR r) * (s * s))%R as Heq by ring.
      rewrite Heq, Hsq in H. lra.
    + intros Hlt. assert (IZR d < 0)%R as Hdn by lra.
      split; [apply lt_IZR; lra|].
      apply lt_IZR. rewrite Hd2, Hr2.
      assert (20 * (- IZR r * s) * (20 * (- IZR r * s)) < - IZR d * - IZR d)%R
        by (apply Rmult_le_0_lt_compat; lra).
      assert (20 * (- IZR r * s) * (20 * (- IZR r * s))
              = 400 * (IZR r * IZR r) * (s * s))%R as Heq by ring.
      rewrite Heq, Hsq in H. lra.
Qed.

(** ** From the shot to the award *)

Lemma onResults_land_profile {num} (numLt : num → num → bool)
    (infinity : num) (w : World) (distTo : Z → Z → num) (g : Game) :
  userProfile (onResults_land numLt infinity w distTo g) = userProfile g
  ∧ score (onResults_land numLt infinity w distTo g) = score g.
Proof.
  unfold onResults_land.
  destruct (isPaused g || gameOver g); [done|].
  destruct (isFlying g && negb (isQuizActive g) && negb (gameOver g));
    [|done].
  cbv zeta.
  set (g1 := withBoard _ _ (withIsFlying false g)).
  destruct (checkMatches_fields (length (heap (withIsFlying false g))) g1)
    as (Hs & _ & _ & _ & _ & _ & Hu & _).
  set (g2 := fst (checkMatches _ g1)) in *.
  destruct (match bestYRow _ with Some _ => _ | None => _ end); simpl;
    by rewrite Hs, Hu.
Qed.

(** The award follows the shot: when a landing opens a quiz and the quiz
    is then resolved with an award, the score grows by the points of the
    colour that was shot for every bubble of the match, twice these points
    for every bubble that starts to float, and the bonus of 500. *)
Theorem award_follows_the_shot {num} (numLt : num → num → bool)
    (infinity : num) (w w' : World) (distTo : Z → Z → num) (g : Game)
    (d : Difficulty) :
  userProfile g = Some d → isQuizActive g = false →
  let landed := onResults_land numLt infinity w distTo g in
  isQuizActive landed = true →
  score (completeMatch w' true landed)
  = score g
    + (Z.of_nat (length (pendingMatches landed)) * points (currentAmmo g)
       + Z.of_nat (length (floatingAfterPop (perfNow w') landed))
         * points (currentAmmo g) * 2
       + 500).
Proof.
  intros Hd Hq landed Hopen.
  destruct (onResults_land_profile numLt infinity w distTo g) as [Hu Hs].
  fold landed in Hu, Hs.
  destruct (onResults_land_pending numLt infinity w distTo g Hq)
    as [[Hno _]|(_ & rest & Hp & _ & Hall)];
    [fold landed in Hno; congruence|].
  fold landed in Hp, Hall.
  destruct (completeMatch_stage w' true landed) as [-> _].
  rewrite Hu, Hd, awardMatch_score, Hs, Hp.
  destruct (Hall (length (heap g))) as (_ & _ & ->); [rewrite Hp; left|].
  done.
Qed.

Lemma award_follows_the_shot_witness :
  let g := withIsFlying true (withQuiz false [] exampleGame) in
  let landed :=
    onResults_land extLt None exampleWorld
      (λ r c, Some ((r - 2) * (r - 2) + c * c)) g in
  score (completeMatch exampleWorld true landed)
  = score g
    + (Z.of_nat (length (pendingMatches landed)) * points (currentAmmo g)
       + Z.of_nat (length (floatingAfterPop (perfNow exampleWorld) landed))
         * points (currentAmmo g) * 2
       + 500).
Proof.
  apply (award_follows_the_shot extLt None exampleWorld exampleWorld
           (λ r c, Some ((r - 2) * (r - 2) + c * c))
           (withIsFlying true (withQuiz false [] exampleGame)) Easy);
    reflexivity.
Defined.
